(** * Options pricing, Monte Carlo simulation and portfolio optimisation

    A shallow embedding of the numerical core of the toolkit
    ([lib/black-scholes.js], [lib/monte-carlo.js],
    [lib/portfolio-optimizer.js]) and of the functions of the page script
    that compute ([assets/js/main.js]), the properties its specification
    states about it, and further properties of the code.

    JavaScript numbers are modelled as _idealised doubles_: a finite value
    is an exact real number, and the three IEEE special values
    [Infinity], [-Infinity] and [NaN] are kept, with the IEEE rules for
    the operations that produce or consume them (division by zero,
    [Infinity - Infinity], [0 * Infinity], comparisons with [NaN], ...).
    Rounding, overflow, underflow and the sign of zero are not modelled:
    a zero divisor is read as [+0]. *)

From Stdlib Require Import Reals Lra Lia List String Ascii Bool ZArith Sorted.
Import ListNotations.

(** ** JavaScript numbers *)

Module JS.

Inductive number : Type :=
| Fin (x : R)
| PInf
| NInf
| NaN.

Definition Rltb (a b : R) : bool := if Rlt_dec a b then true else false.
Definition Rleb (a b : R) : bool := if Rle_dec a b then true else false.
Definition Reqb (a b : R) : bool := if Req_dec_T a b then true else false.

(** The infinity with the sign of [x], [NaN] when [x] is zero:
    the value of [x * Infinity] and of [x / 0]. *)
Definition signed_inf (x : R) : number :=
  if Rltb 0 x then PInf else if Rltb x 0 then NInf else NaN.

Definition neg (a : number) : number :=
  match a with
  | Fin x => Fin (- x)
  | PInf => NInf
  | NInf => PInf
  | NaN => NaN
  end.

Definition add (a b : number) : number :=
  match a, b with
  | NaN, _ | _, NaN => NaN
  | Fin x, Fin y => Fin (x + y)
  | PInf, NInf | NInf, PInf => NaN
  | PInf, _ | _, PInf => PInf
  | NInf, _ | _, NInf => NInf
  end.

Definition sub (a b : number) : number := add a (neg b).

Definition mul (a b : number) : number :=
  match a, b with
  | NaN, _ | _, NaN => NaN
  | Fin x, Fin y => Fin (x * y)
  | Fin x, PInf | PInf, Fin x => signed_inf x
  | Fin x, NInf | NInf, Fin x => signed_inf (- x)
  | PInf, PInf | NInf, NInf => PInf
  | PInf, NInf | NInf, PInf => NInf
  end.

Definition div (a b : number) : number :=
  match a, b with
  | NaN, _ | _, NaN => NaN
  | Fin x, Fin y => if Reqb y 0 then signed_inf x else Fin (x / y)
  | Fin _, _ => Fin 0
  | PInf, Fin y => if Rltb y 0 then NInf else PInf
  | NInf, Fin y => if Rltb y 0 then PInf else NInf
  | _, _ => NaN
  end.

(** [a < b], [a <= b], [a > b]: false as soon as one side is [NaN]. *)
Definition lt (a b : number) : bool :=
  match a, b with
  | NaN, _ | _, NaN => false
  | Fin x, Fin y => Rltb x y
  | _, NInf | PInf, _ => false
  | _, PInf | NInf, _ => true
  end.

Definition le (a b : number) : bool :=
  match a, b with
  | NaN, _ | _, NaN => false
  | Fin x, Fin y => Rleb x y
  | NInf, _ | _, PInf => true
  | _, NInf | PInf, _ => false
  end.

Definition gt (a b : number) : bool := lt b a.

Definition isNaN (a : number) : bool :=
  match a with NaN => true | _ => false end.

Definition isFinite (a : number) : bool :=
  match a with Fin _ => true | _ => false end.

(** [Math.max] and [Math.min] of two arguments. *)
Definition Math_max (a b : number) : number :=
  match a, b with
  | NaN, _ | _, NaN => NaN
  | _, _ => if lt a b then b else a
  end.

Definition Math_min (a b : number) : number :=
  match a, b with
  | NaN, _ | _, NaN => NaN
  | _, _ => if lt b a then b else a
  end.

(** [Math.max(...xs)] and [Math.min(...xs)]: with no argument they are
    [-Infinity] and [Infinity]. *)
Definition Math_max_all (xs : list number) : number := fold_left Math_max xs NInf.
Definition Math_min_all (xs : list number) : number := fold_left Math_min xs PInf.

Definition Math_abs (a : number) : number :=
  match a with
  | Fin x => Fin (Rabs x)
  | PInf | NInf => PInf
  | NaN => NaN
  end.

Definition Math_sqrt (a : number) : number :=
  match a with
  | Fin x => if Rltb x 0 then NaN else Fin (sqrt x)
  | PInf => PInf
  | NInf | NaN => NaN
  end.

Definition Math_exp (a : number) : number :=
  match a with
  | Fin x => Fin (exp x)
  | PInf => PInf
  | NInf => Fin 0
  | NaN => NaN
  end.

Definition Math_log (a : number) : number :=
  match a with
  | Fin x => if Rltb x 0 then NaN else if Reqb x 0 then NInf else Fin (ln x)
  | PInf => PInf
  | NInf | NaN => NaN
  end.

Definition Math_cos (a : number) : number :=
  match a with
  | Fin x => Fin (cos x)
  | _ => NaN
  end.

(** [Math.pow(a, n)] for a natural exponent [n]. *)
Definition Math_pow (a : number) (n : nat) : number :=
  match n with
  | O => Fin 1
  | _ =>
    match a with
    | Fin x => Fin (x ^ n)
    | PInf => PInf
    | NInf => if Nat.even n then PInf else NInf
    | NaN => NaN
    end
  end.

Definition Math_floor (a : number) : number :=
  match a with
  | Fin x => Fin (IZR (Int_part x))
  | _ => a
  end.

Definition Math_PI : number := Fin PI.

(** [Number.EPSILON] is 2^-52. *)
Definition EPSILON : number := Fin (/ 2 ^ 52).

Definition of_nat (n : nat) : number := Fin (INR n).

(** An array read [a[i]]: [None] is [undefined]. *)
Definition get {A : Type} (a : list A) (i : Z) : option A :=
  if (i <? 0)%Z then None else nth_error a (Z.to_nat i).

(** [undefined] used as an operand of arithmetic is [NaN]. *)
Definition to_number (o : option number) : number :=
  match o with Some x => x | None => NaN end.

(** [s.toLowerCase()] on the ASCII letters. *)
Definition lower_ascii (c : ascii) : ascii :=
  let n := nat_of_ascii c in
  if andb (Nat.leb 65 n) (Nat.leb n 90) then ascii_of_nat (n + 32) else c.

Fixpoint toLowerCase (s : string) : string :=
  match s with
  | EmptyString => EmptyString
  | String c s' => String (lower_ascii c) (toLowerCase s')
  end.

End JS.

Declare Scope js_scope.
Delimit Scope js_scope with js.
Bind Scope js_scope with JS.number.
Coercion JS.Fin : R >-> JS.number.
Notation "a + b" := (JS.add a b) : js_scope.
Notation "a - b" := (JS.sub a b) : js_scope.
Notation "a * b" := (JS.mul a b) : js_scope.
Notation "a / b" := (JS.div a b) : js_scope.
Notation "- a" := (JS.neg a) : js_scope.
Notation "a <? b" := (JS.lt a b) : js_scope.
Notation "a <=? b" := (JS.le a b) : js_scope.
Notation "a >? b" := (JS.gt a b) : js_scope.

(** ** Black-Scholes pricing engine ([lib/black-scholes.js]) *)

Module BlackScholes.

Local Open Scope R_scope.
Local Open Scope js_scope.
Import JS.

(** The [params] object of [calculate]. *)
Record Params : Type := {
  S : number;
  K : number;
  r : number;
  v : number;
  T : number;
  type : string
}.

(** The object [calculate] returns. *)
Record PricingResult : Type := {
  price : number;
  delta : number;
  gamma : number;
  vega : number;
  theta : number;
  rho : number
}.

Definition a1 : number := 0.254829592.
Definition a2 : number := - 0.284496736.
Definition a3 : number := 1.421413741.
Definition a4 : number := - 1.453152027.
Definition a5 : number := 1.061405429.
Definition p : number := 0.3275911.

Definition normalCDF (x : number) : number :=
  let sign : number := if x <? 0 then (-1)%R else 1 in
  let x := Math_abs x / Math_sqrt 2.0 in
  let t := 1.0 / (1.0 + p * x) in
  let erf := 1.0 - (((((a5 * t + a4) * t) + a3) * t + a2) * t + a1) * t * Math_exp (- x * x) in
  0.5 * (1.0 + sign * erf).

Definition normalPDF (x : number) : number :=
  Math_exp (- 0.5 * x * x) / Math_sqrt (2.0 * Math_PI).

Definition d1 (S K r v T : number) : number :=
  (Math_log (S / K) + (r + 0.5 * v * v) * T) / (v * Math_sqrt T).

Definition d2 (d1 v T : number) : number :=
  d1 - v * Math_sqrt T.

Definition isCall (type : string) : bool :=
  String.eqb (toLowerCase type) "call".

Definition calculateExpired (params : Params) : PricingResult :=
  let S := S params in
  let K := K params in
  let isCall := isCall (type params) in
  {| price := Math_max 0 (if isCall then S - K else K - S);
     delta := if isCall then (if S >? K then 1 else 0)
              else (if S <? K then (-1)%R else 0);
     gamma := 0;
     vega := 0;
     theta := 0;
     rho := 0 |}.

Definition calculateZeroVol (params : Params) : PricingResult :=
  let S := S params in
  let K := K params in
  let r := r params in
  let T := T params in
  let discount := Math_exp (- r * T) in
  let isCall := isCall (type params) in
  let price :=
    if isCall then Math_max 0 (S - K * discount)
    else Math_max 0 (K * discount - S) in
  {| price := price;
     delta := if isCall then (if S >? K * discount then 1 else 0)
              else (if S <? K * discount then (-1)%R else 0);
     gamma := 0;
     vega := 0;
     theta := - r * K * discount / 365;
     rho := if isCall then K * T * discount / 100
            else - K * T * discount / 100 |}.

Definition calculate (params : Params) : PricingResult :=
  let S := S params in
  let K := K params in
  let r := r params in
  let v := v params in
  let T := T params in
  let type := type params in
  if T <=? 0 then calculateExpired params else
  if v <=? 0 then calculateZeroVol params else
  let d1Value := d1 S K r v T in
  let d2Value := d2 d1Value v T in
  let Nd1 := normalCDF d1Value in
  let Nd2 := normalCDF d2Value in
  let NNd1 := normalCDF (- d1Value) in
  let NNd2 := normalCDF (- d2Value) in
  let discount := Math_exp (- r * T) in
  let sqrtT := Math_sqrt T in
  let price := if isCall type then S * Nd1 - K * discount * Nd2
               else K * discount * NNd2 - S * NNd1 in
  let delta := if isCall type then Nd1 else - NNd1 in
  let rho := if isCall type then K * T * discount * Nd2 / 100
             else - K * T * discount * NNd2 / 100 in
  let gamma := normalPDF d1Value / (S * v * sqrtT) in
  let vega := S * sqrtT * normalPDF d1Value / 100 in
  let term1 := - (S * v * normalPDF d1Value) / (2 * sqrtT) in
  let term2 := r * K * discount in
  let theta := if isCall type then (term1 - term2 * Nd2) / 365
               else (term1 + term2 * NNd2) / 365 in
  {| price := Math_max 0 price;
     delta := delta;
     gamma := gamma;
     vega := vega;
     theta := theta;
     rho := rho |}.

End BlackScholes.

(** ** Monte Carlo simulation engine ([lib/monte-carlo.js]) *)

Module MonteCarloEngine.

Local Open Scope R_scope.
Local Open Scope js_scope.
Import JS.

(** *** The source of randomness

    [Math.random()] is modelled by a tape of uniform draws that is read
    from the left; a computation that needs more draws than the tape
    holds yields [None]. *)

Definition Rand (A : Type) : Type := list R -> option (A * list R).

Definition ret {A : Type} (a : A) : Rand A := fun tape => Some (a, tape).

Definition bind {A B : Type} (m : Rand A) (f : A -> Rand B) : Rand B :=
  fun tape =>
    match m tape with
    | Some (a, tape') => f a tape'
    | None => None
    end.

Notation "x <- m ;; k" := (bind m (fun x => k))
  (at level 61, m at next level, right associativity).

(** The [params] object shared by [generatePath], [generatePaths] and
    [priceOption].  The numbers of paths and of steps are loop bounds:
    they are kept as natural numbers and converted with [of_nat] where
    the code computes with them. *)
Record Params : Type := {
  S0 : number;
  K : number;
  r : number;
  mu : number;
  sigma : number;
  T : number;
  paths : nat;
  steps : nat;
  type : string;
  style : string
}.

(** [{...params, mu: m}] *)
Definition with_mu (params : Params) (m : number) : Params :=
  {| S0 := S0 params; K := K params; r := r params; mu := m;
     sigma := sigma params; T := T params; paths := paths params;
     steps := steps params; type := type params; style := style params |}.

Record ConfidenceInterval : Type := {
  lower : number;
  upper : number
}.

Record SimulationResult : Type := {
  price : number;
  confidenceInterval : ConfidenceInterval;
  standardError : number
}.

Record RiskMetrics : Type := {
  valueAtRisk : number;
  conditionalVaR : number;
  worstReturn : option number;
  bestReturn : option number
}.

(** The [do ... while (u1 <= Number.EPSILON)] loop draws two uniforms per
    round and starts over while the first one is too small. *)
Fixpoint boxMuller (tape : list R) : option (number * list R) :=
  match tape with
  | u1 :: u2 :: rest =>
    if Fin u1 <=? EPSILON then boxMuller rest
    else
      let z0 := Math_sqrt (-2.0 * Math_log u1) * Math_cos (2.0 * Math_PI * u2) in
      Some (z0, rest)
  | _ => None
  end.

(** One pass of the body of the [for] loop of [generatePath], at index [i]. *)
Definition generatePath_step (params : Params) (dt : number) (i : nat)
  (path : list number) : Rand (list number) :=
  let mu := mu params in
  let sigma := sigma params in
  let previousPrice := to_number (get path (Z.of_nat i - 1)) in
  randomNormal <- boxMuller ;;
  let drift := (mu - 0.5 * sigma * sigma) * dt in
  let diffusion := sigma * Math_sqrt dt * randomNormal in
  let newPrice := previousPrice * Math_exp (drift + diffusion) in
  ret (path ++ [newPrice]).

(** [n] passes of the loop, for [i], [i+1], ... *)
Fixpoint generatePath_loop (params : Params) (dt : number) (i n : nat)
  (path : list number) : Rand (list number) :=
  match n with
  | O => ret path
  | S n' =>
    path' <- generatePath_step params dt i path ;;
    generatePath_loop params dt (S i) n' path'
  end.

Definition generatePath (params : Params) : Rand (list number) :=
  let dt := T params / of_nat (steps params) in
  generatePath_loop params dt 1 (steps params) [S0 params].

Fixpoint generatePaths_loop (params : Params) (n : nat)
  (allPaths : list (list number)) : Rand (list (list number)) :=
  match n with
  | O => ret allPaths
  | S n' =>
    path <- generatePath params ;;
    generatePaths_loop params n' (allPaths ++ [path])
  end.

Definition generatePaths (params : Params) : Rand (list (list number)) :=
  generatePaths_loop params (paths params) [].

(** The callback of [simulationPaths.map] in [priceOption]. *)
Definition payoff (type : string) (K : number) (path : list number) : number :=
  let finalPrice := to_number (get path (Z.of_nat (List.length path) - 1)) in
  if String.eqb (toLowerCase type) "call" then Math_max 0 (finalPrice - K)
  else Math_max 0 (K - finalPrice).

Definition priceOption (params : Params) : Rand SimulationResult :=
  let K := K params in
  let r := r params in
  let T := T params in
  let paths := of_nat (paths params) in
  let type := type params in
  simulationPaths <- generatePaths (with_mu params r) ;;
  let payoffs := map (payoff type K) simulationPaths in
  let meanPayoff := fold_left (fun sum payoff => sum + payoff) payoffs (Fin 0) / paths in
  let price := meanPayoff * Math_exp (- r * T) in
  let variance :=
    fold_left (fun sum payoff => sum + Math_pow (payoff - meanPayoff) 2) payoffs (Fin 0)
    / (paths - 1) in
  let standardError := Math_sqrt (variance / paths) in
  let confidenceInterval :=
    {| lower := price - 1.96 * standardError * Math_exp (- r * T);
       upper := price + 1.96 * standardError * Math_exp (- r * T) |} in
  ret {| price := price;
         confidenceInterval := confidenceInterval;
         standardError := standardError * Math_exp (- r * T) |}.

(** [returns.sort((a, b) => a - b)].  On finite numbers the comparator
    [a - b] is a total preorder, so that every stable sorting algorithm
    gives the same array; an insertion sort is used here.  [y] stays
    before [x] exactly when [compare(x, y) > 0]; where the comparator is
    inconsistent ([NaN] among the elements) the order that JavaScript
    gives is implementation-defined, and nothing below depends on it. *)
Fixpoint insert (compare : number -> number -> number) (x : number)
  (l : list number) : list number :=
  match l with
  | [] => [x]
  | y :: l' =>
    if compare x y >? 0 then y :: insert compare x l' else x :: y :: l'
  end.

Definition sort (compare : number -> number -> number) (l : list number)
  : list number :=
  fold_right (insert compare) [] l.

(** [a[i]] for an index that is a number: [undefined] unless [i] is an
    integer within the bounds. *)
Definition get_at {A : Type} (a : list A) (i : number) : option A :=
  match i with
  | Fin x => if Reqb x (IZR (Int_part x)) then get a (Int_part x) else None
  | _ => None
  end.

(** Rounding towards zero, as [slice] does with its arguments. *)
Definition trunc (x : R) : Z :=
  if Rltb x 0 then (- Int_part (- x))%Z else Int_part x.

(** [a.slice(0, e)]: a negative [e] counts from the end of the array. *)
Definition slice0 {A : Type} (a : list A) (e : number) : list A :=
  let len := Z.of_nat (List.length a) in
  match e with
  | NaN | NInf => []
  | PInf => a
  | Fin x =>
    let k := trunc x in
    let final := if (k <? 0)%Z then Z.max (len + k) 0 else Z.min k len in
    firstn (Z.to_nat final) a
  end.

(** The callback of [paths.map] in [calculateRiskMetrics]. *)
Definition path_return (path : list number) : number :=
  let finalPrice := to_number (get path (Z.of_nat (List.length path) - 1)) in
  (finalPrice - to_number (get path 0)) / to_number (get path 0).

Definition calculateRiskMetrics (paths : list (list number))
  (confidence initialValue : number) : RiskMetrics :=
  let returns := map path_return paths in
  let returns := sort (fun a b => a - b) returns in
  let varIndex := Math_floor (of_nat (List.length returns) * (1 - confidence)) in
  let var95 := - to_number (get_at returns varIndex) * initialValue in
  let cvar :=
    - fold_left (fun sum ret => sum + ret) (slice0 returns varIndex) (Fin 0)
    / varIndex * initialValue in
  {| valueAtRisk := var95;
     conditionalVaR := cvar;
     worstReturn := get returns 0;
     bestReturn := get returns (Z.of_nat (List.length returns) - 1) |}.

End MonteCarloEngine.

(** ** Portfolio optimizer ([lib/portfolio-optimizer.js]) *)

Module PortfolioOptimizer.

Local Open Scope R_scope.
Local Open Scope js_scope.
Import JS.

(** Reading [covariance[i][j]] throws a [TypeError] when the row
    [covariance[i]] is [undefined]; nothing else in the module throws. *)
Inductive result (A : Type) : Type :=
| Ok (a : A)
| TypeError.
Arguments Ok {A} a.
Arguments TypeError {A}.

Definition bind {A B : Type} (m : result A) (f : A -> result B) : result B :=
  match m with
  | Ok a => f a
  | TypeError => TypeError
  end.

Notation "x <- m ;; k" := (bind m (fun x => k))
  (at level 61, m at next level, right associativity).

(** [for (let i = i0; i < i0 + n; i++) body], threading the variables the
    body assigns. *)
Fixpoint for_loop {St : Type} (i n : nat) (body : nat -> St -> result St)
  (s : St) : result St :=
  match n with
  | O => Ok s
  | S n' => s' <- body i s ;; for_loop (S i) n' body s'
  end.

(** [a.reduce((acc, x, i) => f(acc, x, i), init)] and
    [a.map((x, i) => f(x, i))]. *)
Fixpoint reduce_from {A B : Type} (f : B -> A -> nat -> B) (i : nat)
  (a : list A) (acc : B) : B :=
  match a with
  | [] => acc
  | x :: a' => reduce_from f (S i) a' (f acc x i)
  end.

Definition reduce {A B : Type} (f : B -> A -> nat -> B) (a : list A) (init : B) : B :=
  reduce_from f 0 a init.

Fixpoint map_from {A B : Type} (f : A -> nat -> B) (i : nat) (a : list A) : list B :=
  match a with
  | [] => []
  | x :: a' => f x i :: map_from f (S i) a'
  end.

Definition mapi {A B : Type} (f : A -> nat -> B) (a : list A) : list B :=
  map_from f 0 a.

(** [a[i]] as an operand, and the assignment [a[i] = x] within bounds. *)
Definition at_ (a : list number) (i : nat) : number :=
  to_number (nth_error a i).

Fixpoint set_at (a : list number) (i : nat) (x : number) : list number :=
  match a, i with
  | [], _ => []
  | _ :: a', O => x :: a'
  | y :: a', S i' => y :: set_at a' i' x
  end.

Definition cov_at (covariance : list (list number)) (i j : nat) : result number :=
  match nth_error covariance i with
  | Some row => Ok (at_ row j)
  | None => TypeError
  end.

(** The object [calculatePortfolioMetrics] returns ([return_] is its
    field [return]). *)
Record Metrics : Type := {
  return_ : number;
  risk : number;
  variance : number
}.

Record Constraints : Type := {
  sumToOne : bool;
  nonNegative : bool
}.

(** A point of the frontier: the fields [weights], [return], [risk] and
    [sharpe] of the source. *)
Record FrontierPoint : Type := {
  fp_weights : list number;
  fp_return : number;
  fp_risk : number;
  fp_sharpe : number
}.

Definition calculatePortfolioMetrics (weights returns : list number)
  (covariance : list (list number)) : result Metrics :=
  let portfolioReturn :=
    reduce (fun sum weight i => sum + weight * at_ returns i) weights (Fin 0) in
  portfolioVariance <-
    for_loop 0 (List.length weights) (fun i portfolioVariance =>
      for_loop 0 (List.length weights) (fun j portfolioVariance =>
        c <- cov_at covariance i j ;;
        Ok (portfolioVariance + at_ weights i * at_ weights j * c))
      portfolioVariance)
    (Fin 0) ;;
  let portfolioStdDev := Math_sqrt portfolioVariance in
  Ok {| return_ := portfolioReturn;
        risk := portfolioStdDev;
        variance := portfolioVariance |}.

Definition calculateSharpeRatio (portfolioReturn portfolioRisk riskFreeRate : number)
  : number :=
  (portfolioReturn - riskFreeRate) / portfolioRisk.

(** The sibling of the risk metrics that guards its empty case. *)
Definition calculateDownsideDeviation (returns : list number) (targetReturn : number)
  : number :=
  let squaredDownsideDeviations :=
    map (fun r => Math_pow (targetReturn - r) 2)
        (filter (fun r => r <? targetReturn) returns) in
  if Nat.eqb (List.length squaredDownsideDeviations) 0 then 0
  else
    let meanSquaredDeviation :=
      fold_left (fun sum val => sum + val) squaredDownsideDeviations (Fin 0)
      / of_nat (List.length squaredDownsideDeviations) in
    Math_sqrt meanSquaredDeviation.

Definition calculateSortinoRatio (portfolioReturn downsideDeviation riskFreeRate : number)
  : number :=
  (portfolioReturn - riskFreeRate) / downsideDeviation.

(** The object [calculateMaxDrawdown] returns, and the variables of its
    loop ([peak] is kept besides the three that are returned). *)
Record Drawdown : Type := {
  maxDrawdown : number;
  peakIndex : nat;
  troughIndex : nat
}.

Record DrawdownState : Type := {
  dd_maxDrawdown : number;
  dd_peak : number;
  dd_peakIndex : nat;
  dd_troughIndex : nat
}.

(** One pass of the body of the loop of [calculateMaxDrawdown], at index [i]. *)
Definition drawdown_step (prices : list number) (i : nat) (s : DrawdownState)
  : DrawdownState :=
  let s :=
    if at_ prices i >? dd_peak s then
      {| dd_maxDrawdown := dd_maxDrawdown s; dd_peak := at_ prices i;
         dd_peakIndex := i; dd_troughIndex := dd_troughIndex s |}
    else s in
  let drawdown := (dd_peak s - at_ prices i) / dd_peak s in
  if drawdown >? dd_maxDrawdown s then
    {| dd_maxDrawdown := drawdown; dd_peak := dd_peak s;
       dd_peakIndex := dd_peakIndex s; dd_troughIndex := i |}
  else s.

Fixpoint drawdown_loop (prices : list number) (i n : nat) (s : DrawdownState)
  : DrawdownState :=
  match n with
  | O => s
  | S n' => drawdown_loop prices (S i) n' (drawdown_step prices i s)
  end.

Definition calculateMaxDrawdown (prices : list number) : Drawdown :=
  let s :=
    drawdown_loop prices 1 (List.length prices - 1)
      {| dd_maxDrawdown := 0; dd_peak := at_ prices 0;
         dd_peakIndex := 0; dd_troughIndex := 0 |} in
  {| maxDrawdown := dd_maxDrawdown s;
     peakIndex := dd_peakIndex s;
     troughIndex := dd_troughIndex s |}.

Definition calculateGradients (weights returns : list number)
  (covariance : list (list number)) : result (list number) :=
  let n := List.length weights in
  let gradients := repeat (Fin 0) n in
  for_loop 0 n (fun i gradients =>
    for_loop 0 n (fun j gradients =>
      c <- cov_at covariance i j ;;
      Ok (set_at gradients i (at_ gradients i + at_ weights j * c)))
    gradients)
  gradients.

Definition learningRate : number := 0.01.
Definition iterations : nat := 1000.

(** One pass of the body of the descent loop: the new weights, and whether
    the loop breaks after them. *)
Definition optimize_step (returns : list number) (covariance : list (list number))
  (targetReturn : number) (constraints : Constraints) (weights : list number)
  : result (list number * bool) :=
  gradients <- calculateGradients weights returns covariance ;;
  let weights := mapi (fun w i => w - learningRate * at_ gradients i) weights in
  let weights :=
    if nonNegative constraints then map (fun w => Math_max 0 w) weights
    else weights in
  let weights :=
    if sumToOne constraints then
      let sum := fold_left (fun a b => a + b) weights (Fin 0) in
      map (fun w => w / sum) weights
    else weights in
  let currentReturn :=
    reduce (fun sum w i => sum + w * at_ returns i) weights (Fin 0) in
  Ok (weights, Math_abs (currentReturn - targetReturn) <? 0.0001).

Fixpoint optimize_loop (returns : list number) (covariance : list (list number))
  (targetReturn : number) (constraints : Constraints) (iter : nat)
  (weights : list number) : result (list number) :=
  match iter with
  | O => Ok weights
  | S iter' =>
    next <- optimize_step returns covariance targetReturn constraints weights ;;
    let weights := fst next in
    if snd next then Ok weights
    else optimize_loop returns covariance targetReturn constraints iter' weights
  end.

Definition optimizePortfolio (returns : list number) (covariance : list (list number))
  (targetReturn : number) (constraints : Constraints) : result (list number) :=
  let n := List.length returns in
  let weights := repeat (1 / of_nat n) n in
  optimize_loop returns covariance targetReturn constraints iterations weights.

Definition generateEfficientFrontier (returns : list number)
  (covariance : list (list number)) (riskFreeRate : number) (points : nat)
  : result (list FrontierPoint) :=
  let minReturn := Math_min_all returns in
  let maxReturn := Math_max_all returns in
  let returnStep := (maxReturn - minReturn) / (of_nat points - 1) in
  for_loop 0 points (fun i frontier =>
    let targetReturn := minReturn + of_nat i * returnStep in
    weights <- optimizePortfolio returns covariance targetReturn
                 {| sumToOne := true; nonNegative := true |} ;;
    metrics <- calculatePortfolioMetrics weights returns covariance ;;
    Ok (frontier ++
        [{| fp_weights := weights;
            fp_return := return_ metrics;
            fp_risk := risk metrics;
            fp_sharpe :=
              calculateSharpeRatio (return_ metrics) (risk metrics) riskFreeRate |}]))
  [].

End PortfolioOptimizer.

(** ** The callers of the engines ([assets/js/main.js])

    The functions of the page script that compute: the covariance matrix
    that is handed to the optimizer, and the payoff curves that are built
    on the premium of the pricing engine. *)

Module Main.

Local Open Scope R_scope.
Local Open Scope js_scope.
Import JS.

(** [for (let i = i0; i < i0 + n; i++) body], for a body that cannot throw. *)
Fixpoint loop {St : Type} (i n : nat) (body : nat -> St -> St) (s : St) : St :=
  match n with
  | O => s
  | S n' => loop (S i) n' body (body i s)
  end.

(** The assignment [a[i] = x] within bounds. *)
Fixpoint update {A : Type} (a : list A) (i : nat) (x : A) : list A :=
  match a, i with
  | [], _ => []
  | _ :: a', O => x :: a'
  | y :: a', S i' => y :: update a' i' x
  end.

(** [matrix[i][j] = x] *)
Definition update2 (matrix : list (list number)) (i j : nat) (x : number)
  : list (list number) :=
  update matrix i (update (nth i matrix []) j x).

Definition generateCovarianceMatrix (volatilities : list number) : list (list number) :=
  let n := List.length volatilities in
  let correlation : number := 0.5 in
  let matrix := repeat (repeat (Fin 0) n) n in
  loop 0 n (fun i matrix =>
    loop 0 n (fun j matrix =>
      if Nat.eqb i j then
        update2 matrix i j
          (PortfolioOptimizer.at_ volatilities i * PortfolioOptimizer.at_ volatilities i)
      else
        update2 matrix i j
          (PortfolioOptimizer.at_ volatilities i * PortfolioOptimizer.at_ volatilities j
           * correlation))
    matrix)
  matrix.

(** The premium of the option that a strategy trades. *)
Definition premium (S K T : number) (type : string) : number :=
  BlackScholes.price
    (BlackScholes.calculate
       {| BlackScholes.S := S; BlackScholes.K := K; BlackScholes.T := T;
          BlackScholes.v := 0.2; BlackScholes.r := 0.05; BlackScholes.type := type |}).



Definition calculateLongLeapsPayoff (prices : list number) (spotPrice : number)
  : list number :=
  let strikePrice := spotPrice in
  let premium := premium spotPrice strikePrice 2 "call" in
  map (fun price => Math_max 0 (price - strikePrice) - premium) prices.

Definition calculateStranglePayoff (prices : list number) (spotPrice : number)
  : list number :=
  let callStrike := spotPrice * 1.1 in
  let putStrike := spotPrice * 0.9 in
  let callPremium := premium spotPrice callStrike (1 / 12) "call" in
  let putPremium := premium spotPrice putStrike (1 / 12) "put" in
  let totalPremium := callPremium + putPremium in
  map (fun price =>
         let callPayoff := Math_max 0 (price - callStrike) in
         let putPayoff := Math_max 0 (putStrike - price) in
         callPayoff + putPayoff - totalPremium) prices.

End Main.

(** ** Definitions used to state the properties *)

Module Spec.

Import JS.
Local Open Scope R_scope.

(** The degenerate results of the pricing engine, as the specification
    words them: the intrinsic value with a binary delta for an expired
    option, the discounted intrinsic value for a deterministic forward. *)
Definition binary_delta (call : bool) (S K : R) : R :=
  if call then (if Rltb K S then 1 else 0) else (if Rltb S K then -1 else 0).

Definition intrinsic_value (call : bool) (S K : R) : R :=
  if call then Rmax 0 (S - K) else Rmax 0 (K - S).

Definition expired_result (call : bool) (S K : R) : BlackScholes.PricingResult :=
  {| BlackScholes.price := Fin (intrinsic_value call S K);
     BlackScholes.delta := Fin (binary_delta call S K);
     BlackScholes.gamma := Fin 0;
     BlackScholes.vega := Fin 0;
     BlackScholes.theta := Fin 0;
     BlackScholes.rho := Fin 0 |}.

Definition zero_vol_theta (K r T : R) : R := - r * K * exp (- r * T) / 365.

Definition zero_vol_rho (call : bool) (K r T : R) : R :=
  if call then K * T * exp (- r * T) / 100 else - K * T * exp (- r * T) / 100.

Definition zero_vol_result (call : bool) (S K r T : R) : BlackScholes.PricingResult :=
  {| BlackScholes.price := Fin (intrinsic_value call S (K * exp (- r * T)));
     BlackScholes.delta := Fin (binary_delta call S (K * exp (- r * T)));
     BlackScholes.gamma := Fin 0;
     BlackScholes.vega := Fin 0;
     BlackScholes.theta := Fin (zero_vol_theta K r T);
     BlackScholes.rho := Fin (zero_vol_rho call K r T) |}.



(** The rank [floor(N * (1 - confidence))] of the value at risk. *)
Definition var_index (N : nat) (confidence : R) : Z :=
  Int_part (INR N * (1 - confidence)).

(** [Math.random] returns a number in [0, 1). *)
Definition unit_draws (tape : list R) : Prop :=
  Forall (fun u => 0 <= u < 1) tape.

Definition epsilon : R := / 2 ^ 52.

(** The Box-Muller transform of the specification: two uniform draws give
    the variate [sqrt(-2 ln u1) cos(2 pi u2)]; a round whose first draw is
    at most the machine epsilon is rejected and the transform starts over.
    [box_muller tape z rest]: from [tape] the transform yields [z] and
    leaves [rest]. *)
Inductive box_muller : list R -> R -> list R -> Prop :=
| bm_accept (u1 u2 : R) (rest : list R) :
    epsilon < u1 ->
    box_muller (u1 :: u2 :: rest) (sqrt (-2 * ln u1) * cos (2 * PI * u2)) rest
| bm_retry (u1 u2 z : R) (tape rest : list R) :
    u1 <= epsilon ->
    box_muller tape z rest ->
    box_muller (u1 :: u2 :: tape) z rest.

(** Successive variates. *)
Inductive box_muller_seq : list R -> list R -> list R -> Prop :=
| bms_nil (tape : list R) : box_muller_seq tape [] tape
| bms_cons (tape tape' rest : list R) (z : R) (zs : list R) :
    box_muller tape z tape' ->
    box_muller_seq tape' zs rest ->
    box_muller_seq tape (z :: zs) rest.






Definition sum (xs : list R) : R := fold_right Rplus 0 xs.





(** The variate that the draws 0.5 and 0.25 give. *)
Definition sample_variate : R := sqrt (-2 * ln 0.5) * cos (2 * PI * 0.25).



(** Two assets with volatility 10 and correlation 0.5: the covariance
    matrix that the caller builds from these volatilities. *)
Definition wide_returns : list number := [Fin 0.1; Fin 0.2].

Definition wide_covariance : list (list number) :=
  [[Fin 100; Fin 50]; [Fin 50; Fin 100]].

Definition both_constraints : PortfolioOptimizer.Constraints :=
  {| PortfolioOptimizer.sumToOne := true; PortfolioOptimizer.nonNegative := true |}.

(** Feasible weights: none negative, of sum 1. *)
Definition feasible (ws : list R) : Prop := Forall (Rle 0) ws /\ sum ws = 1.

(** The [i]-th of [points] equally spaced target returns between [lo] and
    [hi]. *)
Definition frontier_target (lo hi : R) (points i : nat) : R :=
  lo + INR i * (hi - lo) / (INR points - 1).

(** The real values that the pricing engine computes at finite
    arguments: the rational approximation of the normal distribution
    function, the density, [d1], [d2] and the prices before they are
    floored at 0. *)
Definition erf_poly (t : R) : R :=
  (((((1.061405429 * t + -1.453152027) * t) + 1.421413741) * t + -0.284496736) * t
   + 0.254829592) * t.

Definition cdf_arg (x : R) : R := Rabs x / sqrt 2.0.

Definition cdf_t (x : R) : R := 1.0 / (1.0 + 0.3275911 * cdf_arg x).

Definition erf_approx (x : R) : R :=
  1.0 - erf_poly (cdf_t x) * exp (- cdf_arg x * cdf_arg x).

Definition normal_cdf (x : R) : R :=
  0.5 * (1.0 + (if Rltb x 0 then -1 else 1) * erf_approx x).

Definition normal_pdf (x : R) : R := exp (-0.5 * x * x) / sqrt (2.0 * PI).

Definition d1_value (S K r v T : R) : R :=
  (ln (S / K) + (r + 0.5 * v * v) * T) / (v * sqrt T).

Definition d2_value (S K r v T : R) : R := d1_value S K r v T - v * sqrt T.

Definition raw_call (S K r v T : R) : R :=
  S * normal_cdf (d1_value S K r v T)
  - K * exp (- r * T) * normal_cdf (d2_value S K r v T).

Definition raw_put (S K r v T : R) : R :=
  K * exp (- r * T) * normal_cdf (- d2_value S K r v T)
  - S * normal_cdf (- d1_value S K r v T).

(** The term that the approximation subtracts from 1 to get [erf], and the
    derivative of its polynomial. *)
Definition tail (x : R) : R := erf_poly (cdf_t x) * exp (- cdf_arg x * cdf_arg x).

Definition erf_poly' (x : R) : R :=
  0.254829592 - 0.568993472 * x + 4.264241223 * (x * x)
  - 5.812608108 * (x * x * x) + 5.307027145 * (x * x * x * x).

(** What the approximation adds to [N(x) + N(-x) = 1]: nothing away from
    0, and 1e-9 at 0, where both arguments take the sign [+1]. *)
Definition cdf_excess (x : R) : R := if Reqb x 0 then 0.000000001 else 0.

(** The covariance matrix of two assets of volatilities 0.2 and 0.3 with
    correlation 0.5. *)
Definition two_asset_covariance : list (list number) :=
  [[Fin 0.04; Fin 0.03]; [Fin 0.03; Fin 0.09]].

(** The [params] object whose numeric fields are the finite numbers given. *)
Definition finite_params (S K r v T : R) (type : string) : BlackScholes.Params :=
  {| BlackScholes.S := Fin S; BlackScholes.K := Fin K; BlackScholes.r := Fin r;
     BlackScholes.v := Fin v; BlackScholes.T := Fin T; BlackScholes.type := type |}.

(** A zero-volatility call at a zero interest rate. *)
Definition zero_rate_input : BlackScholes.Params :=
  finite_params 100 100 0 0 1 "call".

(** [params] with its [style] field set to [s]. *)
Definition with_style (params : MonteCarloEngine.Params) (s : string)
  : MonteCarloEngine.Params :=
  {| MonteCarloEngine.S0 := MonteCarloEngine.S0 params;
     MonteCarloEngine.K := MonteCarloEngine.K params;
     MonteCarloEngine.r := MonteCarloEngine.r params;
     MonteCarloEngine.mu := MonteCarloEngine.mu params;
     MonteCarloEngine.sigma := MonteCarloEngine.sigma params;
     MonteCarloEngine.T := MonteCarloEngine.T params;
     MonteCarloEngine.paths := MonteCarloEngine.paths params;
     MonteCarloEngine.steps := MonteCarloEngine.steps params;
     MonteCarloEngine.type := MonteCarloEngine.type params;
     MonteCarloEngine.style := s |}.

End Spec.

(** * Properties *)

Local Open Scope R_scope.

(** ** Facts about the number model *)

Section NumberFacts.

Import JS.

Lemma Rltb_true (a b : R) : a < b -> Rltb a b = true.
Proof. intros H. unfold Rltb. destruct (Rlt_dec a b); [reflexivity | contradiction]. Qed.

Lemma Rltb_false (a b : R) : b <= a -> Rltb a b = false.
Proof. intros H. unfold Rltb. destruct (Rlt_dec a b); [lra | reflexivity]. Qed.

Lemma Rleb_true (a b : R) : a <= b -> Rleb a b = true.
Proof. intros H. unfold Rleb. destruct (Rle_dec a b); [reflexivity | contradiction]. Qed.

Lemma Rleb_false (a b : R) : b < a -> Rleb a b = false.
Proof. intros H. unfold Rleb. destruct (Rle_dec a b); [lra | reflexivity]. Qed.

Lemma Reqb_true (a b : R) : a = b -> Reqb a b = true.
Proof. intros H. unfold Reqb. destruct (Req_dec_T a b); [reflexivity | contradiction]. Qed.

Lemma Reqb_false (a b : R) : a <> b -> Reqb a b = false.
Proof. intros H. unfold Reqb. destruct (Req_dec_T a b); [contradiction | reflexivity]. Qed.

Lemma Rltb_spec (a b : R) : Rltb a b = true <-> a < b.
Proof. unfold Rltb. destruct (Rlt_dec a b); split; intros; try discriminate; auto; lra. Qed.

Lemma Rleb_spec (a b : R) : Rleb a b = true <-> a <= b.
Proof. unfold Rleb. destruct (Rle_dec a b); split; intros; try discriminate; auto; lra. Qed.

Lemma div_Fin (a b : R) : b <> 0 -> (Fin a / Fin b)%js = Fin (a / b).
Proof. intros H. simpl. rewrite Reqb_false by assumption. reflexivity. Qed.

Lemma div_zero_zero : (Fin 0 / Fin 0)%js = NaN.
Proof.
  simpl. rewrite Reqb_true by reflexivity. unfold signed_inf.
  rewrite !Rltb_false by lra. reflexivity.
Qed.

Lemma sqrt_Fin (a : R) : 0 <= a -> Math_sqrt (Fin a) = Fin (sqrt a).
Proof. intros H. simpl. rewrite Rltb_false by assumption. reflexivity. Qed.

Lemma log_Fin (a : R) : 0 < a -> Math_log (Fin a) = Fin (ln a).
Proof.
  intros H. simpl. rewrite Rltb_false by lra. rewrite Reqb_false by lra. reflexivity.
Qed.

Lemma max_Fin (a b : R) : Math_max (Fin a) (Fin b) = Fin (Rmax a b).
Proof.
  simpl. unfold Rltb, Rmax.
  destruct (Rlt_dec a b), (Rle_dec a b); try reflexivity; try lra;
    f_equal; lra.
Qed.

Lemma min_Fin (a b : R) : Math_min (Fin a) (Fin b) = Fin (Rmin a b).
Proof.
  simpl. unfold Rltb, Rmin.
  destruct (Rlt_dec b a), (Rle_dec a b); try reflexivity; try lra;
    f_equal; lra.
Qed.

Lemma sub_Fin (a b : R) : (Fin a - Fin b)%js = Fin (a - b).
Proof. reflexivity. Qed.

Lemma mul_NaN_r (a : number) : (a * NaN)%js = NaN.
Proof. destruct a; reflexivity. Qed.

Lemma add_NaN_r (a : number) : (a + NaN)%js = NaN.
Proof. destruct a; reflexivity. Qed.

Lemma div_NaN_r (a : number) : (a / NaN)%js = NaN.
Proof. destruct a; reflexivity. Qed.

End NumberFacts.

(** Rewriting with the equations of the operations at finite operands. *)
Ltac js_fin :=
  repeat first
    [ rewrite sub_Fin
    | rewrite max_Fin
    | rewrite min_Fin
    | rewrite div_Fin by lra
    | rewrite sqrt_Fin by lra
    | rewrite log_Fin by lra
    | progress cbn [JS.add JS.mul JS.neg JS.Math_exp JS.Math_abs
                    JS.Math_cos JS.lt JS.le JS.gt JS.of_nat] ].

(** ** Pricing engine: degenerate inputs *)

Section Degenerate.

Import JS BlackScholes Spec.

Variables S K r v T : R.
Variable type : string.

Lemma calculate_expired :
  T <= 0 -> calculate (finite_params S K r v T type) = expired_result (isCall type) S K.
Proof.
  intros HT. unfold calculate, finite_params. cbn [BlackScholes.T BlackScholes.v JS.le].
  rewrite Rleb_true by assumption.
  unfold calculateExpired, expired_result, intrinsic_value, binary_delta.
  cbn [BlackScholes.S BlackScholes.K BlackScholes.type].
  destruct (isCall type); js_fin;
    match goal with |- context [Rltb ?a ?b] => destruct (Rltb a b) end; reflexivity.
Qed.

Lemma calculate_zero_vol :
  0 < T -> v <= 0 ->
  calculate (finite_params S K r v T type) = zero_vol_result (isCall type) S K r T.
Proof.
  intros HT Hv. unfold calculate, finite_params. cbn [BlackScholes.T BlackScholes.v JS.le].
  rewrite Rleb_false by assumption. rewrite Rleb_true by assumption.
  unfold calculateZeroVol, zero_vol_result, intrinsic_value, binary_delta,
    zero_vol_theta, zero_vol_rho.
  cbn [BlackScholes.S BlackScholes.K BlackScholes.type BlackScholes.r BlackScholes.T].
  destruct (isCall type); js_fin;
    match goal with |- context [Rltb ?a ?b] => destruct (Rltb a b) end;
    repeat f_equal; lra.
Qed.

Lemma zero_vol_theta_nonzero : zero_vol_theta K r T <> 0 <-> r <> 0 /\ K <> 0.
Proof.
  unfold zero_vol_theta. pose proof (exp_pos (- r * T)) as He.
  split.
  - intros H. split; intros ->; apply H; lra.
  - intros [Hr HK] H.
    assert (Hp : r * K * exp (- r * T) = 0) by lra.
    apply Rmult_integral in Hp. destruct Hp as [Hp | Hp]; [| lra].
    apply Rmult_integral in Hp. tauto.
Qed.

Lemma zero_vol_rho_nonzero (call : bool) :
  0 < T -> (zero_vol_rho call K r T <> 0 <-> K <> 0).
Proof.
  intros HT. unfold zero_vol_rho. pose proof (exp_pos (- r * T)) as He.
  split.
  - intros H ->. apply H. destruct call; lra.
  - intros HK H.
    assert (Hp : K * T * exp (- r * T) = 0) by (destruct call; lra).
    apply Rmult_integral in Hp. destruct Hp as [Hp | Hp]; [| lra].
    apply Rmult_integral in Hp. destruct Hp; [tauto | lra].
Qed.

End Degenerate.

(** C4 (as the code has it).  On finite inputs [calculate] returns, without
    throwing: for [T <= 0] the intrinsic value [max(0, S-K)] (call) or
    [max(0, K-S)] (put) with a binary delta and zero gamma, vega, theta and
    rho; for [T > 0] and [v <= 0] the discounted intrinsic value with
    gamma = vega = 0, theta = [-r*K*e^(-rT)/365] and
    rho = [+-K*T*e^(-rT)/100].  That theta is non-zero exactly when
    [r <> 0] and [K <> 0], that rho exactly when [K <> 0]. *)
Theorem calculate_degenerate_cases (S K r v T : R) (type : string) :
  (T <= 0 ->
   BlackScholes.calculate (Spec.finite_params S K r v T type)
   = Spec.expired_result (BlackScholes.isCall type) S K) /\
  (0 < T -> v <= 0 ->
   BlackScholes.calculate (Spec.finite_params S K r v T type)
   = Spec.zero_vol_result (BlackScholes.isCall type) S K r T) /\
  (Spec.zero_vol_theta K r T <> 0 <-> r <> 0 /\ K <> 0) /\
  (0 < T -> (Spec.zero_vol_rho (BlackScholes.isCall type) K r T <> 0 <-> K <> 0)).
Proof.
  split; [| split; [| split]].
  - apply calculate_expired.
  - apply calculate_zero_vol.
  - apply zero_vol_theta_nonzero.
  - apply zero_vol_rho_nonzero.
Qed.

Lemma calculate_degenerate_cases_witness :
  BlackScholes.calculate (Spec.finite_params 100 90 0.05 0.2 0 "call")
  = Spec.expired_result true 100 90 /\
  BlackScholes.calculate (Spec.finite_params 100 90 0.05 0 1 "put")
  = Spec.zero_vol_result false 100 90 0.05 1.
Proof.
  split.
  - apply (proj1 (calculate_degenerate_cases 100 90 0.05 0.2 0 "call")). lra.
  - apply (proj1 (proj2 (calculate_degenerate_cases 100 90 0.05 0 1 "put"))); lra.
Defined.

(** C4 as it is stated fails at a zero interest rate: the zero-volatility
    branch is taken and theta is zero. *)
Lemma zero_vol_theta_zero_at_zero_rate :
  JS.le (BlackScholes.T Spec.zero_rate_input) (JS.Fin 0) = false /\
  JS.le (BlackScholes.v Spec.zero_rate_input) (JS.Fin 0) = true /\
  BlackScholes.theta (BlackScholes.calculate Spec.zero_rate_input) = JS.Fin 0.
Proof.
  unfold Spec.zero_rate_input.
  rewrite (calculate_zero_vol 100 100 0 0 1 "call") by lra.
  cbn [Spec.finite_params BlackScholes.T BlackScholes.v JS.le
       Spec.zero_vol_result BlackScholes.theta].
  rewrite Rleb_false by lra. rewrite Rleb_true by lra.
  repeat split. f_equal. unfold Spec.zero_vol_theta. lra.
Qed.

(** ** Simulation engine: the option style *)

Section Style.

Import JS MonteCarloEngine Spec.

Lemma generatePath_step_style (params : Params) (s1 s2 : string) dt i path tape :
  generatePath_step (with_mu (with_style params s1) (r params)) dt i path tape
  = generatePath_step (with_mu (with_style params s2) (r params)) dt i path tape.
Proof. reflexivity. Qed.

Lemma generatePath_loop_style (params : Params) (s1 s2 : string) dt n :
  forall i path tape,
  generatePath_loop (with_mu (with_style params s1) (r params)) dt i n path tape
  = generatePath_loop (with_mu (with_style params s2) (r params)) dt i n path tape.
Proof.
  induction n as [| n IH]; intros i path tape; [reflexivity |].
  cbn [generatePath_loop]. unfold MonteCarloEngine.bind.
  rewrite (generatePath_step_style params s1 s2).
  destruct (generatePath_step _ dt i path tape) as [[path' tape'] |]; [apply IH | reflexivity].
Qed.

Lemma generatePaths_loop_style (params : Params) (s1 s2 : string) n :
  forall allPaths tape,
  generatePaths_loop (with_mu (with_style params s1) (r params)) n allPaths tape
  = generatePaths_loop (with_mu (with_style params s2) (r params)) n allPaths tape.
Proof.
  induction n as [| n IH]; intros allPaths tape; [reflexivity |].
  cbn [generatePaths_loop]. unfold MonteCarloEngine.bind, generatePath.
  cbn [with_mu with_style MonteCarloEngine.T MonteCarloEngine.steps MonteCarloEngine.S0].
  rewrite (generatePath_loop_style params s1 s2).
  destruct (generatePath_loop _ _ 1 _ _ tape) as [[path tape'] |]; [apply IH | reflexivity].
Qed.

End Style.

(** C10.  With the same draws of [Math.random], [priceOption] returns the
    same result (and leaves the same draws unread) whatever the [style]
    field of its parameters holds: American options are priced as European
    ones. *)
Theorem priceOption_ignores_style (params : MonteCarloEngine.Params)
  (style1 style2 : string) (tape : list R) :
  MonteCarloEngine.priceOption (Spec.with_style params style1) tape
  = MonteCarloEngine.priceOption (Spec.with_style params style2) tape.
Proof.
  unfold MonteCarloEngine.priceOption, MonteCarloEngine.bind,
    MonteCarloEngine.generatePaths.
  cbn [Spec.with_style MonteCarloEngine.r MonteCarloEngine.K MonteCarloEngine.T
       MonteCarloEngine.paths MonteCarloEngine.type].
  change (MonteCarloEngine.paths (MonteCarloEngine.with_mu (Spec.with_style params style1)
            (MonteCarloEngine.r params)))
    with (MonteCarloEngine.paths params).
  change (MonteCarloEngine.paths (MonteCarloEngine.with_mu (Spec.with_style params style2)
            (MonteCarloEngine.r params)))
    with (MonteCarloEngine.paths params).
  rewrite (generatePaths_loop_style params style1 style2).
  reflexivity.
Qed.

(** ** Simulation engine: risk metrics *)

Section RiskMetrics.

Import JS MonteCarloEngine Spec.

Lemma Int_part_IZR (z : Z) : Int_part (IZR z) = z.
Proof. symmetry. apply Int_part_spec. lra. Qed.

Lemma insert_length compare x l :
  List.length (insert compare x l) = Datatypes.S (List.length l).
Proof.
  induction l as [| y l IH]; [reflexivity |].
  cbn [insert]. destruct (JS.gt _ _); cbn [List.length]; congruence.
Qed.

Lemma sort_length compare l : List.length (sort compare l) = List.length l.
Proof.
  induction l as [| x l IH]; [reflexivity |].
  cbn [sort fold_right]. fold (sort compare l).
  rewrite insert_length. cbn [List.length]. congruence.
Qed.

(** The risk metrics at a zero rank, whatever the paths. *)
Lemma cvar_at_zero_index (paths : list (list number)) (confidence initialValue : number) :
  Math_floor (of_nat (List.length paths) * (Fin 1 - confidence))%js = Fin 0 ->
  conditionalVaR (calculateRiskMetrics paths confidence initialValue) = NaN.
Proof.
  intros Hidx. unfold calculateRiskMetrics. cbn [conditionalVaR].
  rewrite sort_length, length_map, Hidx.
  unfold slice0, trunc. rewrite Rltb_false by lra.
  replace 0 with (IZR 0) at 1 by reflexivity. rewrite Int_part_IZR.
  cbn [Z.ltb Z.compare]. rewrite Z.min_l by lia.
  cbn [Z.to_nat firstn fold_left JS.neg].
  replace (- 0) with 0 by lra. rewrite div_zero_zero. reflexivity.
Qed.


Lemma var_index_floor (N : nat) (confidence : R) :
  Math_floor (of_nat N * (Fin 1 - Fin confidence))%js = Fin (IZR (var_index N confidence)).
Proof. reflexivity. Qed.








Lemma sum_Fin (l : list R) (a : R) :
  fold_left (fun sum ret => sum + ret)%js (map Fin l) (Fin a)
  = Fin (fold_left Rplus l a).
Proof.
  revert a. induction l as [| x l IH]; intros a; [reflexivity |].
  cbn [map fold_left JS.add]. apply IH.
Qed.


Lemma div_le_of_le_mul (a b c : R) : 0 < c -> a <= c * b -> a / c <= b.
Proof.
  intros Hc H. apply Rmult_le_reg_r with c; [assumption |].
  unfold Rdiv. rewrite Rmult_assoc, Rinv_l by lra. lra.
Qed.


End RiskMetrics.

(** C1 (what the code does instead).  When the rank
    [floor(N * (1 - confidence))] of the value at risk is 0,
    [calculateRiskMetrics] divides zero by zero: [conditionalVaR] is [NaN],
    not a finite sentinel. *)
Theorem calculateRiskMetrics_zero_index_NaN (paths : list (list JS.number))
  (confidence initialValue : R) :
  Spec.var_index (List.length paths) confidence = 0%Z ->
  MonteCarloEngine.conditionalVaR
    (MonteCarloEngine.calculateRiskMetrics paths (JS.Fin confidence) (JS.Fin initialValue))
  = JS.NaN.
Proof.
  intros Hk. apply cvar_at_zero_index. rewrite var_index_floor, Hk. reflexivity.
Qed.

Lemma calculateRiskMetrics_zero_index_NaN_witness :
  Spec.var_index 1 0.95 = 0%Z /\
  MonteCarloEngine.conditionalVaR
    (MonteCarloEngine.calculateRiskMetrics
       [[JS.Fin 100; JS.Fin 110]] (JS.Fin 0.95) (JS.Fin 1000))
  = JS.NaN.
Proof.
  assert (H : Spec.var_index 1 0.95 = 0%Z).
  { unfold Spec.var_index. symmetry. apply Int_part_spec. simpl. lra. }
  split; [exact H |].
  apply (calculateRiskMetrics_zero_index_NaN [[JS.Fin 100; JS.Fin 110]] 0.95 1000 H).
Defined.



(** ** Simulation engine: path generation *)

Section Paths.

Import JS MonteCarloEngine Spec.

Lemma epsilon_pos : 0 < epsilon.
Proof. unfold epsilon. apply Rinv_0_lt_compat. apply pow_lt. lra. Qed.

Lemma boxMuller_spec (tape : list R) (z : R) (rest : list R) :
  unit_draws tape ->
  box_muller tape z rest ->
  boxMuller tape = Some (Fin z, rest).
Proof.
  intros Hunit Hbm. induction Hbm as [u1 u2 rest Hu1 | u1 u2 z tape rest Hu1 _ IH].
  - cbn [boxMuller JS.le EPSILON]. fold epsilon. rewrite Rleb_false by assumption.
    pose proof epsilon_pos as Heps.
    inversion Hunit as [| ? ? [_ Hlt1] _]; subst.
    rewrite log_Fin by lra. cbn [JS.mul].
    assert (Hln : ln u1 < 0).
    { rewrite <- ln_1. apply ln_increasing; lra. }
    rewrite sqrt_Fin by lra. cbn [Math_PI JS.mul Math_cos].
    repeat f_equal; lra.
  - cbn [boxMuller JS.le EPSILON]. fold epsilon. rewrite Rleb_true by assumption.
    apply IH. inversion Hunit as [| ? ? _ Hunit']; subst.
    inversion Hunit'; subst. assumption.
Qed.


Lemma epsilon_lt_half : epsilon < 0.5.
Proof.
  unfold epsilon. replace 0.5 with (/ 2 ^ 1) by (cbn [pow]; lra).
  apply Rinv_lt_contravar.
  - apply Rmult_lt_0_compat; apply pow_lt; lra.
  - apply Rlt_pow; [lra | lia].
Qed.



Section Loop.

Variable params : Params.
Variables mu sigma dt : R.
Hypothesis Hmu : MonteCarloEngine.mu params = Fin mu.
Hypothesis Hsigma : MonteCarloEngine.sigma params = Fin sigma.
Hypothesis Hdt : 0 <= dt.



End Loop.




(** Draws that all exceed the machine epsilon are never rejected: two of
    them per variate suffice. *)
Lemma box_muller_seq_exists (n : nat) :
  forall tape,
  Forall (fun u => epsilon < u) tape ->
  (2 * n <= List.length tape)%nat ->
  exists zs rest, box_muller_seq tape zs rest /\ List.length zs = n.
Proof.
  induction n as [| n IH]; intros tape Hacc Hlen.
  - exists [], tape. split; [constructor | reflexivity].
  - destruct tape as [| u1 [| u2 tape]]; cbn [List.length] in Hlen; try lia.
    inversion Hacc as [| ? ? Hu1 Hacc']; subst. inversion Hacc' as [| ? ? _ Hacc'']; subst.
    destruct (IH tape Hacc'' ltac:(lia)) as (zs & rest & Hseq & Hzs).
    eexists (_ :: zs), rest. split.
    + eapply bms_cons; [apply bm_accept; exact Hu1 | exact Hseq].
    + cbn [List.length]. congruence.
Qed.





End Paths.



(** ** Simulation engine: the price estimate *)

Section Pricing.

Import JS MonteCarloEngine Spec.

Lemma fold_left_sum (xs : list R) (a : R) : fold_left Rplus xs a = a + sum xs.
Proof.
  revert a. induction xs as [| x xs IH]; intros a; cbn [fold_left sum fold_right].
  - lra.
  - rewrite IH. unfold sum. lra.
Qed.





End Pricing.




(** ** Portfolio optimizer: the descent loop *)

Section Optimizer.

Import JS PortfolioOptimizer Spec.

(** A loop whose passes succeed and keep an invariant succeeds and keeps it. *)
Lemma for_loop_inv {St : Type} (P : St -> Prop) (body : nat -> St -> result St) (n : nat) :
  forall i0 s,
  (forall i s, (i0 <= i < i0 + n)%nat -> P s -> exists s', body i s = Ok s' /\ P s') ->
  P s ->
  exists s', for_loop i0 n body s = Ok s' /\ P s'.
Proof.
  induction n as [| n IH]; intros i0 s Hbody Hs.
  - exists s. split; [reflexivity | assumption].
  - cbn [for_loop]. destruct (Hbody i0 s ltac:(lia) Hs) as (s1 & -> & Hs1).
    cbn [PortfolioOptimizer.bind]. apply IH; [| assumption].
    intros i s2 Hi. apply Hbody. lia.
Qed.

Lemma set_at_length (a : list number) (i : nat) (x : number) :
  List.length (set_at a i x) = List.length a.
Proof.
  revert i. induction a as [| y a IH]; intros [| i]; cbn [set_at List.length];
    try reflexivity. rewrite IH. reflexivity.
Qed.

Lemma map_from_length {A B : Type} (f : A -> nat -> B) (a : list A) :
  forall i, List.length (map_from f i a) = List.length a.
Proof.
  induction a as [| x a IH]; intros i; cbn [map_from List.length]; [reflexivity |].
  rewrite IH. reflexivity.
Qed.

Lemma cov_at_ok (covariance : list (list number)) (i j : nat) :
  (i < List.length covariance)%nat -> exists c, cov_at covariance i j = Ok c.
Proof.
  intros Hi. unfold cov_at.
  destruct (nth_error covariance i) as [row |] eqn:Hrow.
  - eexists. reflexivity.
  - apply nth_error_None in Hrow. lia.
Qed.

Variable returns : list number.
Variable covariance : list (list number).

Lemma calculateGradients_ok (weights : list number) :
  (List.length weights <= List.length covariance)%nat ->
  exists gradients,
    calculateGradients weights returns covariance = Ok gradients /\
    List.length gradients = List.length weights.
Proof.
  intros Hdim. unfold calculateGradients.
  apply (for_loop_inv (fun g => List.length g = List.length weights)).
  - intros i g Hi Hg.
    apply (for_loop_inv (fun g => List.length g = List.length weights));
      [| assumption].
    intros j g' _ Hg'.
    destruct (cov_at_ok covariance i j ltac:(lia)) as (c & ->).
    cbn [PortfolioOptimizer.bind]. eexists. split; [reflexivity |].
    rewrite set_at_length. assumption.
  - apply repeat_length.
Qed.

Lemma calculatePortfolioMetrics_ok (weights : list number) :
  (List.length weights <= List.length covariance)%nat ->
  exists variance,
    calculatePortfolioMetrics weights returns covariance
    = Ok {| return_ :=
              reduce (fun sum weight i => sum + weight * at_ returns i)%js weights (Fin 0);
            risk := Math_sqrt variance;
            variance := variance |}.
Proof.
  intros Hdim. unfold calculatePortfolioMetrics.
  destruct (for_loop_inv (fun _ : number => True)
              (fun i portfolioVariance =>
                 for_loop 0 (List.length weights)
                   (fun j portfolioVariance =>
                      PortfolioOptimizer.bind (cov_at covariance i j)
                        (fun c => Ok (portfolioVariance
                                      + at_ weights i * at_ weights j * c)%js))
                   portfolioVariance)
              (List.length weights) 0%nat (Fin 0)) as (variance & Hvar & _).
  - intros i s Hi _.
    apply (for_loop_inv (fun _ : number => True)); [| exact I].
    intros j s' _ _. destruct (cov_at_ok covariance i j ltac:(lia)) as (c & ->).
    cbn [PortfolioOptimizer.bind]. eexists. split; [reflexivity | exact I].
  - exact I.
  - exists variance. rewrite Hvar. reflexivity.
Qed.

(** The downside deviation guards its empty case: with no return below
    the target it is 0, without dividing by the number of such returns. *)
Lemma calculateDownsideDeviation_guard (rs : list number) (target : number) :
  filter (fun r => JS.lt r target) rs = [] ->
  calculateDownsideDeviation rs target = Fin 0.
Proof. intros H. unfold calculateDownsideDeviation. rewrite H. reflexivity. Qed.

Variable targetReturn : number.
Variable constraints : Constraints.

Lemma optimize_step_ok (weights : list number) :
  (List.length weights <= List.length covariance)%nat ->
  exists next,
    optimize_step returns covariance targetReturn constraints weights = Ok next /\
    List.length (fst next) = List.length weights.
Proof.
  intros Hdim. unfold optimize_step.
  destruct (calculateGradients_ok weights Hdim) as (gradients & -> & _).
  cbn [PortfolioOptimizer.bind]. eexists. split; [reflexivity |].
  cbn [fst]. destruct (sumToOne constraints), (nonNegative constraints);
    unfold mapi; rewrite ?length_map, map_from_length; reflexivity.
Qed.

Lemma optimize_loop_S (iter : nat) (weights : list number) :
  optimize_loop returns covariance targetReturn constraints (Datatypes.S iter) weights
  = PortfolioOptimizer.bind
      (optimize_step returns covariance targetReturn constraints weights)
      (fun next =>
         if snd next then Ok (fst next)
         else optimize_loop returns covariance targetReturn constraints iter (fst next)).
Proof. reflexivity. Qed.

Lemma optimize_loop_ok (iter : nat) :
  forall weights,
  (List.length weights <= List.length covariance)%nat ->
  exists weights',
    optimize_loop returns covariance targetReturn constraints iter weights = Ok weights' /\
    List.length weights' = List.length weights.
Proof.
  induction iter as [| iter IH]; intros weights Hdim.
  - exists weights. split; reflexivity.
  - cbn [optimize_loop].
    destruct (optimize_step_ok weights Hdim) as (next & -> & Hlen).
    cbn [PortfolioOptimizer.bind]. destruct (snd next).
    + eexists. split; [reflexivity | assumption].
    + destruct (IH (fst next) ltac:(lia)) as (weights' & -> & Hlen').
      eexists. split; [reflexivity | congruence].
Qed.

Lemma optimizePortfolio_ok :
  (List.length returns <= List.length covariance)%nat ->
  exists weights,
    optimizePortfolio returns covariance targetReturn constraints = Ok weights /\
    List.length weights = List.length returns.
Proof.
  intros Hdim. unfold optimizePortfolio.
  destruct (optimize_loop_ok iterations
              (repeat (Fin 1 / of_nat (List.length returns))%js (List.length returns)))
    as (weights & -> & Hlen).
  - rewrite repeat_length. assumption.
  - exists weights. split; [reflexivity |]. rewrite Hlen. apply repeat_length.
Qed.

End Optimizer.

(** C2 (what the code does instead).  With two assets of volatility 10 and
    correlation 0.5, the first descent step makes both weights negative;
    they are clamped to 0, their sum is 0, and the renormalisation divides
    zero by zero: whatever the target return, the weights returned are
    [NaN, NaN], which are neither non-negative nor of sum 1. *)
Theorem optimizePortfolio_NaN_weights (targetReturn : JS.number) :
  PortfolioOptimizer.optimizePortfolio Spec.wide_returns Spec.wide_covariance
    targetReturn Spec.both_constraints
  = PortfolioOptimizer.Ok [JS.NaN; JS.NaN] /\
  JS.le (JS.Fin 0) JS.NaN = false /\
  fold_left JS.add [JS.NaN; JS.NaN] (JS.Fin 0) = JS.NaN.
Proof.
  split; [| split; reflexivity].
  assert (Hnan : forall iter,
            PortfolioOptimizer.optimize_loop Spec.wide_returns Spec.wide_covariance
              targetReturn Spec.both_constraints iter [JS.NaN; JS.NaN]
            = PortfolioOptimizer.Ok [JS.NaN; JS.NaN]).
  { induction iter as [| iter IH]; [reflexivity |].
    cbn [PortfolioOptimizer.optimize_loop].
    change (PortfolioOptimizer.optimize_step Spec.wide_returns Spec.wide_covariance
              targetReturn Spec.both_constraints [JS.NaN; JS.NaN])
      with (PortfolioOptimizer.Ok ([JS.NaN; JS.NaN], false)).
    cbn [PortfolioOptimizer.bind fst snd]. exact IH. }
  unfold PortfolioOptimizer.optimizePortfolio, PortfolioOptimizer.iterations.
  cbn [Spec.wide_returns List.length repeat]. unfold JS.of_nat.
  rewrite div_Fin by (cbn [INR]; lra).
  change 1000%nat with (Datatypes.S 999). rewrite optimize_loop_S.
  assert (Hfirst :
            PortfolioOptimizer.optimize_step Spec.wide_returns Spec.wide_covariance
              targetReturn Spec.both_constraints
              [JS.Fin (1 / INR 2); JS.Fin (1 / INR 2)]
            = PortfolioOptimizer.Ok ([JS.NaN; JS.NaN], false)).
  { unfold PortfolioOptimizer.optimize_step, PortfolioOptimizer.calculateGradients,
      Spec.wide_covariance, Spec.wide_returns, Spec.both_constraints.
    cbn [List.length repeat PortfolioOptimizer.for_loop PortfolioOptimizer.bind
         PortfolioOptimizer.cov_at nth_error PortfolioOptimizer.at_ JS.to_number
         PortfolioOptimizer.set_at JS.mul PortfolioOptimizer.mapi
         PortfolioOptimizer.map_from PortfolioOptimizer.learningRate
         PortfolioOptimizer.nonNegative PortfolioOptimizer.sumToOne map fold_left INR].
    cbn [JS.add]. rewrite !sub_Fin, !max_Fin.
    rewrite !Rmax_left by lra. cbn [JS.add].
    replace (0 + 0 + 0) with 0 by lra. rewrite div_zero_zero.
    reflexivity. }
  rewrite Hfirst.
  cbn [PortfolioOptimizer.bind fst snd]. apply Hnan.
Qed.

(** ** Portfolio optimizer: where the projection succeeds

    When no entry of an [n x n] covariance matrix exceeds a bound [M] with
    [n * M < 100], a descent step cannot push all the weights below zero:
    the clamped weights have a positive sum, and the weights returned are
    finite, non-negative and of sum 1, whatever the returns and the
    target. *)

Section Projection.

Import JS PortfolioOptimizer Spec.

(** A loop whose passes succeed and step an indexed invariant. *)
Lemma for_loop_step_inv {St : Type} (P : nat -> St -> Prop)
  (body : nat -> St -> result St) (n : nat) :
  forall i0 s,
  (forall i s, (i0 <= i < i0 + n)%nat -> P i s ->
               exists s', body i s = Ok s' /\ P (Datatypes.S i) s') ->
  P i0 s ->
  exists s', for_loop i0 n body s = Ok s' /\ P (i0 + n)%nat s'.
Proof.
  induction n as [| n IH]; intros i0 s Hbody Hs.
  - exists s. rewrite Nat.add_0_r. split; [reflexivity | assumption].
  - cbn [for_loop]. destruct (Hbody i0 s ltac:(lia) Hs) as (s1 & -> & Hs1).
    cbn [PortfolioOptimizer.bind].
    destruct (IH (Datatypes.S i0) s1) as (s2 & Hs2 & HP); [| assumption |].
    + intros i s2 Hi. apply Hbody. lia.
    + exists s2. split; [assumption |].
      replace (i0 + Datatypes.S n)%nat with (Datatypes.S i0 + n)%nat by lia. assumption.
Qed.

Lemma at_Fin (l : list R) (i : nat) :
  (i < List.length l)%nat -> at_ (map Fin l) i = Fin (nth i l 0).
Proof.
  intros Hi. unfold at_. rewrite nth_error_map.
  rewrite (nth_error_nth' l 0 Hi). reflexivity.
Qed.

Lemma set_at_Fin (l : list R) (i : nat) (x : R) :
  exists l',
    set_at (map Fin l) i (Fin x) = map Fin l' /\
    List.length l' = List.length l /\
    (forall k, k <> i -> nth k l' 0 = nth k l 0) /\
    ((i < List.length l)%nat -> nth i l' 0 = x).
Proof.
  revert i. induction l as [| y l IH]; intros i.
  - exists []. destruct i; repeat split; cbn; intros; try reflexivity; lia.
  - destruct i as [| i].
    + exists (x :: l). repeat split; try reflexivity.
      intros [| k] Hk; [contradiction | reflexivity].
    + destruct (IH i) as (l' & Heq & Hlen & Hother & Hat).
      exists (y :: l'). cbn [map set_at]. rewrite Heq.
      split; [reflexivity |]. split; [cbn; lia |]. split.
      * intros [| k] Hk; [reflexivity |]. cbn [nth]. apply Hother. lia.
      * cbn [List.length nth]. intros Hi. apply Hat. lia.
Qed.

Lemma sum_firstn_S (ws : list R) (j : nat) :
  (j < List.length ws)%nat ->
  sum (firstn (Datatypes.S j) ws) = sum (firstn j ws) + nth j ws 0.
Proof.
  revert j. induction ws as [| w ws IH]; intros j Hj; [cbn in Hj; lia |].
  destruct j as [| j].
  - cbn. lra.
  - cbn [List.length] in Hj. change (firstn (Datatypes.S (Datatypes.S j)) (w :: ws))
      with (w :: firstn (Datatypes.S j) ws).
    change (firstn (Datatypes.S j) (w :: ws)) with (w :: firstn j ws).
    cbn [sum fold_right nth]. fold (sum (firstn (Datatypes.S j) ws)).
    fold (sum (firstn j ws)). rewrite IH by lia. lra.
Qed.

Lemma sum_firstn_le (ws : list R) (j : nat) :
  Forall (Rle 0) ws -> 0 <= sum (firstn j ws) <= sum ws.
Proof.
  intros Hpos. revert j. induction Hpos as [| w ws Hw _ IH]; intros j.
  - rewrite firstn_nil. cbn. lra.
  - destruct j as [| j]; cbn [firstn sum fold_right].
    + fold (sum ws). specialize (IH 0%nat). cbn in IH. lra.
    + fold (sum ws). fold (sum (firstn j ws)). specialize (IH j). lra.
Qed.

Lemma nth_nonneg (ws : list R) (j : nat) : Forall (Rle 0) ws -> 0 <= nth j ws 0.
Proof.
  intros H. revert j. induction H as [| w ws Hw _ IH]; intros [| j]; cbn; try lra.
  apply IH.
Qed.

Lemma sum_le_bound (l : list R) (b : R) :
  Forall (fun x => x <= b) l -> sum l <= INR (List.length l) * b.
Proof.
  induction 1 as [| x l Hx _ IH]; cbn [sum fold_right List.length].
  - cbn. lra.
  - fold (sum l). rewrite S_INR. lra.
Qed.

Lemma Forall_of_nth (P : R -> Prop) (l : list R) :
  (forall k, (k < List.length l)%nat -> P (nth k l 0)) -> Forall P l.
Proof.
  intros H. apply Forall_forall. intros x Hx.
  destruct (In_nth l x 0 Hx) as (k & Hk & <-). apply H. assumption.
Qed.

Lemma sum_Rmax_ge (xs : list R) : sum xs <= sum (map (Rmax 0) xs).
Proof.
  induction xs as [| x xs IH]; cbn [map sum fold_right]; [lra |].
  fold (sum xs). fold (sum (map (Rmax 0) xs)). pose proof (Rmax_r 0 x). lra.
Qed.

Lemma sum_map_div (ys : list R) (s : R) : sum (map (fun y => y / s) ys) = sum ys / s.
Proof.
  induction ys as [| y ys IH]; cbn [map sum fold_right]; [unfold Rdiv; lra |].
  fold (sum ys). fold (sum (map (fun y => y / s) ys)). rewrite IH. unfold Rdiv. lra.
Qed.

Lemma sum_repeat (x : R) (n : nat) : sum (repeat x n) = INR n * x.
Proof.
  induction n as [| n IH]; [cbn; lra |].
  cbn [repeat sum fold_right]. fold (sum (repeat x n)). rewrite IH, S_INR. lra.
Qed.

Lemma skipn_nth_cons (l : list R) :
  forall i, (i < List.length l)%nat -> skipn i l = nth i l 0 :: skipn (Datatypes.S i) l.
Proof.
  induction l as [| x l IH]; intros i Hi; [cbn in Hi; lia |].
  destruct i as [| i]; [reflexivity |].
  cbn [List.length] in Hi. cbn [skipn nth]. apply IH. lia.
Qed.

Section Feasible.

Variable returns : list number.
Variable C : list (list R).
Variable target : number.
Variable M : R.
Variable n : nat.

Hypothesis Hrows : List.length C = n.
Hypothesis Hcols : Forall (fun row => List.length row = n) C.
Hypothesis Hbound : Forall (Forall (fun c => c <= M)) C.
Hypothesis Hsmall : INR n * M < 100.
Hypothesis Hn : (1 <= n)%nat.

Let covariance : list (list number) := map (map Fin) C.

Lemma cov_at_Fin (i j : nat) :
  (i < n)%nat -> (j < n)%nat ->
  exists c, cov_at covariance i j = Ok (Fin c) /\ c <= M.
Proof.
  intros Hi Hj. unfold cov_at, covariance. rewrite nth_error_map.
  destruct (nth_error C i) as [row |] eqn:Hrow;
    [| apply nth_error_None in Hrow; lia].
  cbn [option_map]. apply nth_error_In in Hrow.
  rewrite Forall_forall in Hcols, Hbound.
  specialize (Hcols row Hrow). specialize (Hbound row Hrow).
  rewrite at_Fin by lia. eexists. split; [reflexivity |].
  rewrite Forall_forall in Hbound. apply Hbound. apply nth_In. lia.
Qed.

Lemma gradients_bounded (ws : list R) :
  feasible ws -> List.length ws = n ->
  exists gl,
    calculateGradients (map Fin ws) returns covariance = Ok (map Fin gl) /\
    List.length gl = n /\ Forall (fun g => g <= M) gl.
Proof.
  intros [Hpos Hsum] Hlen. unfold calculateGradients. rewrite length_map, Hlen.
  destruct (for_loop_step_inv
              (fun i g => exists gl, g = map Fin gl /\ List.length gl = n /\
                                     (forall k, (k < i)%nat -> nth k gl 0 <= M) /\
                                     (forall k, (i <= k)%nat -> nth k gl 0 = 0))
              (fun i gradients =>
                 for_loop 0 n
                   (fun j gradients =>
                      PortfolioOptimizer.bind (cov_at covariance i j)
                        (fun c => Ok (set_at gradients i
                                        (at_ gradients i + at_ (map Fin ws) j * c)%js)))
                   gradients)
              n 0%nat (repeat (Fin 0) n)) as (g & Hg & gl & -> & Hgl & Hle & _).
  - intros i g [_ Hi] (gl & -> & Hgl & Hdone & Htodo). cbn [Nat.add] in Hi.
    destruct (for_loop_step_inv
                (fun j g' => exists gl', g' = map Fin gl' /\ List.length gl' = n /\
                                         (forall k, k <> i -> nth k gl' 0 = nth k gl 0) /\
                                         nth i gl' 0 <= M * sum (firstn j ws))
                (fun j gradients =>
                   PortfolioOptimizer.bind (cov_at covariance i j)
                     (fun c => Ok (set_at gradients i
                                     (at_ gradients i + at_ (map Fin ws) j * c)%js)))
                n 0%nat (map Fin gl)) as (g' & Hg' & gl' & -> & Hgl' & Hother & Hat).
    + intros j g' [_ Hj] (gl' & -> & Hgl' & Hother & Hat). cbn [Nat.add] in Hj.
      destruct (cov_at_Fin i j Hi Hj) as (c & -> & Hc).
      cbn [PortfolioOptimizer.bind]. rewrite !at_Fin by lia. cbn [JS.mul JS.add].
      destruct (set_at_Fin gl' i (nth i gl' 0 + nth j ws 0 * c))
        as (gl'' & -> & Hlen'' & Hother'' & Hat'').
      eexists. split; [reflexivity |]. exists gl''.
      split; [reflexivity |]. split; [lia |]. split.
      * intros k Hk. rewrite Hother'' by assumption. apply Hother. assumption.
      * rewrite Hat'' by lia. rewrite sum_firstn_S by lia.
        pose proof (nth_nonneg ws j Hpos). nra.
    + exists gl. split; [reflexivity |]. split; [assumption |].
      split; [reflexivity |]. rewrite (Htodo i) by lia. cbn. lra.
    + cbn [Nat.add] in Hat. rewrite <- Hlen, firstn_all, Hsum, Rmult_1_r in Hat.
      exists (map Fin gl'). split; [exact Hg' |]. exists gl'.
      split; [reflexivity |]. split; [lia |]. split.
      * intros k Hk. destruct (Nat.eq_dec k i) as [-> | Hne]; [assumption |].
        rewrite Hother by assumption. apply Hdone. lia.
      * intros k Hk. rewrite Hother by lia. apply Htodo. lia.
  - exists (repeat 0 n). split; [symmetry; apply map_repeat |].
    split; [apply repeat_length |]. split; [intros k Hk; lia |].
    intros k _. destruct (Nat.lt_ge_cases k n) as [Hk | Hk].
    + apply nth_repeat_lt. assumption.
    + apply nth_overflow. rewrite repeat_length. assumption.
  - exists gl. split; [exact Hg |]. split; [assumption |].
    apply Forall_of_nth. intros k Hk. apply Hle. lia.
Qed.

Lemma descent_update (gl : list R) :
  forall ws i,
  (i + List.length ws = List.length gl)%nat ->
  exists xs,
    map_from (fun w i => w - learningRate * at_ (map Fin gl) i)%js i (map Fin ws)
    = map Fin xs /\
    List.length xs = List.length ws /\
    sum xs = sum ws - 0.01 * sum (skipn i gl).
Proof.
  induction ws as [| w ws IH]; intros i Hi.
  - exists []. cbn [List.length] in Hi. rewrite Nat.add_0_r in Hi. subst i.
    rewrite skipn_all. cbn. split; [reflexivity |]. split; [reflexivity | lra].
  - cbn [List.length] in Hi.
    destruct (IH (Datatypes.S i) ltac:(lia)) as (xs & Heq & Hlen & Hsum).
    exists ((w - 0.01 * nth i gl 0) :: xs). cbn [map map_from]. rewrite Heq.
    rewrite at_Fin by lia. unfold learningRate. cbn [JS.mul]. rewrite sub_Fin.
    split; [reflexivity |]. split; [cbn; lia |].
    cbn [sum fold_right]. fold (sum xs). fold (sum ws). rewrite Hsum.
    rewrite (skipn_nth_cons gl i) by lia.
    cbn [sum fold_right]. fold (sum (skipn (Datatypes.S i) gl)). lra.
Qed.

Lemma optimize_step_feasible (ws : list R) :
  feasible ws -> List.length ws = n ->
  exists ws' stop,
    optimize_step returns covariance target both_constraints (map Fin ws)
    = Ok (map Fin ws', stop) /\
    feasible ws' /\ List.length ws' = n.
Proof.
  intros Hfeas Hlen. pose proof Hfeas as [Hpos Hsum].
  destruct (gradients_bounded ws Hfeas Hlen) as (gl & Hgrad & Hgl & Hle).
  destruct (descent_update gl ws 0 ltac:(cbn; lia)) as (xs & Hxs & Hxlen & Hxsum).
  cbn [skipn] in Hxsum.
  pose proof (sum_le_bound gl M Hle) as Hgsum. rewrite Hgl in Hgsum.
  pose proof (sum_Rmax_ge xs) as Hclamp.
  set (ys := map (Rmax 0) xs) in *.
  assert (Hs : 0 < sum ys) by lra.
  unfold optimize_step. rewrite Hgrad. cbn [PortfolioOptimizer.bind].
  unfold mapi. rewrite Hxs. cbn [both_constraints nonNegative sumToOne].
  assert (Hmax : map (fun w => Math_max (Fin 0) w) (map Fin xs) = map Fin ys).
  { unfold ys. rewrite !map_map. apply map_ext. intros x. apply max_Fin. }
  rewrite Hmax, sum_Fin, fold_left_sum.
  assert (Hdiv : map (fun w => (w / Fin (0 + sum ys))%js) (map Fin ys)
                 = map Fin (map (fun y => y / sum ys) ys)).
  { rewrite !map_map. apply map_ext. intros y. rewrite div_Fin by lra.
    f_equal. f_equal. lra. }
  rewrite Hdiv. eexists. eexists. split; [reflexivity |]. split; [split |].
  - apply Forall_forall. intros z Hz. apply in_map_iff in Hz.
    destruct Hz as (y & <- & Hy). unfold ys in Hy. apply in_map_iff in Hy.
    destruct Hy as (x & <- & _). pose proof (Rmax_l 0 x).
    apply Rmult_le_pos; [assumption | apply Rlt_le, Rinv_0_lt_compat; assumption].
  - rewrite sum_map_div. unfold Rdiv. apply Rinv_r. lra.
  - rewrite length_map. unfold ys. rewrite length_map. lia.
Qed.

Lemma optimize_loop_feasible (iter : nat) :
  forall ws,
  feasible ws -> List.length ws = n ->
  exists ws',
    optimize_loop returns covariance target both_constraints iter (map Fin ws)
    = Ok (map Fin ws') /\
    feasible ws' /\ List.length ws' = n.
Proof.
  induction iter as [| iter IH]; intros ws Hfeas Hlen.
  - exists ws. repeat split; try assumption; apply Hfeas.
  - rewrite optimize_loop_S.
    destruct (optimize_step_feasible ws Hfeas Hlen) as (ws' & stop & -> & Hfeas' & Hlen').
    cbn [PortfolioOptimizer.bind fst snd]. destruct stop.
    + exists ws'. repeat split; try assumption; apply Hfeas'.
    + apply IH; assumption.
Qed.

Lemma optimizePortfolio_feasible :
  List.length returns = n ->
  exists ws,
    optimizePortfolio returns covariance target both_constraints = Ok (map Fin ws) /\
    feasible ws /\ List.length ws = n.
Proof.
  intros Hlen. unfold optimizePortfolio. rewrite Hlen. unfold of_nat.
  assert (HnR : 0 < INR n) by (apply lt_0_INR; lia).
  rewrite div_Fin by lra. rewrite <- (map_repeat (1 / INR n) n Fin).
  apply optimize_loop_feasible; [| apply repeat_length].
  split.
  - apply Forall_forall. intros x Hx. apply repeat_spec in Hx. subst x.
    apply Rlt_le, Rdiv_lt_0_compat; lra.
  - rewrite sum_repeat. field. lra.
Qed.

End Feasible.

End Projection.

(** The covariance matrix of the usage example of the optimizer is well
    within the bound. *)
Lemma optimizePortfolio_usage_example (target : JS.number) :
  exists ws : list R,
    PortfolioOptimizer.optimizePortfolio
      [JS.Fin 0.1; JS.Fin 0.15; JS.Fin 0.12]
      (map (map JS.Fin) [[0.04; 0.02; 0.01]; [0.02; 0.05; 0.02]; [0.01; 0.02; 0.03]])
      target Spec.both_constraints
    = PortfolioOptimizer.Ok (map JS.Fin ws) /\
    Spec.feasible ws /\ List.length ws = 3%nat.
Proof.
  apply (optimizePortfolio_feasible _ _ target 0.05 3).
  - reflexivity.
  - repeat constructor.
  - repeat constructor; lra.
  - change (INR 3) with (1 + 1 + 1). lra.
  - lia.
  - reflexivity.
Qed.

(** ** Portfolio optimizer: the efficient frontier *)

Section Frontier.

Import JS PortfolioOptimizer Spec.

Lemma fold_min_Fin (rs : list R) :
  forall a,
  exists lo,
    fold_left Math_min (map Fin rs) (Fin a) = Fin lo /\
    (lo = a \/ In lo rs) /\ lo <= a /\ (forall x, In x rs -> lo <= x).
Proof.
  induction rs as [| x rs IH]; intros a.
  - exists a. cbn. intuition lra.
  - cbn [map fold_left]. rewrite min_Fin.
    destruct (IH (Rmin a x)) as (lo & Heq & Hin & Hle & Hall).
    exists lo. split; [exact Heq |].
    pose proof (Rmin_l a x). pose proof (Rmin_r a x).
    split; [| split; [lra |]].
    + destruct Hin as [-> | Hin]; [| right; right; exact Hin].
      unfold Rmin. destruct (Rle_dec a x); [left | right; left]; reflexivity.
    + intros y [<- | Hy]; [lra | auto].
Qed.

Lemma fold_max_Fin (rs : list R) :
  forall a,
  exists hi,
    fold_left Math_max (map Fin rs) (Fin a) = Fin hi /\
    (hi = a \/ In hi rs) /\ a <= hi /\ (forall x, In x rs -> x <= hi).
Proof.
  induction rs as [| x rs IH]; intros a.
  - exists a. cbn. intuition lra.
  - cbn [map fold_left]. rewrite max_Fin.
    destruct (IH (Rmax a x)) as (hi & Heq & Hin & Hle & Hall).
    exists hi. split; [exact Heq |].
    pose proof (Rmax_l a x). pose proof (Rmax_r a x).
    split; [| split; [lra |]].
    + destruct Hin as [-> | Hin]; [| right; right; exact Hin].
      unfold Rmax. destruct (Rle_dec a x); [right; left | left]; reflexivity.
    + intros y [<- | Hy]; [lra | auto].
Qed.

Lemma min_all_Fin (rs : list R) :
  rs <> [] ->
  exists lo, Math_min_all (map Fin rs) = Fin lo /\ In lo rs /\ (forall x, In x rs -> lo <= x).
Proof.
  destruct rs as [| a rs]; [contradiction | intros _].
  unfold Math_min_all. cbn [map fold_left Math_min JS.lt].
  destruct (fold_min_Fin rs a) as (lo & Heq & Hin & Hle & Hall).
  exists lo. split; [exact Heq |]. split.
  - destruct Hin as [-> | Hin]; [left; reflexivity | right; exact Hin].
  - intros x [<- | Hx]; [exact Hle | auto].
Qed.

Lemma max_all_Fin (rs : list R) :
  rs <> [] ->
  exists hi, Math_max_all (map Fin rs) = Fin hi /\ In hi rs /\ (forall x, In x rs -> x <= hi).
Proof.
  destruct rs as [| a rs]; [contradiction | intros _].
  unfold Math_max_all. cbn [map fold_left Math_max JS.lt].
  destruct (fold_max_Fin rs a) as (hi & Heq & Hin & Hle & Hall).
  exists hi. split; [exact Heq |]. split.
  - destruct Hin as [-> | Hin]; [left; reflexivity | right; exact Hin].
  - intros x [<- | Hx]; [exact Hle | auto].
Qed.

(** A loop that pushes one element per pass collects them in order. *)
Lemma for_loop_collect {A : Type} (P : nat -> A -> Prop)
  (body : nat -> list A -> result (list A)) (n : nat) :
  forall i0 acc,
  (forall i acc, (i0 <= i < i0 + n)%nat -> exists a, body i acc = Ok (acc ++ [a]) /\ P i a) ->
  exists new,
    for_loop i0 n body acc = Ok (acc ++ new) /\
    List.length new = n /\
    (forall k, (k < n)%nat -> exists a, nth_error new k = Some a /\ P (i0 + k)%nat a).
Proof.
  induction n as [| n IH]; intros i0 acc Hbody.
  - exists []. rewrite app_nil_r. repeat split. intros k Hk. lia.
  - cbn [for_loop]. destruct (Hbody i0 acc ltac:(lia)) as (a & -> & Ha).
    cbn [PortfolioOptimizer.bind].
    destruct (IH (Datatypes.S i0) (acc ++ [a])) as (new & -> & Hlen & Hnth).
    { intros i acc' Hi. apply Hbody. lia. }
    exists (a :: new). rewrite <- app_assoc. split; [reflexivity |].
    split; [cbn [List.length]; lia |].
    intros [| k] Hk.
    + exists a. rewrite Nat.add_0_r. split; [reflexivity | exact Ha].
    + destruct (Hnth k ltac:(lia)) as (b & Hb & HP).
      exists b. split; [exact Hb |].
      replace (i0 + Datatypes.S k)%nat with (Datatypes.S i0 + k)%nat by lia. exact HP.
Qed.

Lemma frontier_target_first (lo hi : R) (points : nat) :
  frontier_target lo hi points 0 = lo.
Proof. unfold frontier_target. cbn [INR]. unfold Rdiv. lra. Qed.

Lemma frontier_target_last (lo hi : R) (points : nat) :
  (2 <= points)%nat -> frontier_target lo hi points (points - 1) = hi.
Proof.
  intros Hp. unfold frontier_target. rewrite minus_INR by lia. cbn [INR].
  apply le_INR in Hp. change (INR 2) with (1 + 1) in Hp. field. lra.
Qed.

Lemma frontier_target_mono (lo hi : R) (points i j : nat) :
  (2 <= points)%nat -> lo <= hi -> (i <= j)%nat ->
  frontier_target lo hi points i <= frontier_target lo hi points j.
Proof.
  intros Hp Hlohi Hij. unfold frontier_target.
  apply le_INR in Hp. change (INR 2) with (1 + 1) in Hp. apply le_INR in Hij.
  apply Rplus_le_compat_l. unfold Rdiv.
  apply Rmult_le_compat_r; [apply Rlt_le, Rinv_0_lt_compat; lra |].
  apply Rmult_le_compat_r; lra.
Qed.

End Frontier.

(** C8.  For a non-empty vector of finite returns, a covariance matrix of
    the same dimension and [points >= 2], [generateEfficientFrontier]
    returns exactly [points] frontier points; the [i]-th one carries the
    weights of one [optimizePortfolio] call (sum-to-one and non-negative
    constraints) at the target return
    [min(returns) + i*(max(returns)-min(returns))/(points-1)], the return
    and risk of [calculatePortfolioMetrics] for these weights, and the
    Sharpe ratio [(return - riskFreeRate)/risk].  The targets go from
    [min(returns)] to [max(returns)] inclusive, in ascending order. *)
Theorem generateEfficientFrontier_points (rs : list R)
  (covariance : list (list JS.number)) (riskFreeRate : JS.number) (points : nat) :
  rs <> [] ->
  List.length covariance = List.length rs ->
  (2 <= points)%nat ->
  exists (lo hi : R) (frontier : list PortfolioOptimizer.FrontierPoint),
    (In lo rs /\ forall x, In x rs -> lo <= x) /\
    (In hi rs /\ forall x, In x rs -> x <= hi) /\
    PortfolioOptimizer.generateEfficientFrontier (map JS.Fin rs) covariance
      riskFreeRate points
    = PortfolioOptimizer.Ok frontier /\
    List.length frontier = points /\
    (forall i, (i < points)%nat ->
       exists weights metrics,
         PortfolioOptimizer.optimizePortfolio (map JS.Fin rs) covariance
           (JS.Fin (Spec.frontier_target lo hi points i)) Spec.both_constraints
         = PortfolioOptimizer.Ok weights /\
         PortfolioOptimizer.calculatePortfolioMetrics weights (map JS.Fin rs) covariance
         = PortfolioOptimizer.Ok metrics /\
         nth_error frontier i
         = Some {| PortfolioOptimizer.fp_weights := weights;
                   PortfolioOptimizer.fp_return := PortfolioOptimizer.return_ metrics;
                   PortfolioOptimizer.fp_risk := PortfolioOptimizer.risk metrics;
                   PortfolioOptimizer.fp_sharpe :=
                     JS.div (JS.sub (PortfolioOptimizer.return_ metrics) riskFreeRate)
                            (PortfolioOptimizer.risk metrics) |}) /\
    Spec.frontier_target lo hi points 0 = lo /\
    Spec.frontier_target lo hi points (points - 1) = hi /\
    (forall i j, (i <= j)%nat ->
       Spec.frontier_target lo hi points i <= Spec.frontier_target lo hi points j).
Proof.
  intros Hne Hdim Hpoints.
  destruct (min_all_Fin rs Hne) as (lo & Hmin & Hlo_in & Hlo).
  destruct (max_all_Fin rs Hne) as (hi & Hmax & Hhi_in & Hhi).
  assert (Hp : 2 <= INR points).
  { apply le_INR in Hpoints. change (INR 2) with (1 + 1) in Hpoints. lra. }
  assert (Htarget : forall i,
            JS.add (JS.Fin lo)
              (JS.mul (JS.of_nat i)
                 (JS.div (JS.sub (JS.Fin hi) (JS.Fin lo))
                    (JS.sub (JS.of_nat points) (JS.Fin 1))))
            = JS.Fin (Spec.frontier_target lo hi points i)).
  { intros i. unfold JS.of_nat. rewrite !sub_Fin. rewrite div_Fin by lra.
    cbn [JS.mul JS.add]. unfold Spec.frontier_target. f_equal. unfold Rdiv. ring. }
  unfold PortfolioOptimizer.generateEfficientFrontier. rewrite Hmin, Hmax.
  destruct (for_loop_collect
              (fun i point =>
                 exists weights metrics,
                   PortfolioOptimizer.optimizePortfolio (map JS.Fin rs) covariance
                     (JS.Fin (Spec.frontier_target lo hi points i)) Spec.both_constraints
                   = PortfolioOptimizer.Ok weights /\
                   PortfolioOptimizer.calculatePortfolioMetrics weights (map JS.Fin rs)
                     covariance
                   = PortfolioOptimizer.Ok metrics /\
                   point
                   = {| PortfolioOptimizer.fp_weights := weights;
                        PortfolioOptimizer.fp_return := PortfolioOptimizer.return_ metrics;
                        PortfolioOptimizer.fp_risk := PortfolioOptimizer.risk metrics;
                        PortfolioOptimizer.fp_sharpe :=
                          JS.div (JS.sub (PortfolioOptimizer.return_ metrics) riskFreeRate)
                                 (PortfolioOptimizer.risk metrics) |})
              (fun i frontier =>
                 PortfolioOptimizer.bind
                   (PortfolioOptimizer.optimizePortfolio (map JS.Fin rs) covariance
                      (JS.add (JS.Fin lo)
                         (JS.mul (JS.of_nat i)
                            (JS.div (JS.sub (JS.Fin hi) (JS.Fin lo))
                               (JS.sub (JS.of_nat points) (JS.Fin 1)))))
                      {| PortfolioOptimizer.sumToOne := true;
                         PortfolioOptimizer.nonNegative := true |})
                   (fun weights =>
                      PortfolioOptimizer.bind
                        (PortfolioOptimizer.calculatePortfolioMetrics weights
                           (map JS.Fin rs) covariance)
                        (fun metrics =>
                           PortfolioOptimizer.Ok
                             (frontier ++
                              [{| PortfolioOptimizer.fp_weights := weights;
                                  PortfolioOptimizer.fp_return :=
                                    PortfolioOptimizer.return_ metrics;
                                  PortfolioOptimizer.fp_risk :=
                                    PortfolioOptimizer.risk metrics;
                                  PortfolioOptimizer.fp_sharpe :=
                                    PortfolioOptimizer.calculateSharpeRatio
                                      (PortfolioOptimizer.return_ metrics)
                                      (PortfolioOptimizer.risk metrics) riskFreeRate |}]))))
              points 0%nat [])
    as (frontier & Hloop & Hlen & Hnth).
  { intros i acc _. rewrite Htarget.
    destruct (optimizePortfolio_ok (map JS.Fin rs) covariance
                (JS.Fin (Spec.frontier_target lo hi points i)) Spec.both_constraints)
      as (weights & Hopt & Hwlen).
    { rewrite length_map. lia. }
    destruct (calculatePortfolioMetrics_ok (map JS.Fin rs) covariance weights)
      as (variance & Hmetrics).
    { rewrite Hwlen, length_map. lia. }
    fold Spec.both_constraints. rewrite Hopt. cbn [PortfolioOptimizer.bind].
    rewrite Hmetrics. cbn [PortfolioOptimizer.bind].
    eexists. split; [reflexivity |].
    exists weights. eexists. split; [reflexivity |]. split; [exact Hmetrics |].
    reflexivity. }
  exists lo, hi, frontier.
  split; [split; assumption |]. split; [split; assumption |].
  split; [exact Hloop |]. split; [exact Hlen |].
  split.
  - intros i Hi. destruct (Hnth i Hi) as (point & Hpoint & weights & metrics & H1 & H2 & ->).
    exists weights, metrics. repeat split; assumption.
  - split; [apply frontier_target_first |].
    split; [apply frontier_target_last; assumption |].
    intros i j Hij. apply frontier_target_mono; try assumption.
    apply Hlo. assumption.
Qed.

Lemma generateEfficientFrontier_points_witness :
  exists (lo hi : R) (frontier : list PortfolioOptimizer.FrontierPoint),
    (In lo [0.1; 0.2] /\ forall x, In x [0.1; 0.2] -> lo <= x) /\
    (In hi [0.1; 0.2] /\ forall x, In x [0.1; 0.2] -> x <= hi) /\
    PortfolioOptimizer.generateEfficientFrontier (map JS.Fin [0.1; 0.2])
      Spec.two_asset_covariance (JS.Fin 0.03) 3
    = PortfolioOptimizer.Ok frontier /\
    List.length frontier = 3%nat /\
    (forall i, (i < 3)%nat ->
       exists weights metrics,
         PortfolioOptimizer.optimizePortfolio (map JS.Fin [0.1; 0.2])
           Spec.two_asset_covariance
           (JS.Fin (Spec.frontier_target lo hi 3 i)) Spec.both_constraints
         = PortfolioOptimizer.Ok weights /\
         PortfolioOptimizer.calculatePortfolioMetrics weights (map JS.Fin [0.1; 0.2])
           Spec.two_asset_covariance
         = PortfolioOptimizer.Ok metrics /\
         nth_error frontier i
         = Some {| PortfolioOptimizer.fp_weights := weights;
                   PortfolioOptimizer.fp_return := PortfolioOptimizer.return_ metrics;
                   PortfolioOptimizer.fp_risk := PortfolioOptimizer.risk metrics;
                   PortfolioOptimizer.fp_sharpe :=
                     JS.div (JS.sub (PortfolioOptimizer.return_ metrics) (JS.Fin 0.03))
                            (PortfolioOptimizer.risk metrics) |}) /\
    Spec.frontier_target lo hi 3 0 = lo /\
    Spec.frontier_target lo hi 3 (3 - 1) = hi /\
    (forall i j, (i <= j)%nat ->
       Spec.frontier_target lo hi 3 i <= Spec.frontier_target lo hi 3 j).
Proof.
  apply (generateEfficientFrontier_points [0.1; 0.2] Spec.two_asset_covariance
           (JS.Fin 0.03) 3).
  - discriminate.
  - reflexivity.
  - lia.
Defined.

(** ** Pricing engine: the closed form *)

Section ClosedForm.

Import JS BlackScholes Spec.

Lemma sqrt2_pos : 0 < sqrt 2.0.
Proof. apply sqrt_lt_R0. lra. Qed.

Lemma cdf_arg_nonneg (x : R) : 0 <= cdf_arg x.
Proof.
  unfold cdf_arg. apply Rmult_le_pos; [apply Rabs_pos |].
  apply Rlt_le, Rinv_0_lt_compat, sqrt2_pos.
Qed.

Lemma cdf_t_range (x : R) : 0 < cdf_t x <= 1.
Proof.
  unfold cdf_t. pose proof (cdf_arg_nonneg x) as Hx.
  assert (Hden : 1 <= 1.0 + 0.3275911 * cdf_arg x) by nra.
  split.
  - apply Rdiv_lt_0_compat; lra.
  - apply Rmult_le_reg_r with (1.0 + 0.3275911 * cdf_arg x); [lra |].
    unfold Rdiv. rewrite Rmult_assoc, Rinv_l by lra. lra.
Qed.

Lemma erf_poly_le (t : R) : 0 <= t <= 1 -> erf_poly t <= 0.999999999.
Proof.
  intros [H0 H1]. unfold erf_poly.
  assert (H2 : 0 <= t * t) by nra.
  assert (H3 : 0 <= t * t * (1 - t)) by nra.
  assert (H4 : 0 <= t * t * t * t) by nra.
  assert (Hq : 0 <= 0.999999999 + 0.745170407 * t + 1.029667143 * (t * t)
                    - 0.391746598 * (t * t * t) + 1.061405429 * (t * t * t * t))
    by nra.
  assert (Hp : 0 <= (1 - t) * (0.999999999 + 0.745170407 * t + 1.029667143 * (t * t)
                               - 0.391746598 * (t * t * t)
                               + 1.061405429 * (t * t * t * t)))
    by (apply Rmult_le_pos; lra).
  lra.
Qed.

Lemma erf_poly_nonneg (t : R) : 0 <= t <= 1 -> 0 <= erf_poly t.
Proof.
  intros [H0 H1]. unfold erf_poly.
  apply Rmult_le_pos; [| assumption].
  pose proof (pow2_ge_0 (t - 0.2845)) as S1.
  pose proof (pow2_ge_0 (t - 0.6845)) as S2.
  assert (Q1 : 0 <= 0.254829592 - 0.284496736 * t + 0.5 * (t * t)) by nra.
  assert (Q2 : 0 <= 0.921413741 - 1.453152027 * t + 1.061405429 * (t * t)) by nra.
  assert (Q3 : 0 <= (t * t) * (0.921413741 - 1.453152027 * t + 1.061405429 * (t * t)))
    by (apply Rmult_le_pos; nra).
  lra.
Qed.

Lemma erf_approx_range (x : R) : 0 <= erf_approx x <= 1.
Proof.
  unfold erf_approx. pose proof (cdf_t_range x) as Ht.
  pose proof (erf_poly_le (cdf_t x) ltac:(lra)) as Hle.
  pose proof (erf_poly_nonneg (cdf_t x) ltac:(lra)) as Hge.
  pose proof (cdf_arg_nonneg x) as Hx.
  pose proof (exp_pos (- cdf_arg x * cdf_arg x)) as He0.
  assert (He1 : exp (- cdf_arg x * cdf_arg x) <= 1).
  { rewrite <- exp_0. destruct (Req_dec (cdf_arg x) 0) as [-> | Hne].
    - rewrite Rmult_0_r. lra.
    - apply Rlt_le, exp_increasing. nra. }
  nra.
Qed.

Lemma normal_cdf_range (x : R) : 0 <= normal_cdf x <= 1.
Proof.
  unfold normal_cdf. pose proof (erf_approx_range x). destruct (Rltb x 0); lra.
Qed.

Lemma normal_cdf_nonneg_half (x : R) : 0 <= x -> 0.5 <= normal_cdf x.
Proof.
  intros Hx. unfold normal_cdf. pose proof (erf_approx_range x).
  rewrite Rltb_false by assumption. lra.
Qed.

Lemma erf_approx_opp (x : R) : erf_approx (- x) = erf_approx x.
Proof. unfold erf_approx, cdf_t, cdf_arg. rewrite Rabs_Ropp. reflexivity. Qed.

Lemma erf_approx_0 : erf_approx 0 = 0.000000001.
Proof.
  assert (Harg : cdf_arg 0 = 0).
  { unfold cdf_arg. rewrite Rabs_R0. unfold Rdiv. apply Rmult_0_l. }
  assert (Ht : cdf_t 0 = 1).
  { unfold cdf_t. rewrite Harg.
    replace (1.0 + 0.3275911 * 0) with 1 by lra. lra. }
  unfold erf_approx. rewrite Ht, Harg.
  replace (- 0 * 0) with 0 by lra. rewrite exp_0. unfold erf_poly. lra.
Qed.

Lemma normal_cdf_opp (x : R) : normal_cdf x + normal_cdf (- x) = 1 + cdf_excess x.
Proof.
  unfold normal_cdf, cdf_excess. rewrite erf_approx_opp.
  destruct (Rtotal_order x 0) as [Hlt | [-> | Hgt]].
  - rewrite (Rltb_true x 0), (Rltb_false (- x) 0), Reqb_false by lra. lra.
  - rewrite Ropp_0, Rltb_false, Reqb_true, erf_approx_0 by lra. lra.
  - rewrite (Rltb_false x 0), (Rltb_true (- x) 0), Reqb_false by lra. lra.
Qed.

Lemma normalCDF_Fin (x : R) : normalCDF (Fin x) = Fin (normal_cdf x).
Proof.
  pose proof sqrt2_pos as Hs. pose proof (cdf_arg_nonneg x) as Hx.
  unfold normalCDF, a1, a2, a3, a4, a5, p. cbn [JS.lt Math_abs].
  rewrite sqrt_Fin by lra. rewrite div_Fin by lra. fold (cdf_arg x).
  cbn [JS.mul JS.add]. rewrite div_Fin by nra. fold (cdf_t x).
  cbn [JS.mul JS.add JS.neg Math_exp]. rewrite sub_Fin.
  fold (erf_poly (cdf_t x)). fold (erf_approx x).
  unfold normal_cdf. destruct (Rltb x 0); reflexivity.
Qed.




Lemma sqrt_2PI_pos : 0 < sqrt (2.0 * PI).
Proof. apply sqrt_lt_R0. pose proof PI_RGT_0. lra. Qed.


Lemma normalPDF_Fin (x : R) : normalPDF (Fin x) = Fin (normal_pdf x).
Proof.
  pose proof sqrt_2PI_pos as Hs. pose proof PI_RGT_0 as Hpi.
  unfold normalPDF, Math_PI. cbn [JS.mul Math_exp].
  rewrite sqrt_Fin by lra. rewrite div_Fin by lra. reflexivity.
Qed.

Lemma erf_poly'_nonneg (x : R) : 0 <= erf_poly' x.
Proof.
  unfold erf_poly'.
  pose proof (pow2_ge_0 (x - 0.5689)) as S1.
  pose proof (pow2_ge_0 (x - 0.5476)) as S2.
  assert (Q1 : 0 <= 0.254829592 - 0.568993472 * x + 1 * (x * x)) by nra.
  assert (Q2 : 0 <= 3.264241223 - 5.812608108 * x + 5.307027145 * (x * x)) by nra.
  assert (Q3 : 0 <= (x * x) * (3.264241223 - 5.812608108 * x + 5.307027145 * (x * x)))
    by (apply Rmult_le_pos; nra).
  lra.
Qed.

Lemma erf_poly_boole (s t : R) :
  erf_poly t - erf_poly s
  = (t - s) * (7 / 90 * erf_poly' s
               + 32 / 90 * erf_poly' (s + 1 / 4 * (t - s))
               + 12 / 90 * erf_poly' (s + 2 / 4 * (t - s))
               + 32 / 90 * erf_poly' (s + 3 / 4 * (t - s))
               + 7 / 90 * erf_poly' t).
Proof. unfold erf_poly, erf_poly'. lra. Qed.

Lemma erf_poly_mono (s t : R) : s <= t -> erf_poly s <= erf_poly t.
Proof.
  intros Hst. pose proof (erf_poly_boole s t) as E.
  pose proof (erf_poly'_nonneg s). pose proof (erf_poly'_nonneg t).
  pose proof (erf_poly'_nonneg (s + 1 / 4 * (t - s))).
  pose proof (erf_poly'_nonneg (s + 2 / 4 * (t - s))).
  pose proof (erf_poly'_nonneg (s + 3 / 4 * (t - s))).
  assert (0 <= (t - s) * (7 / 90 * erf_poly' s
               + 32 / 90 * erf_poly' (s + 1 / 4 * (t - s))
               + 12 / 90 * erf_poly' (s + 2 / 4 * (t - s))
               + 32 / 90 * erf_poly' (s + 3 / 4 * (t - s))
               + 7 / 90 * erf_poly' t))
    by (apply Rmult_le_pos; lra).
  lra.
Qed.

Lemma cdf_arg_sqr (x : R) : - cdf_arg x * cdf_arg x = - (x * x) / 2.
Proof.
  unfold cdf_arg.
  assert (Hs : sqrt 2.0 * sqrt 2.0 = 2) by (rewrite sqrt_sqrt; lra).
  assert (Ha : Rabs x * Rabs x = x * x).
  { unfold Rabs. destruct (Rcase_abs x); lra. }
  pose proof sqrt2_pos as Hpos.
  assert (Hi : / sqrt 2.0 * / sqrt 2.0 = / 2).
  { rewrite <- Rinv_mult, Hs. reflexivity. }
  unfold Rdiv.
  replace (- (Rabs x * / sqrt 2.0) * (Rabs x * / sqrt 2.0))
    with (- ((Rabs x * Rabs x) * (/ sqrt 2.0 * / sqrt 2.0))) by ring.
  rewrite Ha, Hi. ring.
Qed.

Lemma normal_cdf_upper (x : R) : 0 <= x -> normal_cdf x = 1 - tail x / 2.
Proof.
  intros Hx. unfold normal_cdf, erf_approx, tail. rewrite Rltb_false by assumption. lra.
Qed.

Lemma normal_cdf_lower (x : R) : x < 0 -> normal_cdf x = tail x / 2.
Proof.
  intros Hx. unfold normal_cdf, erf_approx, tail. rewrite Rltb_true by assumption. lra.
Qed.

Lemma tail_opp (x : R) : tail (- x) = tail x.
Proof. unfold tail, cdf_t, cdf_arg. rewrite Rabs_Ropp. reflexivity. Qed.

Lemma cdf_t_antitone (x y : R) : Rabs x <= Rabs y -> cdf_t y <= cdf_t x.
Proof.
  intros Hxy. unfold cdf_t.
  pose proof (cdf_arg_nonneg x) as Hx. pose proof (cdf_arg_nonneg y) as Hy.
  assert (Harg : cdf_arg x <= cdf_arg y).
  { unfold cdf_arg. apply Rmult_le_compat_r; [| assumption].
    apply Rlt_le, Rinv_0_lt_compat, sqrt2_pos. }
  unfold Rdiv. apply Rmult_le_compat_l; [lra |].
  apply Rinv_le_contravar; nra.
Qed.

Section Regular.

Variables S K r v T : R.
Hypothesis HS : 0 < S.
Hypothesis HK : 0 < K.
Hypothesis HT : 0 < T.
Hypothesis Hv : 0 < v.

Lemma d1_Fin : d1 (Fin S) (Fin K) (Fin r) (Fin v) (Fin T) = Fin (d1_value S K r v T).
Proof.
  unfold d1. rewrite div_Fin by lra.
  rewrite log_Fin by (apply Rdiv_lt_0_compat; assumption).
  rewrite sqrt_Fin by lra. cbn [JS.mul JS.add].
  pose proof (sqrt_lt_R0 T HT) as Hsq.
  rewrite div_Fin by (apply Rgt_not_eq, Rmult_lt_0_compat; assumption).
  reflexivity.
Qed.

Lemma d2_Fin :
  d2 (Fin (d1_value S K r v T)) (Fin v) (Fin T) = Fin (d2_value S K r v T).
Proof. unfold d2. rewrite sqrt_Fin by lra. reflexivity. Qed.

(** The result of the main branch of [calculate], field by field. *)
Lemma calculate_regular (type : string) :
  let d1v := d1_value S K r v T in
  let d2v := d2_value S K r v T in
  let res := calculate (finite_params S K r v T type) in
  price res = Fin (Rmax 0 (if isCall type then raw_call S K r v T else raw_put S K r v T)) /\
  delta res = Fin (if isCall type then normal_cdf d1v else - normal_cdf (- d1v)) /\
  gamma res = Fin (normal_pdf d1v / (S * v * sqrt T)) /\
  vega res = Fin (S * sqrt T * normal_pdf d1v / 100).
Proof.
  pose proof (sqrt_lt_R0 T HT) as Hsq.
  assert (Hden : S * v * sqrt T <> 0).
  { apply Rgt_not_eq. repeat apply Rmult_lt_0_compat; assumption. }
  cbv zeta. unfold calculate, finite_params.
  cbn [BlackScholes.S BlackScholes.K BlackScholes.r BlackScholes.v BlackScholes.T
       BlackScholes.type JS.le].
  rewrite !Rleb_false by assumption.
  rewrite d1_Fin, d2_Fin. cbn [JS.neg]. rewrite !normalCDF_Fin, !normalPDF_Fin.
  rewrite sqrt_Fin by lra.
  cbn [price delta gamma vega JS.mul JS.neg Math_exp].
  rewrite (div_Fin _ 100) by lra. rewrite (div_Fin _ (S * v * sqrt T)) by assumption.
  unfold raw_call, raw_put.
  destruct (isCall type); rewrite sub_Fin, max_Fin; repeat split; reflexivity.
Qed.

Let d1v := d1_value S K r v T.
Let d2v := d2_value S K r v T.
Let w := v * sqrt T.
Let L := ln (S / K) + (r + 0.5 * v * v) * T.

Lemma w_pos : 0 < w.
Proof. apply Rmult_lt_0_compat; [assumption | apply sqrt_lt_R0; assumption]. Qed.

Lemma w_sqr : w * w = v * v * T.
Proof.
  unfold w. replace (v * sqrt T * (v * sqrt T)) with (v * v * (sqrt T * sqrt T)) by ring.
  rewrite sqrt_sqrt by lra. reflexivity.
Qed.

Lemma d1_w : d1v * w = L.
Proof.
  unfold d1v, d1_value. fold w. fold L. pose proof w_pos.
  unfold Rdiv. rewrite Rmult_assoc, Rinv_l by lra. lra.
Qed.

Lemma d2_d1 : d2v = d1v - w.
Proof. reflexivity. Qed.

Lemma bs_identity :
  S * exp (- (d1v * d1v) / 2) = K * exp (- r * T) * exp (- (d2v * d2v) / 2).
Proof.
  rewrite Rmult_assoc, <- exp_plus.
  assert (Hexp : - r * T + - (d2v * d2v) / 2 = ln (S / K) + - (d1v * d1v) / 2).
  { rewrite d2_d1.
    replace ((d1v - w) * (d1v - w)) with (d1v * d1v - 2 * (d1v * w) + w * w) by ring.
    rewrite d1_w, w_sqr. unfold L. lra. }
  rewrite Hexp, exp_plus, exp_ln by (apply Rdiv_lt_0_compat; assumption).
  field. lra.
Qed.

Lemma discounted_strike_le_spot : 0 <= d2v -> K * exp (- r * T) <= S.
Proof.
  intros Hd2. pose proof w_pos as Hw.
  assert (H : 0 <= d2v * w) by (apply Rmult_le_pos; lra).
  rewrite d2_d1 in H.
  replace ((d1v - w) * w) with (d1v * w - w * w) in H by ring.
  rewrite d1_w, w_sqr in H. unfold L in H.
  assert (Hvv : 0 <= v * v * T) by (apply Rmult_le_pos; nra).
  assert (Hln : - r * T <= ln (S / K)) by lra.
  assert (Hq : exp (- r * T) <= S / K).
  { rewrite <- (exp_ln (S / K)) by (apply Rdiv_lt_0_compat; assumption).
    destruct Hln as [Hlt | Heq]; [apply Rlt_le, exp_increasing; assumption |].
    rewrite Heq. lra. }
  apply (Rmult_le_compat_l K) in Hq; [| lra].
  replace (K * (S / K)) with S in Hq by (field; lra). exact Hq.
Qed.

Lemma spot_le_discounted_strike : d1v <= 0 -> S <= K * exp (- r * T).
Proof.
  intros Hd1. pose proof w_pos as Hw.
  assert (H : d1v * w <= 0) by nra.
  rewrite d1_w in H. unfold L in H.
  assert (Hvv : 0 <= v * v * T) by (apply Rmult_le_pos; nra).
  assert (Hln : ln (S / K) <= - r * T) by lra.
  assert (Hq : S / K <= exp (- r * T)).
  { rewrite <- (exp_ln (S / K)) at 1 by (apply Rdiv_lt_0_compat; assumption).
    destruct Hln as [Hlt | Heq]; [apply Rlt_le, exp_increasing; assumption |].
    rewrite Heq. lra. }
  apply (Rmult_le_compat_l K) in Hq; [| lra].
  replace (K * (S / K)) with S in Hq by (field; lra). exact Hq.
Qed.

(** The two tail terms, scaled by the spot and by the discounted strike,
    share the factor [S exp(-d1^2/2)]. *)
Lemma scaled_tails :
  exists A P1 P2 : R,
    0 <= A /\ A <= S /\ A <= K * exp (- r * T) /\
    0 <= P1 <= 1 /\ 0 <= P2 <= 1 /\
    S * tail d1v = A * P1 /\
    K * exp (- r * T) * tail d2v = A * P2 /\
    (Rabs d1v <= Rabs d2v -> P2 <= P1) /\
    (Rabs d2v <= Rabs d1v -> P1 <= P2).
Proof.
  exists (S * exp (- (d1v * d1v) / 2)), (erf_poly (cdf_t d1v)), (erf_poly (cdf_t d2v)).
  pose proof (exp_pos (- (d1v * d1v) / 2)) as He1.
  pose proof (exp_pos (- (d2v * d2v) / 2)) as He2.
  pose proof (exp_pos (- r * T)) as HD.
  assert (Hle : forall x, exp (- (x * x) / 2) <= 1).
  { intros x. rewrite <- exp_0. destruct (Req_dec x 0) as [-> | Hx].
    - replace (- (0 * 0) / 2) with 0 by lra. lra.
    - apply Rlt_le, exp_increasing. nra. }
  pose proof (Hle d1v) as Hle1. pose proof (Hle d2v) as Hle2.
  pose proof (cdf_t_range d1v) as Ht1. pose proof (cdf_t_range d2v) as Ht2.
  pose proof (erf_poly_le (cdf_t d1v) ltac:(lra)).
  pose proof (erf_poly_le (cdf_t d2v) ltac:(lra)).
  pose proof (erf_poly_nonneg (cdf_t d1v) ltac:(lra)).
  pose proof (erf_poly_nonneg (cdf_t d2v) ltac:(lra)).
  split; [nra |]. split; [nra |].
  split.
  { rewrite bs_identity.
    assert (0 < K * exp (- r * T)) by (apply Rmult_lt_0_compat; assumption). nra. }
  split; [lra |]. split; [lra |].
  split; [unfold tail; rewrite cdf_arg_sqr; ring |].
  split; [rewrite bs_identity; unfold tail; rewrite cdf_arg_sqr; ring |].
  split; intros Habs; apply erf_poly_mono, cdf_t_antitone; assumption.
Qed.

Lemma raw_call_nonneg : 0 <= raw_call S K r v T.
Proof.
  destruct scaled_tails as (A & P1 & P2 & HA0 & HAS & HAK & HP1 & HP2 & H1 & H2 & Hfar & Hnear).
  pose proof w_pos as Hw. pose proof d2_d1 as Hd.
  unfold raw_call. fold d1v. fold d2v.
  destruct (Rlt_dec d1v 0) as [Hd1 | Hd1].
  - rewrite !normal_cdf_lower by lra.
    assert (P2 <= P1) by (apply Hfar; rewrite !Rabs_left by lra; lra).
    nra.
  - rewrite (normal_cdf_upper d1v) by lra.
    destruct (Rlt_dec d2v 0) as [Hd2 | Hd2].
    + rewrite normal_cdf_lower by lra. nra.
    + rewrite normal_cdf_upper by lra.
      assert (P1 <= P2) by (apply Hnear; rewrite !Rabs_right by lra; lra).
      pose proof (discounted_strike_le_spot ltac:(lra)). nra.
Qed.

Lemma raw_put_nonneg : 0 <= raw_put S K r v T.
Proof.
  destruct scaled_tails as (A & P1 & P2 & HA0 & HAS & HAK & HP1 & HP2 & H1 & H2 & Hfar & Hnear).
  pose proof w_pos as Hw. pose proof d2_d1 as Hd.
  unfold raw_put. fold d1v. fold d2v.
  rewrite <- (tail_opp d1v) in H1. rewrite <- (tail_opp d2v) in H2.
  destruct (Rle_dec d1v 0) as [Hd1 | Hd1].
  - rewrite !normal_cdf_upper by lra.
    assert (P2 <= P1) by (apply Hfar; rewrite !Rabs_left1 by lra; lra).
    pose proof (spot_le_discounted_strike Hd1). nra.
  - rewrite (normal_cdf_lower (- d1v)) by lra.
    destruct (Rle_dec d2v 0) as [Hd2 | Hd2].
    + rewrite normal_cdf_upper by lra. nra.
    + rewrite normal_cdf_lower by lra.
      assert (P1 <= P2) by (apply Hnear; rewrite !Rabs_right by lra; lra).
      nra.
Qed.

End Regular.

End ClosedForm.



(** C3 (as the code has it).  For positive [S], [K], [T], [v] and any
    rate, the call price minus the put price is [S - K e^(-rT)], plus
    [S * 1e-9] when [d1 = 0] and minus [K e^(-rT) * 1e-9] when [d2 = 0]:
    it is [S - K e^(-rT)] exactly when [d1] and [d2] are not 0, and within
    [1e-9 * max(S, K e^(-rT))] of it in every case. *)
Theorem put_call_parity_up_to_excess (S K r v T : R) :
  0 < S -> 0 < K -> 0 < T -> 0 < v ->
  exists call put : R,
    BlackScholes.price (BlackScholes.calculate (Spec.finite_params S K r v T "call"))
    = JS.Fin call /\
    BlackScholes.price (BlackScholes.calculate (Spec.finite_params S K r v T "put"))
    = JS.Fin put /\
    call - put
    = S - K * exp (- r * T)
      + S * Spec.cdf_excess (Spec.d1_value S K r v T)
      - K * exp (- r * T) * Spec.cdf_excess (Spec.d2_value S K r v T) /\
    (Spec.d1_value S K r v T <> 0 -> Spec.d2_value S K r v T <> 0 ->
     call - put = S - K * exp (- r * T)) /\
    Rabs (call - put - (S - K * exp (- r * T)))
    <= 0.000000001 * Rmax S (K * exp (- r * T)).
Proof.
  intros HS HK HT Hv.
  destruct (calculate_regular S K r v T HS HK HT Hv "call") as (Hc & _).
  destruct (calculate_regular S K r v T HS HK HT Hv "put") as (Hp & _).
  cbv zeta in Hc, Hp.
  change (BlackScholes.isCall "call") with true in Hc.
  change (BlackScholes.isCall "put") with false in Hp.
  rewrite Rmax_right in Hc by (apply raw_call_nonneg; assumption).
  rewrite Rmax_right in Hp by (apply raw_put_nonneg; assumption).
  eexists. eexists. split; [exact Hc |]. split; [exact Hp |].
  assert (Hpar : Spec.raw_call S K r v T - Spec.raw_put S K r v T
                 = S - K * exp (- r * T)
                   + S * Spec.cdf_excess (Spec.d1_value S K r v T)
                   - K * exp (- r * T) * Spec.cdf_excess (Spec.d2_value S K r v T)).
  { unfold Spec.raw_call, Spec.raw_put.
    pose proof (normal_cdf_opp (Spec.d1_value S K r v T)) as H1.
    pose proof (normal_cdf_opp (Spec.d2_value S K r v T)) as H2.
    replace (Spec.normal_cdf (- Spec.d1_value S K r v T))
      with (1 + Spec.cdf_excess (Spec.d1_value S K r v T)
            - Spec.normal_cdf (Spec.d1_value S K r v T)) by lra.
    replace (Spec.normal_cdf (- Spec.d2_value S K r v T))
      with (1 + Spec.cdf_excess (Spec.d2_value S K r v T)
            - Spec.normal_cdf (Spec.d2_value S K r v T)) by lra.
    ring. }
  split; [exact Hpar |]. split.
  - intros Hd1 Hd2. rewrite Hpar.
    unfold Spec.cdf_excess. rewrite !Reqb_false by assumption. ring.
  - rewrite Hpar.
    pose proof (w_pos v T HT Hv) as Hw.
    pose proof (exp_pos (- r * T)) as HD.
    assert (HKD : 0 < K * exp (- r * T)) by (apply Rmult_lt_0_compat; assumption).
    pose proof (Rmax_l S (K * exp (- r * T))) as Hl.
    pose proof (Rmax_r S (K * exp (- r * T))) as Hr.
    unfold Spec.cdf_excess, Spec.d2_value.
    destruct (Req_dec (Spec.d1_value S K r v T) 0) as [Hd1 | Hd1].
    + rewrite Hd1, Reqb_true, Reqb_false by lra. rewrite Rabs_right; lra.
    + rewrite (Reqb_false (Spec.d1_value S K r v T)) by assumption.
      destruct (Req_dec (Spec.d1_value S K r v T - v * sqrt T) 0) as [Hd2 | Hd2].
      * rewrite Reqb_true by assumption. rewrite Rabs_left; lra.
      * rewrite Reqb_false by assumption. rewrite Rabs_right; lra.
Qed.

Section Parity.

Import JS BlackScholes Spec.

Lemma normal_cdf_0 : normal_cdf 0 = 0.5000000005.
Proof.
  unfold normal_cdf. rewrite Rltb_false by lra. rewrite erf_approx_0. lra.
Qed.

(** At [S = K], [v = 2], [T = 1] and a zero rate, [d1 = 1] and [d2 = -1]. *)
Lemma d1_value_one : d1_value 100 100 0 2 1 = 1.
Proof.
  unfold d1_value. replace (100 / 100) with 1 by lra.
  rewrite ln_1, sqrt_1. lra.
Qed.

Lemma d2_value_minus_one : d2_value 100 100 0 2 1 = -1.
Proof. unfold d2_value. rewrite d1_value_one, sqrt_1. lra. Qed.

(** At [S = K = 10000], [v = 1], [T = 1] and the rate -0.5, [d1 = 0] and
    [d2 = -1]. *)
Lemma d1_value_zero : d1_value 10000 10000 (-0.5) 1 1 = 0.
Proof.
  unfold d1_value. replace (10000 / 10000) with 1 by lra.
  rewrite ln_1, sqrt_1. lra.
Qed.

Lemma d2_value_at_zero : d2_value 10000 10000 (-0.5) 1 1 = -1.
Proof. unfold d2_value. rewrite d1_value_zero, sqrt_1. lra. Qed.

End Parity.

Lemma put_call_parity_up_to_excess_witness :
  exists call put : R,
    BlackScholes.price (BlackScholes.calculate (Spec.finite_params 100 100 0 2 1 "call"))
    = JS.Fin call /\
    BlackScholes.price (BlackScholes.calculate (Spec.finite_params 100 100 0 2 1 "put"))
    = JS.Fin put /\
    call - put = 100 - 100 * exp (- 0 * 1).
Proof.
  destruct (put_call_parity_up_to_excess 100 100 0 2 1)
    as (call & put & Hc & Hp & _ & Hexact & _); try lra.
  exists call, put. split; [exact Hc |]. split; [exact Hp |].
  apply Hexact.
  - rewrite d1_value_one. lra.
  - rewrite d2_value_minus_one. lra.
Defined.

(** C3 as it is stated fails where [d1 = 0]: both arguments [d1] and
    [-d1] of the approximate distribution function get the sign [+1], and
    the call price minus the put price exceeds [S - K e^(-rT)] by
    [S * 1e-9], which is 1e-5 at [S = 10000]. *)
Lemma put_call_parity_fails_at_zero_d1 :
  exists call put : R,
    BlackScholes.price
      (BlackScholes.calculate (Spec.finite_params 10000 10000 (-0.5) 1 1 "call"))
    = JS.Fin call /\
    BlackScholes.price
      (BlackScholes.calculate (Spec.finite_params 10000 10000 (-0.5) 1 1 "put"))
    = JS.Fin put /\
    0.000001 < call - put - (10000 - 10000 * exp (- (-0.5) * 1)).
Proof.
  destruct (calculate_regular 10000 10000 (-0.5) 1 1) with (type := "call"%string)
    as (Hc & _); try lra.
  destruct (calculate_regular 10000 10000 (-0.5) 1 1) with (type := "put"%string)
    as (Hp & _); try lra.
  cbv zeta in Hc, Hp.
  change (BlackScholes.isCall "call") with true in Hc.
  change (BlackScholes.isCall "put") with false in Hp.
  eexists. eexists. split; [exact Hc |]. split; [exact Hp |].
  pose proof (Rmax_r 0 (Spec.raw_call 10000 10000 (-0.5) 1 1)) as Hcall.
  assert (Hput : 0 <= Spec.raw_put 10000 10000 (-0.5) 1 1
                 /\ Spec.raw_call 10000 10000 (-0.5) 1 1
                    - Spec.raw_put 10000 10000 (-0.5) 1 1
                    = 10000.00001 - 10000 * exp (- (-0.5) * 1)).
  { unfold Spec.raw_call, Spec.raw_put. rewrite d1_value_zero, d2_value_at_zero.
    rewrite Ropp_0, normal_cdf_0.
    pose proof (normal_cdf_opp (-1)) as Hopp.
    unfold Spec.cdf_excess in Hopp. rewrite Reqb_false in Hopp by lra.
    pose proof (normal_cdf_nonneg_half (- -1) ltac:(lra)) as Hhalf.
    pose proof (exp_ineq1_le (- (-0.5) * 1)) as Hexp.
    set (D := exp (- (-0.5) * 1)) in *.
    set (N1 := Spec.normal_cdf (- -1)) in *.
    set (Nm1 := Spec.normal_cdf (-1)) in *.
    assert (HD : D * Nm1 + D * N1 = D) by (rewrite <- Rmult_plus_distr_l; nra).
    assert (HDN : 0.75 <= D * N1) by nra.
    split; lra. }
  destruct Hput as [Hput Hdiff].
  rewrite (Rmax_right 0 (Spec.raw_put 10000 10000 (-0.5) 1 1)) by assumption.
  lra.
Qed.

(** * Further properties of the code

    Edge behaviour, bounds and compositions that the code shows beyond the
    statements above. *)

(** ** Pricing engine: bounds, signs and edge cases *)

Section PricingEngine.

Import JS BlackScholes Spec.

Lemma exp_neg_sqr_le (x y : R) :
  Rabs x <= Rabs y -> exp (- (y * y) / 2) <= exp (- (x * x) / 2).
Proof.
  intros Hxy.
  assert (Hsq : x * x <= y * y).
  { pose proof (Rabs_pos x).
    replace (x * x) with (Rabs x * Rabs x) by (unfold Rabs; destruct (Rcase_abs x); lra).
    replace (y * y) with (Rabs y * Rabs y) by (unfold Rabs; destruct (Rcase_abs y); lra).
    nra. }
  destruct (Req_dec (x * x) (y * y)) as [-> | Hne]; [lra |].
  apply Rlt_le, exp_increasing. lra.
Qed.

Lemma tail_antitone (x y : R) : Rabs x <= Rabs y -> tail y <= tail x.
Proof.
  intros Hxy. unfold tail. rewrite !cdf_arg_sqr.
  pose proof (exp_neg_sqr_le x y Hxy) as He.
  pose proof (exp_pos (- (y * y) / 2)) as Hy.
  pose proof (erf_poly_mono _ _ (cdf_t_antitone x y Hxy)) as HP.
  pose proof (cdf_t_range y) as Hty.
  pose proof (erf_poly_nonneg (cdf_t y) ltac:(lra)) as HPy.
  nra.
Qed.

Lemma tail_range (x : R) : 0 <= tail x <= 0.999999999.
Proof.
  unfold tail. rewrite cdf_arg_sqr.
  pose proof (cdf_t_range x) as Ht.
  pose proof (erf_poly_nonneg (cdf_t x) ltac:(lra)) as H0.
  pose proof (erf_poly_le (cdf_t x) ltac:(lra)) as H1.
  pose proof (exp_pos (- (x * x) / 2)) as He.
  pose proof (exp_neg_sqr_le 0 x ltac:(rewrite Rabs_R0; apply Rabs_pos)) as He1.
  replace (- (0 * 0) / 2) with 0 in He1 by lra. rewrite exp_0 in He1.
  nra.
Qed.

Lemma normal_cdf_mono (x y : R) : x <= y -> normal_cdf x <= normal_cdf y.
Proof.
  intros Hxy.
  destruct (Rlt_dec x 0) as [Hx | Hx], (Rlt_dec y 0) as [Hy | Hy].
  - rewrite !normal_cdf_lower by assumption.
    pose proof (tail_antitone y x ltac:(rewrite !Rabs_left by lra; lra)). lra.
  - rewrite (normal_cdf_lower x), (normal_cdf_upper y) by lra.
    pose proof (tail_range x). pose proof (tail_range y). lra.
  - lra.
  - rewrite !normal_cdf_upper by lra.
    pose proof (tail_antitone x y ltac:(rewrite !Rabs_right by lra; lra)). lra.
Qed.



Lemma normalCDF_NaN : normalCDF NaN = NaN.
Proof. reflexivity. Qed.

Lemma normalPDF_NaN : normalPDF NaN = NaN.
Proof. reflexivity. Qed.

Section RegularGreeks.

Variables S K r v T : R.
Hypothesis HS : 0 < S.
Hypothesis HK : 0 < K.
Hypothesis HT : 0 < T.
Hypothesis Hv : 0 < v.


End RegularGreeks.

Lemma intrinsic_value_nonneg (call : bool) (S K : R) : 0 <= intrinsic_value call S K.
Proof. unfold intrinsic_value. destruct call; apply Rmax_l. Qed.

Lemma intrinsic_value_parity (S K : R) :
  intrinsic_value true S K - intrinsic_value false S K = S - K.
Proof.
  unfold intrinsic_value, Rmax.
  destruct (Rle_dec 0 (S - K)), (Rle_dec 0 (K - S)); lra.
Qed.

Lemma raw_call_le_spot (S K r v T : R) : 0 < S -> 0 < K -> raw_call S K r v T <= S.
Proof.
  intros HS HK. unfold raw_call.
  pose proof (normal_cdf_range (d1_value S K r v T)).
  pose proof (normal_cdf_range (d2_value S K r v T)).
  pose proof (exp_pos (- r * T)).
  assert (0 <= K * exp (- r * T) * normal_cdf (d2_value S K r v T)).
  { apply Rmult_le_pos; [apply Rmult_le_pos |]; lra. }
  nra.
Qed.

Lemma raw_put_le_strike (S K r v T : R) :
  0 < S -> 0 < K -> raw_put S K r v T <= K * exp (- r * T).
Proof.
  intros HS HK. unfold raw_put.
  pose proof (normal_cdf_range (- d1_value S K r v T)).
  pose proof (normal_cdf_range (- d2_value S K r v T)).
  pose proof (exp_pos (- r * T)).
  assert (0 < K * exp (- r * T)) by (apply Rmult_lt_0_compat; lra).
  nra.
Qed.

Lemma calculate_negative_spot (S K r v T : R) (type : string) :
  S < 0 -> 0 < K -> 0 < T -> 0 < v ->
  calculate (finite_params S K r v T type)
  = {| price := NaN; delta := NaN; gamma := NaN; vega := NaN; theta := NaN; rho := NaN |}.
Proof.
  intros HS HK HT Hv.
  assert (Hq : S / K < 0).
  { unfold Rdiv. pose proof (Rinv_0_lt_compat K HK). nra. }
  unfold calculate, finite_params.
  cbn [BlackScholes.S BlackScholes.K BlackScholes.r BlackScholes.v BlackScholes.T
       BlackScholes.type JS.le].
  rewrite !Rleb_false by assumption.
  unfold d1. rewrite div_Fin by lra. cbn [Math_log]. rewrite Rltb_true by assumption.
  rewrite sqrt_Fin by lra.
  cbn [JS.add JS.mul JS.div d2 JS.sub JS.neg].
  rewrite normalCDF_NaN, normalPDF_NaN.
  destruct (isCall type); cbn [JS.add JS.mul JS.div JS.sub JS.neg Math_exp Math_max];
    reflexivity.
Qed.

Lemma price_finite_nonneg (S K r v T : R) (type : string) :
  0 < S -> 0 < K ->
  exists p : R,
    price (calculate (finite_params S K r v T type)) = Fin p /\ 0 <= p.
Proof.
  intros HS HK. destruct (Rle_dec T 0) as [HT | HT].
  - rewrite calculate_expired by assumption. eexists. split; [reflexivity |].
    apply intrinsic_value_nonneg.
  - destruct (Rle_dec v 0) as [Hv | Hv].
    + rewrite calculate_zero_vol by lra. eexists. split; [reflexivity |].
      apply intrinsic_value_nonneg.
    + destruct (calculate_regular S K r v T HS HK ltac:(lra) ltac:(lra) type) as (Hp & _).
      cbv zeta in Hp. eexists. split; [exact Hp | apply Rmax_l].
Qed.

Lemma regular_price_bounds (S K r v T : R) :
  0 < S -> 0 < K -> 0 < T -> 0 < v ->
  exists call put : R,
    price (calculate (finite_params S K r v T "call")) = Fin call /\
    price (calculate (finite_params S K r v T "put")) = Fin put /\
    0 <= call <= S /\ 0 <= put <= K * exp (- r * T).
Proof.
  intros HS HK HT Hv.
  destruct (calculate_regular S K r v T HS HK HT Hv "call") as (Hc & _).
  destruct (calculate_regular S K r v T HS HK HT Hv "put") as (Hp & _).
  cbv zeta in Hc, Hp.
  change (isCall "call") with true in Hc.
  change (isCall "put") with false in Hp.
  pose proof (raw_call_nonneg S K r v T HS HK HT Hv) as Hc0.
  pose proof (raw_put_nonneg S K r v T HS HK HT Hv) as Hp0.
  rewrite Rmax_right in Hc by assumption. rewrite Rmax_right in Hp by assumption.
  eexists. eexists. split; [exact Hc |]. split; [exact Hp |].
  pose proof (raw_call_le_spot S K r v T HS HK).
  pose proof (raw_put_le_strike S K r v T HS HK). lra.
Qed.

End PricingEngine.



(** X2.  For positive [S], [K], [T], [v] the call price is at most the
    spot and the put price at most the discounted strike. *)
Theorem calculate_price_upper_bounds (S K r v T : R) :
  0 < S -> 0 < K -> 0 < T -> 0 < v ->
  exists call put : R,
    BlackScholes.price (BlackScholes.calculate (Spec.finite_params S K r v T "call"))
    = JS.Fin call /\
    BlackScholes.price (BlackScholes.calculate (Spec.finite_params S K r v T "put"))
    = JS.Fin put /\
    0 <= call <= S /\ 0 <= put <= K * exp (- r * T).
Proof. apply regular_price_bounds. Qed.

Lemma calculate_price_upper_bounds_witness :
  exists call put : R,
    BlackScholes.price (BlackScholes.calculate (Spec.finite_params 100 100 0.05 0.2 1 "call"))
    = JS.Fin call /\
    BlackScholes.price (BlackScholes.calculate (Spec.finite_params 100 100 0.05 0.2 1 "put"))
    = JS.Fin put /\
    0 <= call <= 100 /\ 0 <= put <= 100 * exp (- (0.05) * 1).
Proof. apply (calculate_price_upper_bounds 100 100 0.05 0.2 1); lra. Defined.

(** X3.  In the two degenerate branches put-call parity is exact: the call
    price minus the put price is [S - K] for an expired option and
    [S - K e^(-rT)] at zero volatility. *)
Theorem calculate_degenerate_parity (S K r v T : R) :
  T <= 0 \/ v <= 0 ->
  exists call put : R,
    BlackScholes.price (BlackScholes.calculate (Spec.finite_params S K r v T "call"))
    = JS.Fin call /\
    BlackScholes.price (BlackScholes.calculate (Spec.finite_params S K r v T "put"))
    = JS.Fin put /\
    call - put = (if JS.Rleb T 0 then S - K else S - K * exp (- r * T)).
Proof.
  intros Hdeg. destruct (Rle_dec T 0) as [HT | HT].
  - rewrite !calculate_expired by assumption. rewrite Rleb_true by assumption.
    eexists. eexists. split; [reflexivity |]. split; [reflexivity |].
    apply intrinsic_value_parity.
  - assert (Hv : v <= 0) by (destruct Hdeg; [contradiction | assumption]).
    rewrite !calculate_zero_vol by lra. rewrite Rleb_false by lra.
    eexists. eexists. split; [reflexivity |]. split; [reflexivity |].
    apply intrinsic_value_parity.
Qed.

Lemma calculate_degenerate_parity_witness :
  exists call put : R,
    BlackScholes.price (BlackScholes.calculate (Spec.finite_params 100 90 0.05 0 1 "call"))
    = JS.Fin call /\
    BlackScholes.price (BlackScholes.calculate (Spec.finite_params 100 90 0.05 0 1 "put"))
    = JS.Fin put /\
    call - put = (if JS.Rleb 1 0 then 100 - 90 else 100 - 90 * exp (- (0.05) * 1)).
Proof. apply (calculate_degenerate_parity 100 90 0.05 0 1). right. lra. Defined.

(** X4.  For positive [S], [K], [T], [v], gamma and vega are the same for a
    call and a put, and the call delta minus the put delta is 1 (plus 1e-9
    when [d1 = 0]). *)
Theorem calculate_call_put_greeks (S K r v T : R) :
  0 < S -> 0 < K -> 0 < T -> 0 < v ->
  BlackScholes.gamma (BlackScholes.calculate (Spec.finite_params S K r v T "call"))
  = BlackScholes.gamma (BlackScholes.calculate (Spec.finite_params S K r v T "put")) /\
  BlackScholes.vega (BlackScholes.calculate (Spec.finite_params S K r v T "call"))
  = BlackScholes.vega (BlackScholes.calculate (Spec.finite_params S K r v T "put")) /\
  exists dcall dput : R,
    BlackScholes.delta (BlackScholes.calculate (Spec.finite_params S K r v T "call"))
    = JS.Fin dcall /\
    BlackScholes.delta (BlackScholes.calculate (Spec.finite_params S K r v T "put"))
    = JS.Fin dput /\
    dcall - dput = 1 + Spec.cdf_excess (Spec.d1_value S K r v T) /\
    (Spec.d1_value S K r v T <> 0 -> dcall - dput = 1).
Proof.
  intros HS HK HT Hv.
  destruct (calculate_regular S K r v T HS HK HT Hv "call") as (_ & Hdc & Hgc & Hvc).
  destruct (calculate_regular S K r v T HS HK HT Hv "put") as (_ & Hdp & Hgp & Hvp).
  cbv zeta in *.
  change (BlackScholes.isCall "call") with true in Hdc.
  change (BlackScholes.isCall "put") with false in Hdp.
  split; [congruence |]. split; [congruence |].
  eexists. eexists. split; [exact Hdc |]. split; [exact Hdp |].
  pose proof (normal_cdf_opp (Spec.d1_value S K r v T)) as Hopp.
  split; [lra |].
  intros Hd1. unfold Spec.cdf_excess in Hopp. rewrite Reqb_false in Hopp by assumption. lra.
Qed.

Lemma calculate_call_put_greeks_witness :
  BlackScholes.gamma (BlackScholes.calculate (Spec.finite_params 100 100 0 2 1 "call"))
  = BlackScholes.gamma (BlackScholes.calculate (Spec.finite_params 100 100 0 2 1 "put")) /\
  BlackScholes.vega (BlackScholes.calculate (Spec.finite_params 100 100 0 2 1 "call"))
  = BlackScholes.vega (BlackScholes.calculate (Spec.finite_params 100 100 0 2 1 "put")) /\
  exists dcall dput : R,
    BlackScholes.delta (BlackScholes.calculate (Spec.finite_params 100 100 0 2 1 "call"))
    = JS.Fin dcall /\
    BlackScholes.delta (BlackScholes.calculate (Spec.finite_params 100 100 0 2 1 "put"))
    = JS.Fin dput /\
    dcall - dput = 1.
Proof.
  destruct (calculate_call_put_greeks 100 100 0 2 1) as (Hg & Hv & dc & dp & Hc & Hp & _ & H);
    try lra.
  split; [exact Hg |]. split; [exact Hv |].
  exists dc, dp. split; [exact Hc |]. split; [exact Hp |].
  apply H. rewrite d1_value_one. lra.
Defined.



(** X6.  The approximate [normalCDF] is monotone: a larger finite argument
    never gives a smaller value. *)
Theorem normalCDF_monotone (x y : R) :
  x <= y ->
  exists a b : R,
    BlackScholes.normalCDF (JS.Fin x) = JS.Fin a /\
    BlackScholes.normalCDF (JS.Fin y) = JS.Fin b /\
    a <= b.
Proof.
  intros Hxy. exists (Spec.normal_cdf x), (Spec.normal_cdf y).
  split; [apply normalCDF_Fin |]. split; [apply normalCDF_Fin |].
  apply normal_cdf_mono. assumption.
Qed.

Lemma normalCDF_monotone_witness :
  exists a b : R,
    BlackScholes.normalCDF (JS.Fin (-1)) = JS.Fin a /\
    BlackScholes.normalCDF (JS.Fin 1) = JS.Fin b /\
    a <= b.
Proof. apply (normalCDF_monotone (-1) 1). lra. Defined.


(** X8.  A negative spot with a positive strike is not rejected: the
    logarithm of the negative ratio is [NaN], and [calculate] returns
    [NaN] for the price and for every Greek, whatever the type. *)
Theorem calculate_negative_spot_NaN (S K r v T : R) (type : string) :
  S < 0 -> 0 < K -> 0 < T -> 0 < v ->
  BlackScholes.calculate (Spec.finite_params S K r v T type)
  = {| BlackScholes.price := JS.NaN; BlackScholes.delta := JS.NaN;
       BlackScholes.gamma := JS.NaN; BlackScholes.vega := JS.NaN;
       BlackScholes.theta := JS.NaN; BlackScholes.rho := JS.NaN |}.
Proof. apply calculate_negative_spot. Qed.

Lemma calculate_negative_spot_NaN_witness :
  BlackScholes.calculate (Spec.finite_params (-100) 100 0.05 0.2 1 "call")
  = {| BlackScholes.price := JS.NaN; BlackScholes.delta := JS.NaN;
       BlackScholes.gamma := JS.NaN; BlackScholes.vega := JS.NaN;
       BlackScholes.theta := JS.NaN; BlackScholes.rho := JS.NaN |}.
Proof. apply (calculate_negative_spot_NaN (-100) 100 0.05 0.2 1 "call"); lra. Defined.

(** ** Simulation engine: variates, risk figures and the estimate end to end *)

Section Variates.

Import JS MonteCarloEngine Spec.

(** What [boxMuller] returns is a variate of the transform. *)
Lemma boxMuller_inv (n : nat) :
  forall tape z rest,
  (List.length tape <= n)%nat ->
  unit_draws tape ->
  boxMuller tape = Some (z, rest) ->
  exists x, z = Fin x /\ box_muller tape x rest.
Proof.
  induction n as [| n IH]; intros tape z rest Hlen Hunit Hrun.
  - destruct tape; [discriminate | cbn [List.length] in Hlen; lia].
  - destruct tape as [| u1 [| u2 tape']]; try discriminate.
    inversion Hunit as [| ? ? [_ Hlt1] Hunit']; subst.
    inversion Hunit' as [| ? ? _ Hunit'']; subst.
    cbn [boxMuller JS.le EPSILON] in Hrun. fold epsilon in Hrun.
    pose proof epsilon_pos as Heps.
    destruct (Rle_dec u1 epsilon) as [Hrej | Hacc].
    + rewrite Rleb_true in Hrun by assumption.
      destruct (IH tape' z rest) as (x & -> & Hbm); try assumption.
      { cbn [List.length] in Hlen. lia. }
      exists x. split; [reflexivity |]. apply bm_retry; assumption.
    + rewrite Rleb_false in Hrun by lra.
      rewrite log_Fin in Hrun by lra. cbn [JS.mul] in Hrun.
      assert (Hln : ln u1 < 0).
      { rewrite <- ln_1. apply ln_increasing; lra. }
      rewrite sqrt_Fin in Hrun by lra. cbn [Math_PI JS.mul Math_cos] in Hrun.
      injection Hrun as <- <-.
      exists (sqrt (-2 * ln u1) * cos (2 * PI * u2)). split.
      * repeat f_equal; lra.
      * apply bm_accept. lra.
Qed.

Lemma box_muller_bounded (tape : list R) (z : R) (rest : list R) :
  unit_draws tape ->
  box_muller tape z rest ->
  Rabs z <= sqrt (-2 * ln epsilon) /\ (List.length rest + 2 <= List.length tape)%nat.
Proof.
  intros Hunit Hbm. induction Hbm as [u1 u2 rest Hu1 | u1 u2 z tape rest Hu1 _ IH].
  - inversion Hunit as [| ? ? [_ Hlt1] _]; subst.
    pose proof epsilon_pos as Heps.
    split; [| cbn [List.length]; lia].
    rewrite Rabs_mult.
    assert (Hln : ln epsilon < ln u1) by (apply ln_increasing; lra).
    assert (Hsq : sqrt (-2 * ln u1) <= sqrt (-2 * ln epsilon)) by (apply sqrt_le_1_alt; lra).
    pose proof (sqrt_pos (-2 * ln u1)) as Hpos.
    rewrite (Rabs_pos_eq _ Hpos).
    pose proof (COS_bound (2 * PI * u2)) as [Hc1 Hc2].
    assert (Hcos : Rabs (cos (2 * PI * u2)) <= 1) by (apply Rabs_le; lra).
    pose proof (Rabs_pos (cos (2 * PI * u2))).
    nra.
  - inversion Hunit as [| ? ? _ Hunit']; subst. inversion Hunit' as [| ? ? _ Hunit'']; subst.
    destruct (IH Hunit'') as [Hz Hl]. split; [exact Hz | cbn [List.length]; lia].
Qed.

Lemma ln_2_lt : ln 2 < 3 / 4.
Proof.
  assert (H1 : 1 + 3 / 32 < exp (3 / 32)) by (apply exp_ineq1; lra).
  assert (H2 : exp (3 / 16) = exp (3 / 32) * exp (3 / 32)).
  { rewrite <- exp_plus. f_equal. lra. }
  assert (H4 : exp (3 / 8) = exp (3 / 16) * exp (3 / 16)).
  { rewrite <- exp_plus. f_equal. lra. }
  assert (H8 : exp (3 / 4) = exp (3 / 8) * exp (3 / 8)).
  { rewrite <- exp_plus. f_equal. lra. }
  assert (G2 : 1.196 < exp (3 / 16)) by nra.
  assert (G4 : 1.43 < exp (3 / 8)) by nra.
  assert (G8 : 2 < exp (3 / 4)) by nra.
  rewrite <- (ln_exp (3 / 4)). apply ln_increasing; lra.
Qed.

Lemma variate_cap : sqrt (-2 * ln epsilon) < 9.
Proof.
  unfold epsilon. rewrite ln_Rinv by (apply pow_lt; lra).
  rewrite ln_pow by lra.
  change (INR 52) with (IZR (Z.of_nat 52)) || rewrite INR_IZR_INZ.
  cbn [Z.of_nat Pos.of_succ_nat Pos.succ].
  pose proof ln_2_lt as H.
  assert (H0 : 0 < ln 2) by (rewrite <- ln_1; apply ln_increasing; lra).
  replace 9 with (sqrt 81) by (replace 81 with (9 * 9) by lra; apply sqrt_square; lra).
  apply sqrt_lt_1_alt. lra.
Qed.

End Variates.

Section RiskEdges.

Import JS MonteCarloEngine Spec.

Lemma get_out_of_range {A : Type} (a : list A) (k : Z) :
  (k < 0 \/ Z.of_nat (List.length a) <= k)%Z -> get a k = None.
Proof.
  intros Hk. unfold get. destruct (Z.ltb_spec k 0) as [_ | Hge]; [reflexivity |].
  apply nth_error_None. lia.
Qed.

Lemma var_index_out_of_range (N : nat) (confidence : R) :
  confidence <= 0 \/ 1 < confidence ->
  (var_index N confidence < 0 \/ Z.of_nat N <= var_index N confidence)%Z.
Proof.
  intros Hc. unfold var_index.
  destruct (base_Int_part (INR N * (1 - confidence))) as [Hle Hgt].
  pose proof (pos_INR N) as HN.
  destruct Hc as [Hc | Hc].
  - right. apply Z.lt_succ_r. apply lt_IZR. rewrite succ_IZR, <- INR_IZR_INZ. nra.
  - destruct N as [| N].
    + right. cbn [INR]. rewrite Rmult_0_l.
      change 0 with (IZR 0). rewrite Int_part_IZR. cbn. lia.
    + left. apply lt_IZR. assert (0 < INR (Datatypes.S N)) by (apply lt_0_INR; lia). nra.
Qed.

Lemma valueAtRisk_out_of_range (paths : list (list number)) (confidence : R)
  (initialValue : number) :
  confidence <= 0 \/ 1 < confidence ->
  valueAtRisk (calculateRiskMetrics paths (Fin confidence) initialValue) = NaN.
Proof.
  intros Hc. unfold calculateRiskMetrics. cbn [valueAtRisk].
  rewrite sort_length, length_map, var_index_floor.
  unfold get_at. rewrite Int_part_IZR, Reqb_true by reflexivity.
  rewrite get_out_of_range.
  - reflexivity.
  - rewrite sort_length, length_map. apply var_index_out_of_range. assumption.
Qed.









End RiskEdges.

Section PricingEdges.

Import JS MonteCarloEngine Spec.

(** With a single payoff the sum of squared deviations is 0 or [NaN], and
    dividing it by [paths - 1 = 0] gives [NaN]. *)
Lemma single_payoff_variance (p : number) :
  ((Fin 0 + Math_pow (p - (Fin 0 + p) / Fin 1) 2) / (Fin 1 - Fin 1))%js = NaN.
Proof.
  destruct p as [x | | |]; cbn [JS.add].
  - rewrite div_Fin by lra. rewrite !sub_Fin. cbn [Math_pow JS.add].
    cbn [JS.div]. rewrite Reqb_true by lra.
    replace (0 + (x - (0 + x) / 1) ^ 2) with 0 by (cbn [pow]; field).
    unfold signed_inf. rewrite !Rltb_false by lra. reflexivity.
  - cbn [JS.div]. rewrite Rltb_false by lra. reflexivity.
  - cbn [JS.div]. rewrite Rltb_false by lra. reflexivity.
  - reflexivity.
Qed.

Lemma priceOption_few_paths (params : Params) (tape rest : list R)
  (res : SimulationResult) :
  (paths params <= 1)%nat ->
  priceOption params tape = Some (res, rest) ->
  standardError res = NaN /\
  lower (confidenceInterval res) = NaN /\
  upper (confidenceInterval res) = NaN /\
  (paths params = 0%nat -> price res = NaN /\ rest = tape).
Proof.
  intros Hpaths Hrun. unfold priceOption, MonteCarloEngine.bind, generatePaths in Hrun.
  cbn [paths with_mu] in Hrun.
  destruct (paths params) as [| [| n]] eqn:Hn; [| | lia].
  - cbn [generatePaths_loop ret map fold_left] in Hrun. unfold of_nat in Hrun.
    cbn [INR] in Hrun. rewrite div_zero_zero in Hrun.
    unfold ret in Hrun. injection Hrun as <- <-.
    cbn [standardError confidenceInterval lower upper price].
    rewrite Reqb_false by lra. cbn [JS.div]. rewrite Reqb_true by reflexivity.
    replace (0 / (0 + - (1))) with 0 by field.
    unfold signed_inf. rewrite !Rltb_false by lra. cbn [Math_sqrt JS.mul].
    repeat split; reflexivity.
  - cbn [generatePaths_loop] in Hrun. unfold MonteCarloEngine.bind in Hrun.
    destruct (generatePath _ tape) as [[path tape'] |]; [| discriminate].
    unfold ret in Hrun. cbn [app map fold_left] in Hrun. unfold of_nat in Hrun.
    cbn [INR] in Hrun. rewrite single_payoff_variance in Hrun.
    injection Hrun as <- <-.
    cbn [standardError confidenceInterval lower upper price JS.div Math_sqrt].
    split; [reflexivity |]. split; [| split; [| intros; discriminate]].
    + cbn [JS.mul]. unfold JS.sub. cbn [JS.neg]. apply add_NaN_r.
    + cbn [JS.mul]. apply add_NaN_r.
Qed.

End PricingEdges.

Section EndToEnd.

Import JS MonteCarloEngine Spec.










End EndToEnd.

(** X9.  The variate that [boxMuller] returns from draws in [0, 1) is a
    finite number of absolute value at most [sqrt(-2 ln epsilon)], which
    is below 9: the rejection of first draws up to the machine epsilon
    caps the tails.  Each call consumes at least two draws. *)
Theorem boxMuller_variate_bounded (tape : list R) (z : JS.number) (rest : list R) :
  Spec.unit_draws tape ->
  MonteCarloEngine.boxMuller tape = Some (z, rest) ->
  exists x : R,
    z = JS.Fin x /\
    Rabs x <= sqrt (-2 * ln Spec.epsilon) /\
    sqrt (-2 * ln Spec.epsilon) < 9 /\
    (List.length rest + 2 <= List.length tape)%nat.
Proof.
  intros Hunit Hrun.
  destruct (boxMuller_inv (List.length tape) tape z rest (le_n _) Hunit Hrun)
    as (x & Hz & Hbm).
  destruct (box_muller_bounded tape x rest Hunit Hbm) as [Hx Hlen].
  exists x. split; [exact Hz |]. split; [exact Hx |]. split; [apply variate_cap | exact Hlen].
Qed.

Lemma boxMuller_variate_bounded_witness :
  exists x : R,
    JS.Fin Spec.sample_variate = JS.Fin x /\
    Rabs x <= sqrt (-2 * ln Spec.epsilon) /\
    sqrt (-2 * ln Spec.epsilon) < 9 /\
    (List.length (@nil R) + 2 <= List.length ([0.5; 0.25]%R))%nat.
Proof.
  assert (Hunit : Spec.unit_draws [0.5; 0.25]) by (repeat constructor; lra).
  apply (boxMuller_variate_bounded [0.5; 0.25] (JS.Fin Spec.sample_variate) [] Hunit).
  apply boxMuller_spec; [exact Hunit |]. apply Spec.bm_accept. exact epsilon_lt_half.
Defined.

(** X10.  A confidence level outside of (0, 1] is not rejected: the rank
    [floor(N * (1 - confidence))] then falls outside of the sorted returns,
    the read is [undefined] and [valueAtRisk] is [NaN], for every set of
    paths and every initial value. *)
Theorem calculateRiskMetrics_confidence_out_of_range (paths : list (list JS.number))
  (confidence : R) (initialValue : JS.number) :
  confidence <= 0 \/ 1 < confidence ->
  MonteCarloEngine.valueAtRisk
    (MonteCarloEngine.calculateRiskMetrics paths (JS.Fin confidence) initialValue)
  = JS.NaN.
Proof. apply valueAtRisk_out_of_range. Qed.

Lemma calculateRiskMetrics_confidence_out_of_range_witness :
  MonteCarloEngine.valueAtRisk
    (MonteCarloEngine.calculateRiskMetrics
       [[JS.Fin 100; JS.Fin 110]; [JS.Fin 100; JS.Fin 90]] (JS.Fin 95) (JS.Fin 1000))
  = JS.NaN.
Proof.
  apply (calculateRiskMetrics_confidence_out_of_range
           [[JS.Fin 100; JS.Fin 110]; [JS.Fin 100; JS.Fin 90]] 95 (JS.Fin 1000)).
  right. lra.
Defined.



(** X12.  With fewer than two paths [priceOption] does not fail: the
    division by [paths - 1] (or by [paths]) makes the standard error and
    both bounds of the confidence interval [NaN], whatever the other
    parameters and the draws; with no path at all the price is [NaN] too
    and no draw is consumed. *)
Theorem priceOption_too_few_paths (params : MonteCarloEngine.Params)
  (tape rest : list R) (res : MonteCarloEngine.SimulationResult) :
  (MonteCarloEngine.paths params <= 1)%nat ->
  MonteCarloEngine.priceOption params tape = Some (res, rest) ->
  MonteCarloEngine.standardError res = JS.NaN /\
  MonteCarloEngine.lower (MonteCarloEngine.confidenceInterval res) = JS.NaN /\
  MonteCarloEngine.upper (MonteCarloEngine.confidenceInterval res) = JS.NaN /\
  (MonteCarloEngine.paths params = 0%nat ->
   MonteCarloEngine.price res = JS.NaN /\ rest = tape).
Proof. apply priceOption_few_paths. Qed.

Lemma priceOption_too_few_paths_witness :
  exists res : MonteCarloEngine.SimulationResult,
    MonteCarloEngine.priceOption
      {| MonteCarloEngine.S0 := JS.Fin 100; MonteCarloEngine.K := JS.Fin 100;
         MonteCarloEngine.r := JS.Fin 0.05; MonteCarloEngine.mu := JS.Fin 0.05;
         MonteCarloEngine.sigma := JS.Fin 0.2; MonteCarloEngine.T := JS.Fin 1;
         MonteCarloEngine.paths := 0%nat; MonteCarloEngine.steps := 252%nat;
         MonteCarloEngine.type := "call"; MonteCarloEngine.style := "european" |}
      [0.5; 0.25]
    = Some (res, [0.5; 0.25]) /\
    MonteCarloEngine.standardError res = JS.NaN /\
    MonteCarloEngine.lower (MonteCarloEngine.confidenceInterval res) = JS.NaN /\
    MonteCarloEngine.upper (MonteCarloEngine.confidenceInterval res) = JS.NaN.
Proof.
  match goal with
  | |- exists res, ?run = Some (res, ?rest) /\ _ =>
    assert (Hrun : exists res, run = Some (res, rest))
  end.
  { eexists.
    unfold MonteCarloEngine.priceOption, MonteCarloEngine.bind, MonteCarloEngine.generatePaths.
    cbn [MonteCarloEngine.with_mu MonteCarloEngine.paths MonteCarloEngine.generatePaths_loop
         MonteCarloEngine.ret].
    reflexivity. }
  destruct Hrun as (res & Hrun). exists res. split; [exact Hrun |].
  pose proof (fun Hle => priceOption_too_few_paths _ _ _ _ Hle Hrun) as H.
  cbn [MonteCarloEngine.paths] in H.
  destruct (H (le_0_n 1)) as (H1 & H2 & H3 & _). repeat split; assumption.
Defined.



Section SimulatedRisk.

Import JS MonteCarloEngine Spec.




End SimulatedRisk.



(** ** Portfolio optimizer: exceptions, downside risk and drawdown *)

Section Throws.

Import JS PortfolioOptimizer Spec.

(** A loop one of whose passes throws whatever the state throws. *)
Lemma for_loop_throws {St : Type} (body : nat -> St -> result St) (k : nat) :
  (forall s, body k s = TypeError) ->
  forall n i s, (i <= k < i + n)%nat -> for_loop i n body s = TypeError.
Proof.
  intros Hk. induction n as [| n IH]; intros i s Hi; [lia |].
  cbn [for_loop]. destruct (Nat.eq_dec i k) as [-> | Hne].
  - rewrite Hk. reflexivity.
  - destruct (body i s) as [s' |]; cbn [PortfolioOptimizer.bind]; [| reflexivity].
    apply IH. lia.
Qed.

Lemma cov_at_throws (covariance : list (list number)) (i j : nat) :
  (List.length covariance <= i)%nat -> cov_at covariance i j = TypeError.
Proof.
  intros Hi. unfold cov_at.
  replace (nth_error covariance i) with (@None (list number)); [reflexivity |].
  symmetry. apply nth_error_None. exact Hi.
Qed.

Lemma calculateGradients_throws (weights returns : list number)
  (covariance : list (list number)) :
  (List.length covariance < List.length weights)%nat ->
  calculateGradients weights returns covariance = TypeError.
Proof.
  intros Hdim. unfold calculateGradients.
  apply for_loop_throws with (k := List.length covariance); [| lia].
  intros g. apply for_loop_throws with (k := 0%nat); [| lia].
  intros g'. rewrite cov_at_throws by lia. reflexivity.
Qed.

Lemma calculatePortfolioMetrics_throws (weights returns : list number)
  (covariance : list (list number)) :
  (List.length covariance < List.length weights)%nat ->
  calculatePortfolioMetrics weights returns covariance = TypeError.
Proof.
  intros Hdim. unfold calculatePortfolioMetrics.
  rewrite for_loop_throws with (k := List.length covariance); [reflexivity | | lia].
  intros v. apply for_loop_throws with (k := 0%nat); [| lia].
  intros v'. rewrite cov_at_throws by lia. reflexivity.
Qed.

Lemma optimizePortfolio_throws (returns : list number) (covariance : list (list number))
  (targetReturn : number) (constraints : Constraints) :
  (List.length covariance < List.length returns)%nat ->
  optimizePortfolio returns covariance targetReturn constraints = TypeError.
Proof.
  intros Hdim. unfold optimizePortfolio, iterations.
  change 1000%nat with (Datatypes.S 999). rewrite optimize_loop_S.
  unfold optimize_step. rewrite calculateGradients_throws; [reflexivity |].
  rewrite repeat_length. exact Hdim.
Qed.

Lemma generateEfficientFrontier_ok (returns : list number)
  (covariance : list (list number)) (riskFreeRate : number) (points : nat) :
  (List.length returns <= List.length covariance)%nat ->
  exists frontier,
    generateEfficientFrontier returns covariance riskFreeRate points = Ok frontier.
Proof.
  intros Hdim. unfold generateEfficientFrontier.
  destruct (for_loop_inv (fun _ : list FrontierPoint => True)
              (fun i frontier =>
                 PortfolioOptimizer.bind
                   (optimizePortfolio returns covariance
                      (Math_min_all returns
                       + of_nat i * ((Math_max_all returns - Math_min_all returns)
                                     / (of_nat points - Fin 1)))%js
                      {| sumToOne := true; nonNegative := true |})
                   (fun weights =>
                      PortfolioOptimizer.bind
                        (calculatePortfolioMetrics weights returns covariance)
                        (fun metrics =>
                           Ok (frontier ++
                               [{| fp_weights := weights;
                                   fp_return := return_ metrics;
                                   fp_risk := risk metrics;
                                   fp_sharpe :=
                                     calculateSharpeRatio (return_ metrics) (risk metrics)
                                       riskFreeRate |}]))))
              points 0%nat []) as (frontier & Hrun & _).
  - intros i frontier _ _.
    destruct (optimizePortfolio_ok returns covariance
                (Math_min_all returns
                 + of_nat i * ((Math_max_all returns - Math_min_all returns)
                               / (of_nat points - Fin 1)))%js
                {| sumToOne := true; nonNegative := true |} Hdim) as (weights & -> & Hlen).
    cbn [PortfolioOptimizer.bind].
    destruct (calculatePortfolioMetrics_ok returns covariance weights ltac:(lia))
      as (variance & ->).
    cbn [PortfolioOptimizer.bind]. eexists. split; [reflexivity | exact I].
  - exact I.
  - exists frontier. exact Hrun.
Qed.

Lemma generateEfficientFrontier_throws (returns : list number)
  (covariance : list (list number)) (riskFreeRate : number) (points : nat) :
  (1 <= points)%nat ->
  (List.length covariance < List.length returns)%nat ->
  generateEfficientFrontier returns covariance riskFreeRate points = TypeError.
Proof.
  intros Hpoints Hdim. unfold generateEfficientFrontier.
  apply for_loop_throws with (k := 0%nat); [| lia].
  intros frontier. rewrite optimizePortfolio_throws by exact Hdim. reflexivity.
Qed.

Lemma throws_exactly (returns : list number) (covariance : list (list number))
  (weights : list number) (targetReturn riskFreeRate : number)
  (constraints : Constraints) (points : nat) :
  (calculateGradients weights returns covariance = TypeError
   <-> (List.length covariance < List.length weights)%nat) /\
  (calculatePortfolioMetrics weights returns covariance = TypeError
   <-> (List.length covariance < List.length weights)%nat) /\
  (optimizePortfolio returns covariance targetReturn constraints = TypeError
   <-> (List.length covariance < List.length returns)%nat) /\
  (generateEfficientFrontier returns covariance riskFreeRate points = TypeError
   <-> (1 <= points)%nat /\ (List.length covariance < List.length returns)%nat).
Proof.
  split; [| split; [| split]].
  - split; [| apply calculateGradients_throws].
    intros Hthrow.
    destruct (Nat.lt_ge_cases (List.length covariance) (List.length weights))
      as [Hlt | Hge]; [exact Hlt |].
    destruct (calculateGradients_ok returns covariance weights Hge) as (g & Hg & _).
    congruence.
  - split; [| apply calculatePortfolioMetrics_throws].
    intros Hthrow.
    destruct (Nat.lt_ge_cases (List.length covariance) (List.length weights))
      as [Hlt | Hge]; [exact Hlt |].
    destruct (calculatePortfolioMetrics_ok returns covariance weights Hge) as (v & Hv).
    congruence.
  - split; [| apply optimizePortfolio_throws].
    intros Hthrow.
    destruct (Nat.lt_ge_cases (List.length covariance) (List.length returns))
      as [Hlt | Hge]; [exact Hlt |].
    destruct (optimizePortfolio_ok returns covariance targetReturn constraints Hge)
      as (w & Hw & _).
    congruence.
  - split; [| intros [Hp Hlt]; apply generateEfficientFrontier_throws; assumption].
    intros Hthrow.
    destruct (Nat.lt_ge_cases (List.length covariance) (List.length returns))
      as [Hlt | Hge].
    + split; [| exact Hlt]. destruct points; [discriminate | lia].
    + destruct (generateEfficientFrontier_ok returns covariance riskFreeRate points Hge)
        as (f & Hf).
      congruence.
Qed.

End Throws.

Section Downside.

Import JS PortfolioOptimizer Spec.

Lemma filter_below_Fin (rs : list R) (target : R) :
  filter (fun r => JS.lt r (Fin target)) (map Fin rs)
  = map Fin (filter (fun r => Rltb r target) rs).
Proof.
  induction rs as [| r rs IH]; [reflexivity |].
  cbn [map filter JS.lt]. destruct (Rltb r target); cbn [map]; rewrite IH; reflexivity.
Qed.

Lemma squared_shortfalls_Fin (below : list R) (target : R) :
  map (fun r => Math_pow (Fin target - r)%js 2) (map Fin below)
  = map Fin (map (fun r => (target - r) ^ 2) below).
Proof.
  rewrite !map_map. apply map_ext. intros r. rewrite sub_Fin. reflexivity.
Qed.

Lemma fold_plus_squares (below : list R) (target : R) :
  forall a, 0 <= a -> a <= fold_left Rplus (map (fun r => (target - r) ^ 2) below) a.
Proof.
  induction below as [| r below IH]; intros a Ha; cbn [map fold_left]; [lra |].
  pose proof (pow2_ge_0 (target - r)) as Hsq.
  apply Rle_trans with (a + (target - r) ^ 2); [lra |]. apply IH. lra.
Qed.

Lemma fold_plus_squares_bound (below : list R) (target b : R) :
  Forall (fun r => (target - r) ^ 2 <= b) below ->
  forall a,
  fold_left Rplus (map (fun r => (target - r) ^ 2) below) a
  <= a + INR (List.length below) * b.
Proof.
  induction 1 as [| r below Hr _ IH]; intros a; cbn [map fold_left List.length].
  - cbn [INR]. lra.
  - rewrite S_INR. specialize (IH (a + (target - r) ^ 2)). lra.
Qed.

Lemma downside_deviation_value (rs : list R) (target : R) :
  exists d : R,
    calculateDownsideDeviation (map Fin rs) (Fin target) = Fin d /\
    0 <= d /\
    (d = 0 <-> Forall (fun r => target <= r) rs) /\
    (forall b, 0 <= b -> Forall (fun r => target - r <= b) rs -> d <= b).
Proof.
  unfold calculateDownsideDeviation.
  rewrite filter_below_Fin, squared_shortfalls_Fin, !length_map.
  destruct (filter (fun r => Rltb r target) rs) as [| x below] eqn:Hfilter.
  - cbn [List.length Nat.eqb]. exists 0. split; [reflexivity |]. split; [lra |].
    split; [| intros; assumption].
    split; [intros _ | reflexivity].
    apply Forall_forall. intros r Hr.
    destruct (Rlt_dec r target) as [Hlt | Hge]; [| lra].
    assert (Hin : In r (filter (fun r => Rltb r target) rs)).
    { apply filter_In. split; [exact Hr | apply Rltb_true; exact Hlt]. }
    rewrite Hfilter in Hin. contradiction.
  - assert (Hx : In x rs /\ x < target).
    { assert (Hin : In x (filter (fun r => Rltb r target) rs))
        by (rewrite Hfilter; left; reflexivity).
      apply filter_In in Hin. destruct Hin as [Hin Hlt]. split; [exact Hin |].
      apply Rltb_spec. exact Hlt. }
    destruct Hx as [Hxin Hxlt].
    assert (Hsub : forall r, In r (x :: below) -> In r rs).
    { intros r Hr. rewrite <- Hfilter in Hr. apply filter_In in Hr. apply Hr. }
    cbn [List.length Nat.eqb]. rewrite sum_Fin. unfold of_nat.
    set (m := Datatypes.S (List.length below)).
    assert (Hm : 0 < INR m) by (apply lt_0_INR; unfold m; lia).
    rewrite div_Fin by lra.
    set (total := fold_left Rplus (map (fun r => (target - r) ^ 2) (x :: below)) 0).
    assert (Htotal : 0 < total).
    { unfold total. cbn [map fold_left].
      assert (Hsq : 0 < (target - x) ^ 2) by (cbn [pow]; nra).
      pose proof (fold_plus_squares below target (0 + (target - x) ^ 2) ltac:(lra)). lra. }
    assert (Hmean : 0 < total / INR m) by (apply Rdiv_lt_0_compat; assumption).
    rewrite sqrt_Fin by lra.
    exists (sqrt (total / INR m)). split; [reflexivity |].
    split; [apply sqrt_pos |].
    split.
    + split.
      * intros H0. pose proof (sqrt_lt_R0 _ Hmean). lra.
      * intros Hall. rewrite Forall_forall in Hall. specialize (Hall x Hxin). lra.
    + intros b Hb Hall.
      assert (Hbound : Forall (fun r => (target - r) ^ 2 <= b * b) (x :: below)).
      { apply Forall_forall. intros r Hr. rewrite Forall_forall in Hall.
        specialize (Hall r (Hsub r Hr)).
        assert (Hlt : r < target).
        { rewrite <- Hfilter in Hr. apply filter_In in Hr. apply Rltb_spec, Hr. }
        cbn [pow]. nra. }
      pose proof (fold_plus_squares_bound (x :: below) target (b * b) Hbound 0) as Hle.
      fold total in Hle. change (List.length (x :: below)) with m in Hle.
      rewrite <- (sqrt_square b Hb). apply sqrt_le_1_alt.
      apply div_le_of_le_mul; [exact Hm | lra].
Qed.

Lemma sortino_without_downside (rs : list R) (target portfolioReturn riskFreeRate : R) :
  Forall (fun r => target <= r) rs ->
  calculateSortinoRatio (Fin portfolioReturn)
    (calculateDownsideDeviation (map Fin rs) (Fin target)) (Fin riskFreeRate)
  = signed_inf (portfolioReturn - riskFreeRate).
Proof.
  intros Hall.
  destruct (downside_deviation_value rs target) as (d & Hd & _ & [_ Hzero] & _).
  rewrite Hd, (Hzero Hall). unfold calculateSortinoRatio.
  rewrite sub_Fin. cbn [JS.div]. rewrite Reqb_true by reflexivity. reflexivity.
Qed.

Lemma signed_inf_not_finite (x : R) : isFinite (signed_inf x) = false.
Proof. unfold signed_inf. destruct (Rltb 0 x), (Rltb x 0); reflexivity. Qed.

End Downside.

Section DrawdownLoop.

Import JS PortfolioOptimizer Spec.

Variable ps : list R.
Hypothesis Hpos : Forall (Rlt 0) ps.

Let p (i : nat) : R := nth i ps 0.
Let drop (i j : nat) : R := (p i - p j) / p i.

(** What the variables of the loop hold when it reaches index [k]. *)
Let reached (k : nat) (s : DrawdownState) : Prop :=
  exists m : R,
    dd_peak s = Fin (p (dd_peakIndex s)) /\
    dd_maxDrawdown s = Fin m /\
    (dd_peakIndex s < k)%nat /\
    (dd_troughIndex s < k)%nat /\
    (forall i, (i < k)%nat -> p i <= p (dd_peakIndex s)) /\
    (forall i, (i < dd_peakIndex s)%nat -> p i < p (dd_peakIndex s)) /\
    0 <= m < 1 /\
    (forall i j, (i <= j < k)%nat -> drop i j <= m) /\
    ((m = 0 /\ dd_troughIndex s = 0%nat) \/
     (0 < m /\ exists i, (i <= dd_troughIndex s)%nat /\ m = drop i (dd_troughIndex s))).

Lemma price_pos (i : nat) : (i < List.length ps)%nat -> 0 < p i.
Proof.
  intros Hi. unfold p. rewrite Forall_forall in Hpos. apply Hpos. apply nth_In. exact Hi.
Qed.

Lemma drop_le_from_peak (a b c : R) :
  0 < a -> a <= b -> 0 < c -> (a - c) / a <= (b - c) / b.
Proof.
  intros Ha Hab Hc.
  assert (Hb : 0 < b) by lra.
  replace ((a - c) / a) with (1 - c / a) by (field; lra).
  replace ((b - c) / b) with (1 - c / b) by (field; lra).
  assert (c / b <= c / a); [| lra].
  unfold Rdiv. apply Rmult_le_compat_l; [lra |].
  apply Rinv_le_contravar; assumption.
Qed.

Lemma drawdown_step_reached (k : nat) (s : DrawdownState) :
  (k < List.length ps)%nat ->
  reached k s -> reached (Datatypes.S k) (drawdown_step (map Fin ps) k s).
Proof.
  intros Hk (m & Hpeak & Hm & Hpi & Hti & Hmax & Hfirst & Hrange & Hdom & Hatt).
  pose proof (price_pos k Hk) as Hpk.
  assert (HM : 0 < p (dd_peakIndex s)) by (apply price_pos; lia).
  unfold drawdown_step, JS.gt. rewrite at_Fin by exact Hk. fold (p k).
  rewrite Hpeak. cbn [JS.lt].
  destruct (Rlt_dec (p (dd_peakIndex s)) (p k)) as [Hnew | Hold].
  - rewrite Rltb_true by exact Hnew.
    cbn [dd_peak dd_maxDrawdown dd_peakIndex dd_troughIndex].
    rewrite sub_Fin, div_Fin by lra. rewrite Hm. cbn [JS.lt].
    replace ((p k - p k) / p k) with 0 by (field; lra).
    rewrite Rltb_false by lra.
    exists m. cbn [dd_peak dd_maxDrawdown dd_peakIndex dd_troughIndex].
    split; [reflexivity |]. split; [reflexivity |]. split; [lia |]. split; [lia |].
    split.
    { intros i Hi. destruct (Nat.eq_dec i k) as [-> | Hne]; [lra |].
      specialize (Hmax i ltac:(lia)). lra. }
    split.
    { intros i Hi. specialize (Hmax i Hi). lra. }
    split; [exact Hrange |].
    split; [| exact Hatt].
    intros i j Hij. destruct (Nat.eq_dec j k) as [-> | Hne]; [| apply Hdom; lia].
    assert (Hle : p i <= p k).
    { destruct (Nat.eq_dec i k) as [-> | Hne]; [lra |].
      specialize (Hmax i ltac:(lia)). lra. }
    assert (Hpi0 : 0 < p i) by (apply price_pos; lia).
    unfold drop. apply Rle_trans with 0; [| lra].
    apply div_le_of_le_mul; [exact Hpi0 | lra].
  - rewrite Rltb_false by lra. rewrite Hpeak, Hm.
    rewrite sub_Fin, div_Fin by lra. cbn [JS.lt].
    set (d := (p (dd_peakIndex s) - p k) / p (dd_peakIndex s)).
    assert (Hd : 0 <= d < 1).
    { unfold d. split.
      - apply Rmult_le_pos; [lra | apply Rlt_le, Rinv_0_lt_compat; exact HM].
      - replace ((p (dd_peakIndex s) - p k) / p (dd_peakIndex s))
          with (1 - p k / p (dd_peakIndex s)) by (field; lra).
        assert (0 < p k / p (dd_peakIndex s)) by (apply Rdiv_lt_0_compat; assumption).
        lra. }
    assert (Hdomk : forall i, (i <= k)%nat -> drop i k <= d).
    { intros i Hi. unfold drop, d.
      destruct (Nat.eq_dec i k) as [-> | Hne].
      - replace ((p k - p k) / p k) with 0 by (field; lra). apply Hd.
      - apply drop_le_from_peak; [apply price_pos; lia | apply Hmax; lia | exact Hpk]. }
    destruct (Rlt_dec m d) as [Hdeeper | Hshallow].
    + rewrite Rltb_true by exact Hdeeper.
      exists d. cbn [dd_peak dd_maxDrawdown dd_peakIndex dd_troughIndex].
      split; [reflexivity |]. split; [reflexivity |]. split; [lia |]. split; [lia |].
      split.
      { intros i Hi. destruct (Nat.eq_dec i k) as [-> | Hne]; [lra | apply Hmax; lia]. }
      split; [exact Hfirst |]. split; [exact Hd |].
      split.
      { intros i j Hij. destruct (Nat.eq_dec j k) as [-> | Hne]; [apply Hdomk; lia |].
        specialize (Hdom i j ltac:(lia)). lra. }
      right. split; [lra |]. exists (dd_peakIndex s). split; [lia | reflexivity].
    + rewrite Rltb_false by lra.
      exists m. split; [exact Hpeak |]. split; [exact Hm |]. split; [lia |]. split; [lia |].
      split.
      { intros i Hi. destruct (Nat.eq_dec i k) as [-> | Hne]; [lra | apply Hmax; lia]. }
      split; [exact Hfirst |]. split; [exact Hrange |].
      split; [| exact Hatt].
      intros i j Hij. destruct (Nat.eq_dec j k) as [-> | Hne]; [| apply Hdom; lia].
      specialize (Hdomk i ltac:(lia)). lra.
Qed.

Lemma drawdown_loop_reached (cnt : nat) :
  forall k s,
  (k + cnt = List.length ps)%nat ->
  reached k s -> reached (List.length ps) (drawdown_loop (map Fin ps) k cnt s).
Proof.
  induction cnt as [| cnt IH]; intros k s Hk Hs; cbn [drawdown_loop].
  - replace (List.length ps) with k by lia. exact Hs.
  - apply IH; [lia |]. apply drawdown_step_reached; [lia | exact Hs].
Qed.

Lemma drawdown_result :
  ps <> [] ->
  exists m : R,
    maxDrawdown (calculateMaxDrawdown (map Fin ps)) = Fin m /\
    0 <= m < 1 /\
    (forall i j, (i <= j < List.length ps)%nat ->
       (nth i ps 0 - nth j ps 0) / nth i ps 0 <= m) /\
    ((m = 0 /\ troughIndex (calculateMaxDrawdown (map Fin ps)) = 0%nat) \/
     (0 < m /\
      exists i, (i <= troughIndex (calculateMaxDrawdown (map Fin ps)))%nat /\
        m = (nth i ps 0 - nth (troughIndex (calculateMaxDrawdown (map Fin ps))) ps 0)
            / nth i ps 0)) /\
    (troughIndex (calculateMaxDrawdown (map Fin ps)) < List.length ps)%nat /\
    (peakIndex (calculateMaxDrawdown (map Fin ps)) < List.length ps)%nat /\
    (forall i, (i < List.length ps)%nat ->
       nth i ps 0 <= nth (peakIndex (calculateMaxDrawdown (map Fin ps))) ps 0) /\
    (forall i, (i < peakIndex (calculateMaxDrawdown (map Fin ps)))%nat ->
       nth i ps 0 < nth (peakIndex (calculateMaxDrawdown (map Fin ps))) ps 0).
Proof.
  intros Hne.
  assert (Hlen : (1 <= List.length ps)%nat).
  { destruct ps; [contradiction | cbn [List.length]; lia]. }
  unfold calculateMaxDrawdown. rewrite length_map.
  cbn [maxDrawdown peakIndex troughIndex].
  set (s0 := {| dd_maxDrawdown := Fin 0; dd_peak := at_ (map Fin ps) 0;
                dd_peakIndex := 0; dd_troughIndex := 0 |}).
  assert (H0 : reached 1 s0).
  { exists 0. unfold s0. cbn [dd_peak dd_maxDrawdown dd_peakIndex dd_troughIndex].
    split; [apply at_Fin; lia |]. split; [reflexivity |]. split; [lia |]. split; [lia |].
    split; [intros i Hi; replace i with 0%nat by lia; lra |].
    split; [intros i Hi; lia |]. split; [lra |].
    split; [| left; split; reflexivity].
    intros i j Hij. replace i with 0%nat by lia. replace j with 0%nat by lia.
    unfold drop. pose proof (price_pos 0 ltac:(lia)).
    replace ((p 0 - p 0) / p 0) with 0 by (field; lra). lra. }
  destruct (drawdown_loop_reached (List.length ps - 1) 1 s0 ltac:(lia) H0)
    as (m & _ & Hm & Hpi & Hti & Hmax & Hfirst & Hrange & Hdom & Hatt).
  exists m. split; [exact Hm |]. split; [exact Hrange |]. split; [exact Hdom |].
  split; [exact Hatt |]. split; [exact Hti |]. split; [exact Hpi |].
  split; [exact Hmax | exact Hfirst].
Qed.

End DrawdownLoop.

(** X15.  Reading a row of the covariance matrix that does not exist is
    the only thing that throws: [calculateGradients] and
    [calculatePortfolioMetrics] throw a [TypeError] exactly when the
    matrix has fewer rows than there are weights, [optimizePortfolio]
    exactly when it has fewer rows than there are returns, and
    [generateEfficientFrontier] exactly when, in addition, at least one
    point is asked for.  A row that is too short does not throw. *)
Theorem covariance_rows_TypeError (returns : list JS.number)
  (covariance : list (list JS.number)) (weights : list JS.number)
  (targetReturn riskFreeRate : JS.number)
  (constraints : PortfolioOptimizer.Constraints) (points : nat) :
  (PortfolioOptimizer.calculateGradients weights returns covariance
   = PortfolioOptimizer.TypeError
   <-> (List.length covariance < List.length weights)%nat) /\
  (PortfolioOptimizer.calculatePortfolioMetrics weights returns covariance
   = PortfolioOptimizer.TypeError
   <-> (List.length covariance < List.length weights)%nat) /\
  (PortfolioOptimizer.optimizePortfolio returns covariance targetReturn constraints
   = PortfolioOptimizer.TypeError
   <-> (List.length covariance < List.length returns)%nat) /\
  (PortfolioOptimizer.generateEfficientFrontier returns covariance riskFreeRate points
   = PortfolioOptimizer.TypeError
   <-> (1 <= points)%nat /\ (List.length covariance < List.length returns)%nat).
Proof. apply throws_exactly. Qed.

(** X16.  For [n >= 1] assets, an [n x n] covariance matrix of finite
    entries that are all at most [M] with [n * M < 100], any returns and
    any target, [optimizePortfolio] with both constraints returns finite
    weights that are not negative and sum to 1. *)
Theorem optimizePortfolio_weights_feasible (returns : list JS.number)
  (C : list (list R)) (target : JS.number) (M : R) (n : nat) :
  List.length C = n ->
  Forall (fun row => List.length row = n) C ->
  Forall (Forall (fun c => c <= M)) C ->
  INR n * M < 100 ->
  (1 <= n)%nat ->
  List.length returns = n ->
  exists ws : list R,
    PortfolioOptimizer.optimizePortfolio returns (map (map JS.Fin) C) target
      Spec.both_constraints
    = PortfolioOptimizer.Ok (map JS.Fin ws) /\
    Spec.feasible ws /\ List.length ws = n.
Proof. apply optimizePortfolio_feasible. Qed.

Lemma optimizePortfolio_weights_feasible_witness :
  exists ws : list R,
    PortfolioOptimizer.optimizePortfolio
      [JS.Fin 0.1; JS.Fin 0.2] (map (map JS.Fin) [[0.04; 0.03]; [0.03; 0.09]])
      (JS.Fin 0.15) Spec.both_constraints
    = PortfolioOptimizer.Ok (map JS.Fin ws) /\
    Spec.feasible ws /\ List.length ws = 2%nat.
Proof.
  apply (optimizePortfolio_weights_feasible
           [JS.Fin 0.1; JS.Fin 0.2] [[0.04; 0.03]; [0.03; 0.09]] (JS.Fin 0.15) 0.09 2).
  - reflexivity.
  - repeat constructor.
  - repeat constructor; lra.
  - change (INR 2) with (1 + 1). lra.
  - lia.
  - reflexivity.
Defined.


(** X18.  When no return is below the target, the downside deviation is 0
    and the Sortino ratio computed from it divides by zero: it is
    [Infinity], [-Infinity] or [NaN] according to the sign of the excess
    return, never a finite number. *)
Theorem calculateSortinoRatio_without_downside (rs : list R)
  (target portfolioReturn riskFreeRate : R) :
  Forall (fun r => target <= r) rs ->
  PortfolioOptimizer.calculateSortinoRatio (JS.Fin portfolioReturn)
    (PortfolioOptimizer.calculateDownsideDeviation (map JS.Fin rs) (JS.Fin target))
    (JS.Fin riskFreeRate)
  = JS.signed_inf (portfolioReturn - riskFreeRate) /\
  JS.isFinite
    (PortfolioOptimizer.calculateSortinoRatio (JS.Fin portfolioReturn)
       (PortfolioOptimizer.calculateDownsideDeviation (map JS.Fin rs) (JS.Fin target))
       (JS.Fin riskFreeRate))
  = false.
Proof.
  intros Hall. rewrite sortino_without_downside by exact Hall.
  split; [reflexivity | apply signed_inf_not_finite].
Qed.

Lemma calculateSortinoRatio_without_downside_witness :
  PortfolioOptimizer.calculateSortinoRatio (JS.Fin 0.12)
    (PortfolioOptimizer.calculateDownsideDeviation
       (map JS.Fin [0.1; 0.2]) (JS.Fin 0.05))
    (JS.Fin 0.03)
  = JS.signed_inf (0.12 - 0.03) /\
  JS.isFinite
    (PortfolioOptimizer.calculateSortinoRatio (JS.Fin 0.12)
       (PortfolioOptimizer.calculateDownsideDeviation
          (map JS.Fin [0.1; 0.2]) (JS.Fin 0.05))
       (JS.Fin 0.03))
  = false.
Proof.
  apply (calculateSortinoRatio_without_downside [0.1; 0.2] 0.05 0.12 0.03).
  repeat constructor; lra.
Defined.



(** X20.  For a non-empty series of positive prices, [peakIndex] is the
    first index at which the highest price of the whole series stands,
    whether or not the deepest drawdown started there. *)
Theorem calculateMaxDrawdown_peakIndex (ps : list R) :
  ps <> [] ->
  Forall (Rlt 0) ps ->
  (PortfolioOptimizer.peakIndex
     (PortfolioOptimizer.calculateMaxDrawdown (map JS.Fin ps)) < List.length ps)%nat /\
  (forall i, (i < List.length ps)%nat ->
     nth i ps 0
     <= nth (PortfolioOptimizer.peakIndex
               (PortfolioOptimizer.calculateMaxDrawdown (map JS.Fin ps))) ps 0) /\
  (forall i,
     (i < PortfolioOptimizer.peakIndex
            (PortfolioOptimizer.calculateMaxDrawdown (map JS.Fin ps)))%nat ->
     nth i ps 0
     < nth (PortfolioOptimizer.peakIndex
              (PortfolioOptimizer.calculateMaxDrawdown (map JS.Fin ps))) ps 0).
Proof.
  intros Hne Hpos.
  destruct (drawdown_result ps Hpos Hne)
    as (m & _ & _ & _ & _ & _ & Hpi & Hmax & Hfirst).
  split; [exact Hpi |]. split; [exact Hmax | exact Hfirst].
Qed.

Lemma calculateMaxDrawdown_peakIndex_witness :
  (PortfolioOptimizer.peakIndex
     (PortfolioOptimizer.calculateMaxDrawdown (map JS.Fin ([100; 50; 200]%R))) < 3)%nat /\
  200 <= nth (PortfolioOptimizer.peakIndex
                (PortfolioOptimizer.calculateMaxDrawdown (map JS.Fin [100; 50; 200])))
             [100; 50; 200] 0.
Proof.
  destruct (calculateMaxDrawdown_peakIndex [100; 50; 200]) as (Hpi & Hmax & _).
  - discriminate.
  - repeat constructor; lra.
  - split; [exact Hpi |]. apply (Hmax 2%nat). cbn [List.length]. lia.
Defined.

(** ** Page script: the covariance matrix and the payoff curves *)

Section Covariance.

Import JS PortfolioOptimizer Spec Main.

Lemma loop_inv {St : Type} (P : nat -> St -> Prop) (body : nat -> St -> St) (n : nat) :
  forall i0 s,
  (forall i s, (i0 <= i < i0 + n)%nat -> P i s -> P (Datatypes.S i) (body i s)) ->
  P i0 s ->
  P (i0 + n)%nat (loop i0 n body s).
Proof.
  induction n as [| n IH]; intros i0 s Hbody Hs; cbn [loop].
  - rewrite Nat.add_0_r. exact Hs.
  - replace (i0 + Datatypes.S n)%nat with (Datatypes.S i0 + n)%nat by lia.
    apply IH.
    + intros i s' Hi. apply Hbody. lia.
    + apply Hbody; [lia | exact Hs].
Qed.

Lemma update_length {A : Type} (a : list A) (i : nat) (x : A) :
  List.length (update a i x) = List.length a.
Proof.
  revert i. induction a as [| y a IH]; intros [| i]; cbn [update List.length];
    try reflexivity. rewrite IH. reflexivity.
Qed.

Lemma update_nth_eq {A : Type} (a : list A) (i : nat) (x d : A) :
  (i < List.length a)%nat -> nth i (update a i x) d = x.
Proof.
  revert i. induction a as [| y a IH]; intros [| i] Hi; cbn [List.length] in Hi;
    try lia; cbn [update nth]; [reflexivity |].
  apply IH. lia.
Qed.

Lemma update_nth_neq {A : Type} (a : list A) (i k : nat) (x d : A) :
  k <> i -> nth k (update a i x) d = nth k a d.
Proof.
  revert i k. induction a as [| y a IH]; intros [| i] [| k] Hk; cbn [update nth];
    try reflexivity; try contradiction.
  apply IH. lia.
Qed.

Lemma nth_map_seq {A : Type} (f : nat -> A) (n a : nat) (d : A) :
  (a < n)%nat -> nth a (map f (seq 0 n)) d = f a.
Proof.
  intros Ha. rewrite (nth_indep _ d (f 0%nat)) by (rewrite length_map, length_seq; exact Ha).
  rewrite map_nth, seq_nth by exact Ha. reflexivity.
Qed.

Lemma matrix_ext (m : list (list number)) (C : list (list R)) (n : nat) :
  List.length m = n ->
  List.length C = n ->
  (forall a, (a < n)%nat -> List.length (nth a m []) = n) ->
  (forall a, (a < n)%nat -> List.length (nth a C []) = n) ->
  (forall a b, (a < n)%nat -> (b < n)%nat ->
     nth b (nth a m []) NaN = Fin (nth b (nth a C []) 0)) ->
  m = map (map Fin) C.
Proof.
  intros Hm HC Hrows HCrows Hentries.
  apply (nth_ext m (map (map Fin) C) [] (map Fin [])).
  - rewrite length_map. congruence.
  - intros a Ha. rewrite Hm in Ha. rewrite map_nth.
    apply (nth_ext _ _ NaN (Fin 0)).
    + rewrite length_map, Hrows, HCrows by exact Ha. reflexivity.
    + intros b Hb. rewrite Hrows in Hb by exact Ha. rewrite map_nth.
      apply Hentries; assumption.
Qed.

Variable vols : list R.

Let n : nat := List.length vols.

Let entry (i j : nat) : R :=
  if Nat.eqb i j then nth i vols 0 * nth i vols 0 else nth i vols 0 * nth j vols 0 * 0.5.

(** The matrix while the loops run: its shape never changes, and the
    entries that have been assigned hold their final value. *)
Let shaped (matrix : list (list number)) : Prop :=
  List.length matrix = n /\ forall a, (a < n)%nat -> List.length (nth a matrix []) = n.

Let assigned (done : nat -> nat -> Prop) (matrix : list (list number)) : Prop :=
  shaped matrix /\
  forall a b, (a < n)%nat -> (b < n)%nat -> done a b ->
    nth b (nth a matrix []) NaN = Fin (entry a b).

Lemma update2_assigned (done : nat -> nat -> Prop) (matrix : list (list number))
  (i j : nat) :
  (i < n)%nat -> (j < n)%nat ->
  assigned done matrix ->
  assigned (fun a b => done a b \/ (a = i /\ b = j))
           (update2 matrix i j (Fin (entry i j))).
Proof.
  intros Hi Hj [[Hlen Hrows] Hdone]. unfold update2.
  split; [split |].
  - rewrite update_length. exact Hlen.
  - intros a Ha. destruct (Nat.eq_dec a i) as [-> | Hne].
    + rewrite update_nth_eq by lia. rewrite update_length. apply Hrows. exact Hi.
    + rewrite update_nth_neq by exact Hne. apply Hrows. exact Ha.
  - intros a b Ha Hb Hab. destruct (Nat.eq_dec a i) as [-> | Hne].
    + rewrite update_nth_eq by lia.
      destruct (Nat.eq_dec b j) as [-> | Hnej].
      * apply update_nth_eq. rewrite Hrows by exact Hi. exact Hj.
      * rewrite update_nth_neq by exact Hnej. apply Hdone; try assumption.
        destruct Hab as [Hab | [_ Hab]]; [exact Hab | contradiction].
    + rewrite update_nth_neq by exact Hne. apply Hdone; try assumption.
      destruct Hab as [Hab | [Hab _]]; [exact Hab | contradiction].
Qed.

Lemma generateCovarianceMatrix_assigned :
  assigned (fun _ _ => True) (generateCovarianceMatrix (map Fin vols)).
Proof.
  unfold generateCovarianceMatrix. rewrite length_map. fold n.
  assert (Hweaken : forall (P Q : nat -> nat -> Prop) matrix,
            (forall a b, (a < n)%nat -> (b < n)%nat -> Q a b -> P a b) ->
            assigned P matrix -> assigned Q matrix).
  { intros P Q matrix HPQ [Hshape HP]. split; [exact Hshape |].
    intros a b Ha Hb Hab. apply HP; try assumption. apply HPQ; assumption. }
  apply (Hweaken (fun a _ => (a < 0 + n)%nat)); [intros; lia |].
  apply (loop_inv (fun i matrix => assigned (fun a _ => (a < i)%nat) matrix)).
  - intros i matrix Hi Hmatrix.
    apply (Hweaken (fun a b => (a < i)%nat \/ (a = i /\ (b < 0 + n)%nat)));
      [intros; lia |].
    apply (loop_inv (fun j matrix =>
                       assigned (fun a b => (a < i)%nat \/ (a = i /\ (b < j)%nat)) matrix)).
    + intros j matrix' Hj Hmatrix'.
      assert (Hstep : assigned (fun a b => (a < i)%nat \/ (a = i /\ (b < Datatypes.S j)%nat))
                        (update2 matrix' i j (Fin (entry i j)))).
      { apply (Hweaken (fun a b => ((a < i)%nat \/ (a = i /\ (b < j)%nat))
                                     \/ (a = i /\ b = j)));
          [intros; lia |].
        apply update2_assigned; [lia | lia | exact Hmatrix']. }
      unfold entry in Hstep. destruct (Nat.eqb i j).
      * rewrite !at_Fin by (fold n; lia). cbn [JS.mul]. exact Hstep.
      * rewrite !at_Fin by (fold n; lia). cbn [JS.mul]. exact Hstep.
    + apply (Hweaken (fun a _ => (a < i)%nat)); [intros; lia | exact Hmatrix].
  - split; [split |].
    + apply repeat_length.
    + intros a Ha. rewrite (nth_indep _ [] (repeat (Fin 0) n)) by (rewrite repeat_length; exact Ha).
      rewrite nth_repeat. apply repeat_length.
    + intros a b _ _ Hab. lia.
Qed.

Lemma generateCovarianceMatrix_value :
  exists C : list (list R),
    generateCovarianceMatrix (map Fin vols) = map (map Fin) C /\
    List.length C = List.length vols /\
    Forall (fun row => List.length row = List.length vols) C /\
    (forall i j, (i < List.length vols)%nat -> (j < List.length vols)%nat ->
       nth j (nth i C []) 0
       = if Nat.eqb i j then nth i vols 0 * nth i vols 0
         else nth i vols 0 * nth j vols 0 * 0.5).
Proof.
  set (C := map (fun i => map (entry i) (seq 0 n)) (seq 0 n)).
  assert (HC : List.length C = n) by (unfold C; rewrite length_map, length_seq; reflexivity).
  assert (Hrow : forall a, (a < n)%nat -> nth a C [] = map (entry a) (seq 0 n)).
  { intros a Ha. unfold C.
    apply (nth_map_seq (fun i => map (entry i) (seq 0 n))). exact Ha. }
  assert (Hentry : forall a b, (a < n)%nat -> (b < n)%nat -> nth b (nth a C []) 0 = entry a b).
  { intros a b Ha Hb. rewrite Hrow by exact Ha. apply nth_map_seq. exact Hb. }
  destruct generateCovarianceMatrix_assigned as [[Hlen Hrows] Hdone].
  exists C. split; [| split; [exact HC | split; [| exact Hentry]]].
  - apply (matrix_ext _ C n); try assumption.
    + intros a Ha. rewrite Hrow by exact Ha. rewrite length_map, length_seq. reflexivity.
    + intros a b Ha Hb. rewrite Hentry by assumption. apply Hdone; auto.
  - apply Forall_forall. intros row Hin.
    destruct (In_nth C row [] Hin) as (a & Ha & <-). rewrite HC in Ha.
    rewrite Hrow by exact Ha. rewrite length_map, length_seq. reflexivity.
Qed.

End Covariance.

Section FrontEnd.

Import JS PortfolioOptimizer Spec Main.

Lemma product_le_square (a b s : R) : Rabs a <= s -> Rabs b <= s -> a * b <= s * s.
Proof.
  intros Ha Hb.
  pose proof (Rle_abs a) as Ha1. pose proof (Rle_abs (- a)) as Ha2.
  pose proof (Rle_abs b) as Hb1. pose proof (Rle_abs (- b)) as Hb2.
  rewrite Rabs_Ropp in Ha2, Hb2.
  assert (Ha' : - s <= a <= s) by lra.
  assert (Hb' : - s <= b <= s) by lra.
  nra.
Qed.

Lemma generated_covariance_feasible (returns : list number) (vols : list R)
  (target : number) (s : R) :
  vols <> [] ->
  List.length returns = List.length vols ->
  Forall (fun v => Rabs v <= s) vols ->
  INR (List.length vols) * (s * s) < 100 ->
  exists ws : list R,
    optimizePortfolio returns (generateCovarianceMatrix (map Fin vols)) target
      both_constraints
    = Ok (map Fin ws) /\
    feasible ws /\ List.length ws = List.length vols.
Proof.
  intros Hne Hlen Hvols Hsmall.
  destruct (generateCovarianceMatrix_value vols) as (C & -> & HC & Hrows & Hentries).
  assert (Hn : (1 <= List.length vols)%nat).
  { destruct vols; [contradiction | cbn [List.length]; lia]. }
  assert (Hvol : forall i, (i < List.length vols)%nat -> Rabs (nth i vols 0) <= s).
  { intros i Hi. rewrite Forall_forall in Hvols. apply Hvols. apply nth_In. exact Hi. }
  apply (optimizePortfolio_feasible returns C target (s * s) (List.length vols));
    try assumption.
  apply Forall_forall. intros row Hrow.
  destruct (In_nth C row [] Hrow) as (i & Hi & <-). rewrite HC in Hi.
  assert (Hrowlen : List.length (nth i C []) = List.length vols).
  { rewrite Forall_forall in Hrows. apply Hrows. apply nth_In. rewrite HC. exact Hi. }
  apply Forall_forall. intros c Hc.
  destruct (In_nth _ c 0 Hc) as (j & Hj & <-). rewrite Hrowlen in Hj.
  rewrite Hentries by assumption.
  pose proof (product_le_square _ _ s (Hvol i Hi) (Hvol i Hi)) as Hii.
  pose proof (product_le_square _ _ s (Hvol i Hi) (Hvol j Hj)) as Hij.
  pose proof (Rabs_pos (nth i vols 0)) as Hs0.
  assert (0 <= s * s) by nra.
  destruct (Nat.eqb i j); lra.
Qed.

Lemma premium_value (spot strike T : R) (type : string) :
  0 < spot -> 0 < strike ->
  exists c : R, premium (Fin spot) (Fin strike) (Fin T) type = Fin c /\ 0 <= c.
Proof.
  intros Hspot Hstrike.
  apply (price_finite_nonneg spot strike 0.05 0.2 T type); assumption.
Qed.

Lemma call_premium_value (spot strike T : R) :
  0 < spot -> 0 < strike -> 0 < T ->
  exists c : R, premium (Fin spot) (Fin strike) (Fin T) "call" = Fin c /\ 0 <= c <= spot.
Proof.
  intros Hspot Hstrike HT.
  destruct (regular_price_bounds spot strike 0.05 0.2 T Hspot Hstrike HT ltac:(lra))
    as (c & _ & Hc & _ & Hbound & _).
  exists c. split; [exact Hc | exact Hbound].
Qed.

Lemma nth_map_default (f : R -> R) (l : list R) (i : nat) :
  (i < List.length l)%nat -> nth i (map f l) 0 = f (nth i l 0).
Proof.
  intros Hi. rewrite (nth_indep _ 0 (f 0)) by (rewrite length_map; exact Hi).
  apply map_nth.
Qed.


Lemma long_payoffs (ps : list R) (spot : R) :
  0 < spot ->
  exists (leapsPremium callPremium putPremium : R) (leaps strangle : list R),
    premium (Fin spot) (Fin spot) (Fin 2) "call" = Fin leapsPremium /\
    premium (Fin spot) (Fin (spot * 1.1)) (Fin (1 / 12)) "call" = Fin callPremium /\
    premium (Fin spot) (Fin (spot * 0.9)) (Fin (1 / 12)) "put" = Fin putPremium /\
    0 <= leapsPremium <= spot /\
    0 <= callPremium /\ 0 <= putPremium /\
    calculateLongLeapsPayoff (map Fin ps) (Fin spot) = map Fin leaps /\
    calculateStranglePayoff (map Fin ps) (Fin spot) = map Fin strangle /\
    List.length leaps = List.length ps /\
    List.length strangle = List.length ps /\
    (forall i, (i < List.length ps)%nat ->
       nth i leaps 0 = Rmax 0 (nth i ps 0 - spot) - leapsPremium /\
       - leapsPremium <= nth i leaps 0 /\
       nth i strangle 0
       = Rmax 0 (nth i ps 0 - spot * 1.1) + Rmax 0 (spot * 0.9 - nth i ps 0)
         - (callPremium + putPremium) /\
       - (callPremium + putPremium) <= nth i strangle 0 /\
       (spot * 0.9 <= nth i ps 0 <= spot * 1.1 ->
        nth i strangle 0 = - (callPremium + putPremium))).
Proof.
  intros Hspot.
  destruct (call_premium_value spot spot 2 Hspot Hspot ltac:(lra)) as (lc & Hlc & Hlcb).
  destruct (premium_value spot (spot * 1.1) (1 / 12) "call" Hspot ltac:(lra))
    as (cc & Hcc & Hccb).
  destruct (premium_value spot (spot * 0.9) (1 / 12) "put" Hspot ltac:(lra))
    as (pc & Hpc & Hpcb).
  exists lc, cc, pc.
  exists (map (fun p => Rmax 0 (p - spot) - lc) ps).
  exists (map (fun p => Rmax 0 (p - spot * 1.1) + Rmax 0 (spot * 0.9 - p) - (cc + pc)) ps).
  split; [exact Hlc |]. split; [exact Hcc |]. split; [exact Hpc |].
  split; [exact Hlcb |]. split; [exact Hccb |]. split; [exact Hpcb |].
  split; [| split; [| split; [apply length_map | split; [apply length_map |]]]].
  - unfold calculateLongLeapsPayoff. rewrite Hlc, !map_map. apply map_ext. intros p.
    rewrite !sub_Fin, max_Fin, sub_Fin. reflexivity.
  - unfold calculateStranglePayoff. cbn [JS.mul]. rewrite div_Fin by lra.
    rewrite Hcc, Hpc, !map_map. apply map_ext. intros p.
    rewrite !sub_Fin, !max_Fin. cbn [JS.add]. rewrite sub_Fin. reflexivity.
  - intros i Hi. rewrite !nth_map_default by exact Hi.
    pose proof (Rmax_l 0 (nth i ps 0 - spot)).
    pose proof (Rmax_l 0 (nth i ps 0 - spot * 1.1)).
    pose proof (Rmax_l 0 (spot * 0.9 - nth i ps 0)).
    split; [reflexivity |]. split; [lra |]. split; [reflexivity |]. split; [lra |].
    intros Hbetween. rewrite !Rmax_left by lra. lra.
Qed.

End FrontEnd.

Section GeneratedRisk.

Import JS PortfolioOptimizer Spec Main.

Lemma sum_snoc (f : nat -> R) (l : list nat) (x : nat) :
  sum (map f (l ++ [x])) = sum (map f l) + f x.
Proof.
  induction l as [| y l IH]; cbn [app map sum fold_right].
  - lra.
  - fold (sum (map f (l ++ [x]))). fold (sum (map f l)). rewrite IH. lra.
Qed.

Lemma sum_map_add (f g : nat -> R) (l : list nat) :
  sum (map (fun k => f k + g k) l) = sum (map f l) + sum (map g l).
Proof.
  induction l as [| y l IH]; cbn [map sum fold_right]; [lra |].
  fold (sum (map (fun k => f k + g k) l)). fold (sum (map f l)). fold (sum (map g l)).
  rewrite IH. lra.
Qed.

Lemma sum_map_scale (c : R) (f : nat -> R) (l : list nat) :
  sum (map (fun k => c * f k) l) = c * sum (map f l).
Proof.
  induction l as [| y l IH]; cbn [map sum fold_right]; [lra |].
  fold (sum (map (fun k => c * f k) l)). fold (sum (map f l)). rewrite IH. lra.
Qed.

Lemma sum_map_ext (f g : nat -> R) (l : list nat) :
  (forall k, In k l -> f k = g k) -> sum (map f l) = sum (map g l).
Proof.
  intros H. f_equal. apply map_ext_in. exact H.
Qed.

(** Only the diagonal term of a row survives. *)
Lemma sum_map_diagonal (g : nat -> R) (i n : nat) :
  sum (map (fun j => if Nat.eqb i j then g j else 0) (seq 0 n))
  = if Nat.ltb i n then g i else 0.
Proof.
  induction n as [| n IH]; [reflexivity |].
  rewrite seq_S, sum_snoc, IH. cbn [Nat.add].
  destruct (Nat.ltb_spec i n) as [Hlt | Hge].
  - rewrite (proj2 (Nat.eqb_neq i n)) by lia.
    rewrite (proj2 (Nat.ltb_lt i (Datatypes.S n))) by lia. lra.
  - destruct (Nat.eqb_spec i n) as [-> | Hne].
    + rewrite (proj2 (Nat.ltb_lt n (Datatypes.S n))) by lia. lra.
    + rewrite (proj2 (Nat.ltb_ge i (Datatypes.S n))) by lia. lra.
Qed.

Lemma sum_map_squares_nonneg (f : nat -> R) (l : list nat) :
  0 <= sum (map (fun k => f k * f k) l).
Proof.
  induction l as [| y l IH]; cbn [map sum fold_right]; [lra |].
  fold (sum (map (fun k => f k * f k) l)). nra.
Qed.

(** The quadratic form of a matrix with unit diagonal weight and weight
    one half elsewhere is half the square of the sum plus half the sum
    of the squares. *)
Lemma half_correlation_form (a : nat -> R) (n : nat) :
  sum (map (fun i =>
              sum (map (fun j => if Nat.eqb i j then a i * a i else a i * a j * 0.5)
                       (seq 0 n)))
           (seq 0 n))
  = 0.5 * (sum (map a (seq 0 n)) * sum (map a (seq 0 n)))
    + 0.5 * sum (map (fun i => a i * a i) (seq 0 n)).
Proof.
  set (A := sum (map a (seq 0 n))).
  rewrite (sum_map_ext _ (fun i => (0.5 * A) * a i + 0.5 * (a i * a i))).
  - rewrite sum_map_add, !sum_map_scale. fold A. lra.
  - intros i Hi. apply in_seq in Hi.
    rewrite (sum_map_ext _ (fun j => (0.5 * a i) * a j
                                     + (if Nat.eqb i j then 0.5 * (a j * a j) else 0))).
    + rewrite sum_map_add, sum_map_scale, sum_map_diagonal. fold A.
      rewrite (proj2 (Nat.ltb_lt i n)) by lia. lra.
    + intros j _. destruct (Nat.eqb_spec i j) as [-> | _]; lra.
Qed.

Lemma reduce_dot (rs : list R) :
  forall (ws : list R) (i : nat) (acc : R),
  (i + List.length ws <= List.length rs)%nat ->
  reduce_from (fun sum weight i => sum + weight * at_ (map Fin rs) i)%js i
    (map Fin ws) (Fin acc)
  = Fin (acc + sum (map (fun k => nth k ws 0 * nth (i + k) rs 0)
                        (seq 0 (List.length ws)))).
Proof.
  induction ws as [| w ws IH]; intros i acc Hlen; cbn [map reduce_from List.length].
  - cbn [seq map sum fold_right]. f_equal. lra.
  - cbn [List.length] in Hlen. rewrite at_Fin by lia. cbn [JS.mul JS.add].
    rewrite IH by lia. f_equal.
    replace (sum (map (fun k => nth k (w :: ws) 0 * nth (i + k) rs 0)
                      (seq 0 (Datatypes.S (List.length ws)))))
      with (w * nth i rs 0
            + sum (map (fun k => nth k ws 0 * nth (Datatypes.S i + k) rs 0)
                       (seq 0 (List.length ws)))); [lra |].
    cbn [seq map]. rewrite <- seq_shift, map_map.
    change (sum (?x :: ?l)) with (x + sum l). cbn [nth]. rewrite Nat.add_0_r.
    f_equal. apply sum_map_ext. intros k _. do 2 f_equal. lia.
Qed.

Lemma cov_at_entry (C : list (list R)) (n i j : nat) :
  List.length C = n ->
  Forall (fun row => List.length row = n) C ->
  (i < n)%nat -> (j < n)%nat ->
  cov_at (map (map Fin) C) i j = Ok (Fin (nth j (nth i C []) 0)).
Proof.
  intros HC Hrows Hi Hj. unfold cov_at.
  rewrite nth_error_map, (nth_error_nth' C []) by lia. cbn [option_map].
  rewrite at_Fin; [reflexivity |].
  rewrite Forall_forall in Hrows. rewrite (Hrows (nth i C [])); [exact Hj |].
  apply nth_In. lia.
Qed.

Lemma portfolio_metrics_value (ws rs : list R) (C : list (list R)) :
  List.length rs = List.length ws ->
  List.length C = List.length ws ->
  Forall (fun row => List.length row = List.length ws) C ->
  calculatePortfolioMetrics (map Fin ws) (map Fin rs) (map (map Fin) C)
  = Ok (let var :=
          sum (map (fun i =>
                      sum (map (fun j => nth i ws 0 * nth j ws 0 * nth j (nth i C []) 0)
                               (seq 0 (List.length ws))))
                   (seq 0 (List.length ws))) in
        {| return_ :=
             Fin (sum (map (fun i => nth i ws 0 * nth i rs 0) (seq 0 (List.length ws))));
           risk := Math_sqrt (Fin var);
           variance := Fin var |}).
Proof.
  intros Hrs HC Hrows. unfold calculatePortfolioMetrics, reduce.
  rewrite reduce_dot by lia. rewrite length_map.
  set (n := List.length ws) in *.
  set (q := fun i j => nth i ws 0 * nth j ws 0 * nth j (nth i C []) 0).
  destruct (for_loop_step_inv
              (fun i (s : number) => s = Fin (sum (map (fun a => sum (map (q a) (seq 0 n)))
                                                       (seq 0 i))))
              (fun i portfolioVariance =>
                 for_loop 0 n
                   (fun j portfolioVariance =>
                      PortfolioOptimizer.bind (cov_at (map (map Fin) C) i j)
                        (fun c => Ok (portfolioVariance
                                      + at_ (map Fin ws) i * at_ (map Fin ws) j * c)%js))
                   portfolioVariance)
              n 0%nat (Fin 0)) as (v & Hv & Hval).
  - intros i s Hi ->.
    destruct (for_loop_step_inv
                (fun j (s : number) =>
                   s = Fin (sum (map (fun a => sum (map (q a) (seq 0 n))) (seq 0 i))
                            + sum (map (q i) (seq 0 j))))
                (fun j portfolioVariance =>
                   PortfolioOptimizer.bind (cov_at (map (map Fin) C) i j)
                     (fun c => Ok (portfolioVariance
                                   + at_ (map Fin ws) i * at_ (map Fin ws) j * c)%js))
                n 0%nat
                (Fin (sum (map (fun a => sum (map (q a) (seq 0 n))) (seq 0 i)))))
      as (s' & Hs' & Hval').
    + intros j s Hj ->.
      rewrite (cov_at_entry C n i j) by (assumption || lia).
      cbn [PortfolioOptimizer.bind]. rewrite !at_Fin by (fold n; lia).
      cbn [JS.mul JS.add]. eexists. split; [reflexivity |].
      rewrite seq_S, sum_snoc. cbn [Nat.add]. unfold q. f_equal. lra.
    + cbn [seq map sum fold_right]. f_equal. lra.
    + exists s'. split; [exact Hs' |]. rewrite Hval'. cbn [Nat.add].
      rewrite seq_S, sum_snoc. reflexivity.
  - reflexivity.
  - rewrite Hv. cbn [PortfolioOptimizer.bind]. rewrite Hval. cbn [Nat.add].
    cbv zeta. do 2 f_equal.
    + f_equal. rewrite Rplus_0_l. apply sum_map_ext. intros k _. reflexivity.
Qed.

Lemma generated_risk_value (ws rs vols : list R) :
  List.length ws = List.length vols ->
  List.length rs = List.length vols ->
  exists ret var : R,
    calculatePortfolioMetrics (map Fin ws) (map Fin rs)
      (generateCovarianceMatrix (map Fin vols))
    = Ok {| return_ := Fin ret; risk := Fin (sqrt var); variance := Fin var |} /\
    ret = sum (map (fun i => nth i ws 0 * nth i rs 0) (seq 0 (List.length ws))) /\
    var = 0.5 * (sum (map (fun i => nth i ws 0 * nth i vols 0) (seq 0 (List.length ws)))
                 * sum (map (fun i => nth i ws 0 * nth i vols 0) (seq 0 (List.length ws))))
          + 0.5 * sum (map (fun i => (nth i ws 0 * nth i vols 0)
                                     * (nth i ws 0 * nth i vols 0))
                           (seq 0 (List.length ws))) /\
    0 <= var.
Proof.
  intros Hws Hrs.
  destruct (generateCovarianceMatrix_value vols) as (C & -> & HC & Hrows & Hentries).
  rewrite <- Hws in HC, Hrows, Hentries.
  rewrite portfolio_metrics_value by (assumption || lia). cbv zeta.
  set (n := List.length ws) in *.
  set (a := fun i => nth i ws 0 * nth i vols 0).
  assert (Hvar : sum (map (fun i =>
                        sum (map (fun j => nth i ws 0 * nth j ws 0 * nth j (nth i C []) 0)
                                 (seq 0 n)))
                     (seq 0 n))
                 = 0.5 * (sum (map a (seq 0 n)) * sum (map a (seq 0 n)))
                   + 0.5 * sum (map (fun i => a i * a i) (seq 0 n))).
  { rewrite <- half_correlation_form. apply sum_map_ext. intros i Hi. apply in_seq in Hi.
    apply sum_map_ext. intros j Hj. apply in_seq in Hj.
    rewrite Hentries by lia. unfold a.
    destruct (Nat.eqb_spec i j) as [-> | _]; lra. }
  rewrite Hvar.
  assert (Hnonneg : 0 <= 0.5 * (sum (map a (seq 0 n)) * sum (map a (seq 0 n)))
                         + 0.5 * sum (map (fun i => a i * a i) (seq 0 n))).
  { pose proof (sum_map_squares_nonneg a (seq 0 n)). nra. }
  rewrite sqrt_Fin by exact Hnonneg.
  eexists. eexists. split; [reflexivity |]. split; [reflexivity |].
  split; [reflexivity | exact Hnonneg].
Qed.

End GeneratedRisk.

(** X21.  From finite volatilities [generateCovarianceMatrix] builds a
    square matrix of finite entries with one row per volatility: the
    variances [v_i * v_i] on the diagonal and [v_i * v_j * 0.5] elsewhere;
    the matrix is symmetric. *)
Theorem generateCovarianceMatrix_entries (vols : list R) :
  exists C : list (list R),
    Main.generateCovarianceMatrix (map JS.Fin vols) = map (map JS.Fin) C /\
    List.length C = List.length vols /\
    Forall (fun row => List.length row = List.length vols) C /\
    (forall i j, (i < List.length vols)%nat -> (j < List.length vols)%nat ->
       nth j (nth i C []) 0
       = (if Nat.eqb i j then nth i vols 0 * nth i vols 0
          else nth i vols 0 * nth j vols 0 * 0.5) /\
       nth j (nth i C []) 0 = nth i (nth j C []) 0).
Proof.
  destruct (generateCovarianceMatrix_value vols) as (C & HC & Hlen & Hrows & Hentries).
  exists C. split; [exact HC |]. split; [exact Hlen |]. split; [exact Hrows |].
  intros i j Hi Hj. split; [apply Hentries; assumption |].
  rewrite !Hentries by assumption. rewrite (Nat.eqb_sym j i).
  destruct (Nat.eqb_spec i j) as [-> | _]; lra.
Qed.

(** X22.  The optimizer on the matrix that the page builds: for at least
    one volatility, all of absolute value at most [s] with
    [n * s^2 < 100] (volatilities up to 100% and fewer than 100
    strategies, say), as many returns and any target, [optimizePortfolio]
    with both constraints returns finite weights that are not negative
    and sum to 1. *)
Theorem generated_covariance_weights_feasible (returns : list JS.number)
  (vols : list R) (target : JS.number) (s : R) :
  vols <> [] ->
  List.length returns = List.length vols ->
  Forall (fun v => Rabs v <= s) vols ->
  INR (List.length vols) * (s * s) < 100 ->
  exists ws : list R,
    PortfolioOptimizer.optimizePortfolio returns
      (Main.generateCovarianceMatrix (map JS.Fin vols)) target Spec.both_constraints
    = PortfolioOptimizer.Ok (map JS.Fin ws) /\
    Spec.feasible ws /\ List.length ws = List.length vols.
Proof. apply generated_covariance_feasible. Qed.

Lemma generated_covariance_weights_feasible_witness :
  exists ws : list R,
    PortfolioOptimizer.optimizePortfolio [JS.Fin 0.1; JS.Fin 0.2]
      (Main.generateCovarianceMatrix (map JS.Fin [0.2; 0.3])) (JS.Fin 0.15)
      Spec.both_constraints
    = PortfolioOptimizer.Ok (map JS.Fin ws) /\
    Spec.feasible ws /\ List.length ws = 2%nat.
Proof.
  apply (generated_covariance_weights_feasible
           [JS.Fin 0.1; JS.Fin 0.2] [0.2; 0.3] (JS.Fin 0.15) 1).
  - discriminate.
  - reflexivity.
  - constructor; [apply Rabs_le; lra |]. constructor; [apply Rabs_le; lra | constructor].
  - cbn [List.length]. change (INR 2) with (1 + 1). lra.
Defined.

(** X23.  The portfolio metrics on the matrix that the page builds: for
    finite weights, returns and volatilities of the same number,
    [calculatePortfolioMetrics] returns the weighted sum of the returns
    and a variance that is half the square of the sum of the [w_i v_i]
    plus half the sum of their squares; it is never negative, so that
    [risk] is its square root and never [NaN]. *)
Theorem generated_covariance_risk_real (ws rs vols : list R) :
  List.length ws = List.length vols ->
  List.length rs = List.length vols ->
  exists ret var : R,
    PortfolioOptimizer.calculatePortfolioMetrics (map JS.Fin ws) (map JS.Fin rs)
      (Main.generateCovarianceMatrix (map JS.Fin vols))
    = PortfolioOptimizer.Ok
        {| PortfolioOptimizer.return_ := JS.Fin ret;
           PortfolioOptimizer.risk := JS.Fin (sqrt var);
           PortfolioOptimizer.variance := JS.Fin var |} /\
    ret = Spec.sum (map (fun i => nth i ws 0 * nth i rs 0) (seq 0 (List.length ws))) /\
    var = 0.5 * (Spec.sum (map (fun i => nth i ws 0 * nth i vols 0)
                               (seq 0 (List.length ws)))
                 * Spec.sum (map (fun i => nth i ws 0 * nth i vols 0)
                                 (seq 0 (List.length ws))))
          + 0.5 * Spec.sum (map (fun i => (nth i ws 0 * nth i vols 0)
                                          * (nth i ws 0 * nth i vols 0))
                                (seq 0 (List.length ws))) /\
    0 <= var.
Proof. apply generated_risk_value. Qed.

Lemma generated_covariance_risk_real_witness :
  exists ret var : R,
    PortfolioOptimizer.calculatePortfolioMetrics
      (map JS.Fin [0.5; 0.5]) (map JS.Fin [0.1; 0.2])
      (Main.generateCovarianceMatrix (map JS.Fin [0.2; 0.3]))
    = PortfolioOptimizer.Ok
        {| PortfolioOptimizer.return_ := JS.Fin ret;
           PortfolioOptimizer.risk := JS.Fin (sqrt var);
           PortfolioOptimizer.variance := JS.Fin var |} /\
    0 <= var.
Proof.
  destruct (generated_covariance_risk_real [0.5; 0.5] [0.1; 0.2] [0.2; 0.3])
    as (ret & var & Hrun & _ & _ & Hvar).
  - reflexivity.
  - reflexivity.
  - exists ret, var. split; [exact Hrun | exact Hvar].
Defined.



(** X25.  The two long strategies have a limited loss.  For a positive
    spot and finite prices, the payoff of the long LEAPS call at price [p]
    is [max(0, p - spot) - premium], never below minus the premium, which
    is itself at most the spot; the payoff of the strangle is
    [max(0, p - 1.1 spot) + max(0, 0.9 spot - p)] minus the two premiums,
    never below minus their sum, and equal to it between the strikes. *)
Theorem long_strategy_payoffs_floored (ps : list R) (spot : R) :
  0 < spot ->
  exists (leapsPremium callPremium putPremium : R) (leaps strangle : list R),
    Main.premium (JS.Fin spot) (JS.Fin spot) (JS.Fin 2) "call" = JS.Fin leapsPremium /\
    Main.premium (JS.Fin spot) (JS.Fin (spot * 1.1)) (JS.Fin (1 / 12)) "call"
    = JS.Fin callPremium /\
    Main.premium (JS.Fin spot) (JS.Fin (spot * 0.9)) (JS.Fin (1 / 12)) "put"
    = JS.Fin putPremium /\
    0 <= leapsPremium <= spot /\
    0 <= callPremium /\ 0 <= putPremium /\
    Main.calculateLongLeapsPayoff (map JS.Fin ps) (JS.Fin spot) = map JS.Fin leaps /\
    Main.calculateStranglePayoff (map JS.Fin ps) (JS.Fin spot) = map JS.Fin strangle /\
    List.length leaps = List.length ps /\
    List.length strangle = List.length ps /\
    (forall i, (i < List.length ps)%nat ->
       nth i leaps 0 = Rmax 0 (nth i ps 0 - spot) - leapsPremium /\
       - leapsPremium <= nth i leaps 0 /\
       nth i strangle 0
       = Rmax 0 (nth i ps 0 - spot * 1.1) + Rmax 0 (spot * 0.9 - nth i ps 0)
         - (callPremium + putPremium) /\
       - (callPremium + putPremium) <= nth i strangle 0 /\
       (spot * 0.9 <= nth i ps 0 <= spot * 1.1 ->
        nth i strangle 0 = - (callPremium + putPremium))).
Proof. apply long_payoffs. Qed.

Lemma long_strategy_payoffs_floored_witness :
  exists (leapsPremium callPremium putPremium : R) (leaps strangle : list R),
    Main.calculateLongLeapsPayoff (map JS.Fin [50; 100; 150]) (JS.Fin 100)
    = map JS.Fin leaps /\
    Main.calculateStranglePayoff (map JS.Fin [50; 100; 150]) (JS.Fin 100)
    = map JS.Fin strangle /\
    - leapsPremium <= nth 0 leaps 0 /\
    nth 1 strangle 0 = - (callPremium + putPremium).
Proof.
  destruct (long_strategy_payoffs_floored [50; 100; 150] 100)
    as (lc & cc & pc & leaps & strangle & _ & _ & _ & _ & _ & _ & Hl & Hs & _ & _ & Hall).
  - lra.
  - exists lc, cc, pc, leaps, strangle. split; [exact Hl |]. split; [exact Hs |].
    destruct (Hall 0%nat) as (_ & H1 & _); [cbn [List.length]; lia |].
    destruct (Hall 1%nat) as (_ & _ & _ & _ & H2); [cbn [List.length]; lia |].
    split; [exact H1 |]. apply H2. cbn [nth]. lra.
Defined.

(** ** Page script: the efficient frontier of the strategies *)

Section GeneratedFrontier.

Import JS PortfolioOptimizer Spec Main.






End GeneratedFrontier.


